(** * GPT inspection and repair tools: a shallow embedding and its properties

    The repository holds four small Go programs that share one GPT codec:

    - [all_gpt_info.go] and a shorter header-only inspector, which decode the
      header at LBA 1, recompute both CRC-32 values and print them; the
      former also lists the partition entries (modules [Text], [GUID],
      [Names], [NameText] and [AllInfo] in the last part of the file; the
      [main] of the latter is [PartInfo.main]);
    - [replace_main_gpt_header_with_backup_gpt_header.go] (variant 1, module
      [V1] below), which re-aligns the partitions behind [FirstUsableLBA] on
      the raw table bytes and rewrites primary and backup metadata;
    - [..._v2_less_verbose_with_output_info.go] (variant 2, module [V2]),
      which does the same on decoded [GPTPartition] records, packing from
      sector 34 with a fixed 128 x 128 table.

    Unsigned Go integers are modelled as [Z] with the wrap-around written
    out, byte slices as [list byte], the opened file as a size together with
    a content function, and [main] as a computation in a small state and
    error monad that also logs every write issued to the file. *)

From Stdlib Require Import ZArith List Lia Bool.
From Stdlib.Strings Require Import String Byte.
From stdpp Require Import base list strings gmap.
Import ListNotations.
Local Open Scope Z_scope.

(** ** Fixed-width integers *)

Module Word.

Definition u32 (z : Z) : Z := z mod 2 ^ 32.
Definition u64 (z : Z) : Z := z mod 2 ^ 64.

(** Conversion of a 64-bit pattern to Go's [int64] (and [int] on 64-bit
    targets): two's complement reinterpretation. *)
Definition i64 (z : Z) : Z := (z + 2 ^ 63) mod 2 ^ 64 - 2 ^ 63.

Definition add64 (a b : Z) : Z := u64 (a + b).
Definition sub64 (a b : Z) : Z := u64 (a - b).

Definition is_u32 (z : Z) : Prop := 0 <= z < 2 ^ 32.
Definition is_u64 (z : Z) : Prop := 0 <= z < 2 ^ 64.

Lemma u64_range z : is_u64 (u64 z).
Proof. unfold is_u64, u64. apply Z.mod_pos_bound. lia. Qed.

Lemma u32_range z : is_u32 (u32 z).
Proof. unfold is_u32, u32. apply Z.mod_pos_bound. lia. Qed.

Lemma u64_small z : is_u64 z -> u64 z = z.
Proof. unfold is_u64, u64. intros H. apply Z.mod_small. lia. Qed.

Lemma i64_small z : 0 <= z < 2 ^ 63 -> i64 z = z.
Proof. unfold i64. intros H. rewrite Z.mod_small; lia. Qed.

Lemma i64_range z : - 2 ^ 63 <= i64 z < 2 ^ 63.
Proof.
  unfold i64. pose proof (Z.mod_pos_bound (z + 2 ^ 63) (2 ^ 64)). lia.
Qed.

Lemma sub64_add64_cancel a b : sub64 (add64 a b) a = u64 b.
Proof.
  unfold sub64, add64, u64. rewrite Zminus_mod_idemp_l. f_equal. lia.
Qed.

End Word.

Import Word.

(** ** Bytes and the little-endian codec of [encoding/binary] *)

Module Bytes.

Definition byte_to_Z (b : byte) : Z := Z.of_N (Byte.to_N b).

Definition byte_of_Z (z : Z) : byte :=
  match Byte.of_N (Z.to_N (z mod 256)) with
  | Some b => b
  | None => x00
  end.

(** [binary.LittleEndian.UintNN] on a slice of exactly the field's width. *)
Fixpoint le_decode (bs : list byte) : Z :=
  match bs with
  | [] => 0
  | b :: rest => byte_to_Z b + 256 * le_decode rest
  end.

(** [binary.LittleEndian.PutUintNN]: the [n] low-order bytes of [v]. *)
Fixpoint le_encode (n : nat) (v : Z) : list byte :=
  match n with
  | O => []
  | S k => byte_of_Z v :: le_encode k (v / 256)
  end.

(** The Go slice expression [b[lo:hi]] on a buffer whose capacity equals its
    length; [None] stands for the run-time panic "slice bounds out of
    range". *)
Definition slice (b : list byte) (lo hi : Z) : option (list byte) :=
  if (0 <=? lo) && (lo <=? hi) && (hi <=? Z.of_nat (length b))
  then Some (take (Z.to_nat (hi - lo)) (drop (Z.to_nat lo) b))
  else None.

(** [copy(b[off:], src)] when the source fits: overwrite in place. *)
Definition overwrite (b : list byte) (off : Z) (src : list byte) : list byte :=
  take (Z.to_nat off) b ++ src ++ drop (Z.to_nat off + length src) b.

(** Go's built-in [copy(dst, src)]: the first [min (len dst) (len src)]
    bytes of [src] replace the head of [dst]. *)
Definition copy (dst src : list byte) : list byte :=
  take (length dst) src ++ drop (length src) dst.

Definition zeros (n : Z) : list byte := repeat x00 (Z.to_nat n).

Definition isZero (b : list byte) : bool :=
  forallb (fun v => Byte.eqb v x00) b.

(** Equality of byte strings, as Go's [==] on [string] values. *)
Fixpoint eqb_bytes (a b : list byte) : bool :=
  match a, b with
  | [], [] => true
  | x :: a', y :: b' => Byte.eqb x y && eqb_bytes a' b'
  | _, _ => false
  end.

Lemma eqb_bytes_true a b : eqb_bytes a b = true <-> a = b.
Proof.
  revert b. induction a as [|x a IH]; intros [|y b]; simpl; split; try easy.
  - intros H. apply andb_prop in H as [H1 H2].
    apply Byte.byte_dec_bl in H1. apply IH in H2. congruence.
  - intros [= -> ->]. apply andb_true_intro. split.
    + apply Byte.byte_dec_lb. reflexivity.
    + apply IH. reflexivity.
Qed.

Lemma byte_to_Z_range b : 0 <= byte_to_Z b < 256.
Proof.
  unfold byte_to_Z. pose proof (Byte.to_N_bounded b) as H.
  lia.
Qed.

Lemma byte_to_of_Z z : byte_to_Z (byte_of_Z z) = z mod 256.
Proof.
  unfold byte_of_Z, byte_to_Z.
  pose proof (Z.mod_pos_bound z 256 ltac:(lia)) as Hr.
  destruct (Byte.of_N (Z.to_N (z mod 256))) as [b|] eqn:E.
  - apply Byte.to_of_N in E. rewrite E. lia.
  - apply Byte.of_N_None_iff in E. lia.
Qed.

Lemma byte_of_to_Z b : byte_of_Z (byte_to_Z b) = b.
Proof.
  unfold byte_of_Z. pose proof (byte_to_Z_range b) as Hr.
  rewrite Z.mod_small by lia. unfold byte_to_Z.
  rewrite N2Z.id, Byte.of_to_N. reflexivity.
Qed.

Lemma le_encode_length n v : length (le_encode n v) = n.
Proof. revert v. induction n as [|n IH]; intros v; simpl; [|rewrite IH]; reflexivity. Qed.

Lemma le_decode_range bs : 0 <= le_decode bs < 256 ^ Z.of_nat (length bs).
Proof.
  induction bs as [|b bs IH].
  - simpl. lia.
  - cbn [le_decode length]. rewrite Nat2Z.inj_succ, Z.pow_succ_r by lia.
    pose proof (byte_to_Z_range b). lia.
Qed.

Lemma le_decode_encode n v : le_decode (le_encode n v) = v mod 256 ^ Z.of_nat n.
Proof.
  revert v. induction n as [|n IH]; intros v.
  - simpl. rewrite Z.mod_1_r. reflexivity.
  - cbn [le_encode le_decode]. rewrite IH, byte_to_of_Z.
    rewrite Nat2Z.inj_succ, Z.pow_succ_r by lia.
    rewrite Z.rem_mul_r by lia. reflexivity.
Qed.

Lemma le_encode_decode bs : le_encode (length bs) (le_decode bs) = bs.
Proof.
  induction bs as [|b bs IH]; [reflexivity|].
  cbn [length le_encode le_decode].
  pose proof (byte_to_Z_range b) as Hb.
  f_equal.
  - rewrite <- (byte_of_to_Z b) at 2. unfold byte_of_Z.
    replace ((byte_to_Z b + 256 * le_decode bs) mod 256) with (byte_to_Z b mod 256); [reflexivity|].
    rewrite (Z.mul_comm 256), Z.mod_add by lia. reflexivity.
  - replace ((byte_to_Z b + 256 * le_decode bs) / 256) with (le_decode bs); [exact IH|].
    rewrite (Z.mul_comm 256), Z.div_add by lia.
    rewrite Z.div_small by lia. lia.
Qed.

Lemma zeros_length n : 0 <= n -> Z.of_nat (length (zeros n)) = n.
Proof. intros H. unfold zeros. rewrite repeat_length. lia. Qed.

Lemma isZero_zeros n : isZero (zeros n) = true.
Proof.
  unfold isZero, zeros. induction (Z.to_nat n) as [|k IH]; [reflexivity|].
  simpl. exact IH.
Qed.

Lemma slice_length b lo hi s : slice b lo hi = Some s -> Z.of_nat (length s) = hi - lo.
Proof.
  unfold slice. destruct (_ && _) eqn:E; [|discriminate].
  intros [= <-]. rewrite length_take, length_drop.
  apply andb_prop in E as [E1 E3]. apply andb_prop in E1 as [E1 E2]. lia.
Qed.

Lemma slice_Some b lo hi :
  0 <= lo -> lo <= hi -> hi <= Z.of_nat (length b) ->
  slice b lo hi = Some (take (Z.to_nat (hi - lo)) (drop (Z.to_nat lo) b)).
Proof.
  intros H1 H2 H3. unfold slice.
  destruct (0 <=? lo) eqn:E1; [|lia].
  destruct (lo <=? hi) eqn:E2; [|lia].
  destruct (hi <=? Z.of_nat (length b)) eqn:E3; [|lia].
  reflexivity.
Qed.

Lemma slice_None_hi b lo hi : Z.of_nat (length b) < hi -> slice b lo hi = None.
Proof.
  intros H. unfold slice.
  destruct (hi <=? Z.of_nat (length b)) eqn:E3; [lia|].
  rewrite andb_false_r. reflexivity.
Qed.

End Bytes.

Import Bytes.

(** ** CRC-32 (IEEE 802.3), as [hash/crc32.ChecksumIEEE] computes it

    Reflected polynomial 0xEDB88320, initial value and final XOR
    0xFFFFFFFF, one shift per message bit. *)

Module CRC32.

Definition poly : Z := 0xEDB88320.

Definition shift1 (c : Z) : Z :=
  if Z.testbit c 0 then Z.lxor (Z.shiftr c 1) poly else Z.shiftr c 1.

Definition update_byte (c : Z) (b : byte) : Z :=
  Nat.iter 8 shift1 (Z.lxor c (byte_to_Z b)).

Definition update (c : Z) (bs : list byte) : Z := fold_left update_byte bs c.

Definition ChecksumIEEE (bs : list byte) : Z :=
  Z.lxor (update 0xFFFFFFFF bs) 0xFFFFFFFF.

(** The check value of the CRC catalogue: the ASCII digits "123456789". *)
Example check_value :
  ChecksumIEEE [x31; x32; x33; x34; x35; x36; x37; x38; x39] = 0xCBF43926.
Proof. vm_compute. reflexivity. Qed.

End CRC32.

Import CRC32.

(** ** The on-disk records and their [encoding/binary] layout *)

Definition SECTOR_SIZE : Z := 512.

(** [int64(lba) * SECTOR_SIZE], the byte offset handed to [Seek] and to
    [ReadAt]/[WriteAt]; the product is an [int64] and wraps like one. *)
Definition lba_offset (lba : Z) : Z := i64 (i64 lba * SECTOR_SIZE).

(** The bytes [b[off : off+n]] of a buffer known to be long enough. *)
Definition field (b : list byte) (off n : nat) : list byte := take n (drop off b).

Module Header.

(** [type GPTHeader struct], the first 92 bytes of a GPT header.  The two
    Go arrays are byte lists of length 8 and 16 (see [wf]). *)
Record GPTHeader := mkHeader {
  Signature : list byte;
  Revision : Z;
  HeaderSize : Z;
  HeaderCRC32 : Z;
  Reserved : Z;
  CurrentLBA : Z;
  BackupLBA : Z;
  FirstUsableLBA : Z;
  LastUsableLBA : Z;
  DiskGUID : list byte;
  PartitionTableLBA : Z;
  NumPartitions : Z;
  PartitionEntrySize : Z;
  PartitionTableCRC : Z
}.

Definition size : nat := 92.

Record wf (h : GPTHeader) : Prop := mkWf {
  wf_sig : length (Signature h) = 8%nat;
  wf_guid : length (DiskGUID h) = 16%nat;
  wf_rev : is_u32 (Revision h);
  wf_hs : is_u32 (HeaderSize h);
  wf_crc : is_u32 (HeaderCRC32 h);
  wf_res : is_u32 (Reserved h);
  wf_cur : is_u64 (CurrentLBA h);
  wf_bak : is_u64 (BackupLBA h);
  wf_first : is_u64 (FirstUsableLBA h);
  wf_last : is_u64 (LastUsableLBA h);
  wf_ptl : is_u64 (PartitionTableLBA h);
  wf_num : is_u32 (NumPartitions h);
  wf_esz : is_u32 (PartitionEntrySize h);
  wf_pcrc : is_u32 (PartitionTableCRC h)
}.

(** The struct filled by [binary.Read(r, binary.LittleEndian, &hdr)] from the
    92 bytes it consumed. *)
Definition of_bytes (b : list byte) : GPTHeader :=
  {| Signature := field b 0 8;
     Revision := le_decode (field b 8 4);
     HeaderSize := le_decode (field b 12 4);
     HeaderCRC32 := le_decode (field b 16 4);
     Reserved := le_decode (field b 20 4);
     CurrentLBA := le_decode (field b 24 8);
     BackupLBA := le_decode (field b 32 8);
     FirstUsableLBA := le_decode (field b 40 8);
     LastUsableLBA := le_decode (field b 48 8);
     DiskGUID := field b 56 16;
     PartitionTableLBA := le_decode (field b 72 8);
     NumPartitions := le_decode (field b 80 4);
     PartitionEntrySize := le_decode (field b 84 4);
     PartitionTableCRC := le_decode (field b 88 4) |}.

(** [binary.Read] from an in-memory reader: the only failure is running out
    of input before the 92 bytes of the struct are read.  The signature is
    not looked at. *)
Definition decode (b : list byte) : option GPTHeader :=
  if (size <=? length b)%nat then Some (of_bytes b) else None.

(** The 92 bytes produced by [binary.Write(w, binary.LittleEndian, hdr)]. *)
Definition encode (h : GPTHeader) : list byte :=
  Signature h ++ le_encode 4 (Revision h) ++ le_encode 4 (HeaderSize h)
  ++ le_encode 4 (HeaderCRC32 h) ++ le_encode 4 (Reserved h)
  ++ le_encode 8 (CurrentLBA h) ++ le_encode 8 (BackupLBA h)
  ++ le_encode 8 (FirstUsableLBA h) ++ le_encode 8 (LastUsableLBA h)
  ++ DiskGUID h ++ le_encode 8 (PartitionTableLBA h)
  ++ le_encode 4 (NumPartitions h) ++ le_encode 4 (PartitionEntrySize h)
  ++ le_encode 4 (PartitionTableCRC h).

(** Assignments to single struct fields, [h.Field = v]. *)
Definition set_HeaderCRC32 (v : Z) (h : GPTHeader) : GPTHeader :=
  {| Signature := Signature h; Revision := Revision h;
     HeaderSize := HeaderSize h; HeaderCRC32 := v;
     Reserved := Reserved h; CurrentLBA := CurrentLBA h;
     BackupLBA := BackupLBA h; FirstUsableLBA := FirstUsableLBA h;
     LastUsableLBA := LastUsableLBA h; DiskGUID := DiskGUID h;
     PartitionTableLBA := PartitionTableLBA h;
     NumPartitions := NumPartitions h;
     PartitionEntrySize := PartitionEntrySize h;
     PartitionTableCRC := PartitionTableCRC h |}.

Definition set_CurrentLBA (v : Z) (h : GPTHeader) : GPTHeader :=
  {| Signature := Signature h; Revision := Revision h;
     HeaderSize := HeaderSize h; HeaderCRC32 := HeaderCRC32 h;
     Reserved := Reserved h; CurrentLBA := v; BackupLBA := BackupLBA h;
     FirstUsableLBA := FirstUsableLBA h;
     LastUsableLBA := LastUsableLBA h; DiskGUID := DiskGUID h;
     PartitionTableLBA := PartitionTableLBA h;
     NumPartitions := NumPartitions h;
     PartitionEntrySize := PartitionEntrySize h;
     PartitionTableCRC := PartitionTableCRC h |}.

Definition set_BackupLBA (v : Z) (h : GPTHeader) : GPTHeader :=
  {| Signature := Signature h; Revision := Revision h;
     HeaderSize := HeaderSize h; HeaderCRC32 := HeaderCRC32 h;
     Reserved := Reserved h; CurrentLBA := CurrentLBA h; BackupLBA := v;
     FirstUsableLBA := FirstUsableLBA h;
     LastUsableLBA := LastUsableLBA h; DiskGUID := DiskGUID h;
     PartitionTableLBA := PartitionTableLBA h;
     NumPartitions := NumPartitions h;
     PartitionEntrySize := PartitionEntrySize h;
     PartitionTableCRC := PartitionTableCRC h |}.

Definition set_LastUsableLBA (v : Z) (h : GPTHeader) : GPTHeader :=
  {| Signature := Signature h; Revision := Revision h;
     HeaderSize := HeaderSize h; HeaderCRC32 := HeaderCRC32 h;
     Reserved := Reserved h; CurrentLBA := CurrentLBA h;
     BackupLBA := BackupLBA h; FirstUsableLBA := FirstUsableLBA h;
     LastUsableLBA := v; DiskGUID := DiskGUID h;
     PartitionTableLBA := PartitionTableLBA h;
     NumPartitions := NumPartitions h;
     PartitionEntrySize := PartitionEntrySize h;
     PartitionTableCRC := PartitionTableCRC h |}.

Definition set_PartitionTableLBA (v : Z) (h : GPTHeader) : GPTHeader :=
  {| Signature := Signature h; Revision := Revision h;
     HeaderSize := HeaderSize h; HeaderCRC32 := HeaderCRC32 h;
     Reserved := Reserved h; CurrentLBA := CurrentLBA h;
     BackupLBA := BackupLBA h; FirstUsableLBA := FirstUsableLBA h;
     LastUsableLBA := LastUsableLBA h; DiskGUID := DiskGUID h;
     PartitionTableLBA := v; NumPartitions := NumPartitions h;
     PartitionEntrySize := PartitionEntrySize h;
     PartitionTableCRC := PartitionTableCRC h |}.

Definition set_PartitionTableCRC (v : Z) (h : GPTHeader) : GPTHeader :=
  {| Signature := Signature h; Revision := Revision h;
     HeaderSize := HeaderSize h; HeaderCRC32 := HeaderCRC32 h;
     Reserved := Reserved h; CurrentLBA := CurrentLBA h;
     BackupLBA := BackupLBA h; FirstUsableLBA := FirstUsableLBA h;
     LastUsableLBA := LastUsableLBA h; DiskGUID := DiskGUID h;
     PartitionTableLBA := PartitionTableLBA h;
     NumPartitions := NumPartitions h;
     PartitionEntrySize := PartitionEntrySize h;
     PartitionTableCRC := v |}.

Definition GPT_SIGNATURE : list byte := [x45; x46; x49; x20; x50; x41; x52; x54].

End Header.

Module Partition.

(** [type GPTPartition struct], one 128-byte slot of the entry array. *)
Record GPTPartition := mkPartition {
  TypeGUID : list byte;
  PartitionGUID : list byte;
  StartLBA : Z;
  EndLBA : Z;
  Attributes : Z;
  Name : list byte
}.

Definition size : nat := 128.

Record wf (p : GPTPartition) : Prop := mkWf {
  wf_type : length (TypeGUID p) = 16%nat;
  wf_guid : length (PartitionGUID p) = 16%nat;
  wf_start : is_u64 (StartLBA p);
  wf_end : is_u64 (EndLBA p);
  wf_attr : is_u64 (Attributes p);
  wf_name : length (Name p) = 72%nat
}.

Definition of_bytes (b : list byte) : GPTPartition :=
  {| TypeGUID := field b 0 16;
     PartitionGUID := field b 16 16;
     StartLBA := le_decode (field b 32 8);
     EndLBA := le_decode (field b 40 8);
     Attributes := le_decode (field b 48 8);
     Name := field b 56 72 |}.

Definition encode (p : GPTPartition) : list byte :=
  TypeGUID p ++ PartitionGUID p ++ le_encode 8 (StartLBA p)
  ++ le_encode 8 (EndLBA p) ++ le_encode 8 (Attributes p) ++ Name p.

(** The three Go arrays of the struct have their declared lengths. *)
Definition sized (p : GPTPartition) : Prop :=
  length (TypeGUID p) = 16%nat /\ length (PartitionGUID p) = 16%nat
  /\ length (Name p) = 72%nat.

Lemma encode_length p : sized p -> length (encode p) = size.
Proof.
  intros (H1 & H2 & H3). unfold encode, size.
  rewrite !length_app, !le_encode_length, H1, H2, H3. reflexivity.
Qed.

Lemma of_bytes_sized b : length b = size -> sized (of_bytes b).
Proof.
  intros H. unfold sized, of_bytes, field, size in *. cbn [TypeGUID PartitionGUID Name].
  rewrite !length_take, !length_drop, H. repeat split; reflexivity.
Qed.

(** [p.StartLBA = s; p.EndLBA = e]. *)
Definition set_lbas (s e : Z) (p : GPTPartition) : GPTPartition :=
  {| TypeGUID := TypeGUID p; PartitionGUID := PartitionGUID p;
     StartLBA := s; EndLBA := e; Attributes := Attributes p; Name := Name p |}.

End Partition.

(** ** The opened file and the effects of [main]

    A run either finishes, or stops in [log.Fatalf], or panics.  The state
    threaded through [main] is the file (its size and contents), the offset
    of the next sequential read or write, and the list of write calls issued
    so far, oldest first.  The file is a regular file: writing past its end
    extends it, reading past its end is an error. *)

Module IO.

Record File := mkFile { f_size : Z; f_at : Z -> byte }.

Inductive result (A : Type) : Type :=
| Ok (a : A)
| Fatal (msg : string)
| Panic (msg : string).
Arguments Ok {A} a.
Arguments Fatal {A} msg.
Arguments Panic {A} msg.

Record wr := mkWr { w_off : Z; w_data : list byte }.

Record world := mkWorld { disk : File; pos : Z; wlog : list wr }.

Definition IO (A : Type) : Type := world -> result A * world.

Definition ret {A} (a : A) : IO A := fun w => (Ok a, w).

Definition bind {A B} (c : IO A) (k : A -> IO B) : IO B :=
  fun w =>
    match c w with
    | (Ok a, w') => k a w'
    | (Fatal m, w') => (Fatal m, w')
    | (Panic m, w') => (Panic m, w')
    end.

Definition fatal {A} (msg : string) : IO A := fun w => (Fatal msg, w).
Definition panic {A} (msg : string) : IO A := fun w => (Panic msg, w).

(** [if err != nil { log.Fatalf(msg, ...) }] after a call returning an error. *)
Definition orFatal {A} (msg : string) (c : IO (option A)) : IO A :=
  bind c (fun r => match r with Some a => ret a | None => fatal msg end).

(** A Go expression that may panic. *)
Definition orPanic {A} (msg : string) (r : option A) : IO A :=
  match r with Some a => ret a | None => panic msg end.

Definition read_bytes (f : File) (off : Z) (n : nat) : list byte :=
  map (fun k => f_at f (off + Z.of_nat k)) (seq 0 n).

Definition write_bytes (f : File) (off : Z) (data : list byte) : File :=
  match data with
  | [] => f
  | _ =>
    {| f_size := Z.max (f_size f) (off + Z.of_nat (length data));
       f_at := fun z =>
         if (off <=? z) && (z <? off + Z.of_nat (length data))
         then nth (Z.to_nat (z - off)) data x00
         else if f_size f <=? z then x00 else f_at f z |}
  end.

(** [f.Stat()] followed by [fi.Size()]. *)
Definition Stat : IO Z := fun w => (Ok (f_size (disk w)), w).

(** [f.ReadAt(buf, off)] with [len(buf) = n]; [None] is a non-nil error
    (negative offset, or end of file before [n] bytes). *)
Definition ReadAt (n : Z) (off : Z) : IO (option (list byte)) := fun w =>
  if off <? 0 then (Ok None, w)
  else if (n =? 0) || (off + n <=? f_size (disk w))
  then (Ok (Some (read_bytes (disk w) off (Z.to_nat n))), w)
  else (Ok None, w).

(** [f.WriteAt(data, off)]. *)
Definition WriteAt (data : list byte) (off : Z) : IO (option unit) := fun w =>
  if off <? 0 then (Ok None, w)
  else (Ok (Some tt),
        {| disk := write_bytes (disk w) off data;
           pos := pos w;
           wlog := wlog w ++ [mkWr off data] |}).

(** [f.Seek(off, io.SeekStart)]. *)
Definition Seek (off : Z) : IO (option unit) := fun w =>
  if off <? 0 then (Ok None, w)
  else (Ok (Some tt), {| disk := disk w; pos := off; wlog := wlog w |}).

(** [io.ReadFull(f, buf)] as [binary.Read] calls it, [len(buf) = n]. *)
Definition ReadFull (n : Z) : IO (option (list byte)) := fun w =>
  if pos w + n <=? f_size (disk w)
  then (Ok (Some (read_bytes (disk w) (pos w) (Z.to_nat n))),
        {| disk := disk w; pos := pos w + n; wlog := wlog w |})
  else (Ok None, {| disk := disk w; pos := Z.max (pos w) (f_size (disk w)); wlog := wlog w |}).

(** [f.Write(data)] as [binary.Write] calls it. *)
Definition Write (data : list byte) : IO (option unit) := fun w =>
  (Ok (Some tt),
   {| disk := write_bytes (disk w) (pos w) data;
      pos := pos w + Z.of_nat (length data);
      wlog := wlog w ++ [mkWr (pos w) data] |}).

(** A freshly opened file. *)
Definition open (f : File) : world := {| disk := f; pos := 0; wlog := [] |}.

(** An image given by its bytes, for running [main] on small examples. *)
Definition image (bs : list byte) : File :=
  {| f_size := Z.of_nat (length bs);
     f_at := fun z => nth (Z.to_nat z) bs x00 |}.

End IO.

Import IO.

Notation "x <-- c ;; k" := (bind c (fun x => k))
  (at level 100, c at next level, right associativity).
Notation "c ;;; k" := (bind c (fun _ => k))
  (at level 100, right associativity).

(** ** Variant 2: relocation on decoded records, fixed 128 x 128 table *)

Module V2.

Import Header Partition.

Definition PARTITION_ENTRY_COUNT : Z := 128.
Definition PARTITION_ENTRY_SIZE : Z := 128.

(** [byteBuffer.Write]: [n = copy(b.b, p)]; never an error, also when
    [p] does not fit. *)
Definition byteBuffer_Write (buf p : list byte) : list byte := copy buf p.

(** [copy(dst[off:], src)]. *)
Definition copy_at (dst : list byte) (off : nat) (src : list byte) : list byte :=
  take off dst ++ copy (drop off dst) src.

(** Lines 98-103: 128 sequential [binary.Read] calls of 128 bytes each. *)
Fixpoint read_partitions (n : nat) : IO (list GPTPartition) :=
  match n with
  | O => ret []
  | S k =>
    b <-- orFatal "Error reading partition" (ReadFull 128) ;;
    ps <-- read_partitions k ;;
    ret (Partition.of_bytes b :: ps)
  end.

(** Lines 109-124: the relocation loop, [nextFreeSector] threaded through
    the slots in index order. *)
Fixpoint relocate (ps : list GPTPartition) (nextFreeSector : Z)
  : list GPTPartition * Z :=
  match ps with
  | [] => ([], nextFreeSector)
  | p :: rest =>
    if isZero (TypeGUID p) then
      let (rest', c) := relocate rest nextFreeSector in (p :: rest', c)
    else
      let partitionSize := u64 (u64 (EndLBA p - StartLBA p) + 1) in
      let newStart := nextFreeSector in
      let newEnd := u64 (u64 (nextFreeSector + partitionSize) - 1) in
      let (rest', c) := relocate rest (u64 (newEnd + 1)) in
      (set_lbas newStart newEnd p :: rest', c)
  end.

(** Lines 127-135: every record is serialised into its own 128-byte buffer,
    which is copied to slot [i] of a zeroed 16384-byte buffer. *)
Fixpoint fill_table (i : nat) (ps : list GPTPartition) (tbl : list byte)
  : list byte :=
  match ps with
  | [] => tbl
  | p :: rest =>
    let buf := byteBuffer_Write (zeros PARTITION_ENTRY_SIZE) (Partition.encode p) in
    fill_table (S i) rest (copy_at tbl (i * Z.to_nat PARTITION_ENTRY_SIZE) buf)
  end.

Definition partitionTableBytes (ps : list GPTPartition) : list byte :=
  fill_table 0 ps (zeros (PARTITION_ENTRY_COUNT * PARTITION_ENTRY_SIZE)).

(** Lines 139-145 and 176-182: the checksum of a header, its CRC field
    zeroed, serialised into a buffer of [HeaderSize] bytes. *)
Definition seal (h : GPTHeader) : GPTHeader :=
  let h0 := set_HeaderCRC32 0 h in
  let headerBytes := byteBuffer_Write (zeros (HeaderSize h0)) (Header.encode h0) in
  set_HeaderCRC32 (ChecksumIEEE headerBytes) h0.

(** Lines 88-89. *)
Definition resize (lastSector : Z) (h : GPTHeader) : GPTHeader :=
  set_BackupLBA lastSector (set_LastUsableLBA (u64 (lastSector - 33)) h).

(** Lines 170-173. *)
Definition mirror (gptHeader : GPTHeader) : GPTHeader :=
  set_PartitionTableLBA (u64 (BackupLBA gptHeader - 33))
    (set_BackupLBA (CurrentLBA gptHeader)
       (set_CurrentLBA (BackupLBA gptHeader) gptHeader)).

(** Lines 162-167 and 199-204: one [binary.Write] to the file per slot. *)
Fixpoint write_partitions (msg : string) (ps : list GPTPartition) : IO unit :=
  match ps with
  | [] => ret tt
  | p :: rest =>
    orFatal msg (Write (Partition.encode p)) ;;;
    write_partitions msg rest
  end.

Record outcome := mkOutcome {
  o_primary : GPTHeader;
  o_backup : GPTHeader;
  o_partitions : list GPTPartition
}.

Definition main : IO outcome :=
  fileSize <-- Stat ;;
  let lastSector := u64 (u64 fileSize / SECTOR_SIZE - 1) in
  orFatal "Error seeking to GPT header" (Seek SECTOR_SIZE) ;;;
  hb <-- orFatal "Error reading GPT header" (ReadFull (Z.of_nat Header.size)) ;;
  let gptHeader := Header.of_bytes hb in
  if negb (eqb_bytes (Signature gptHeader) GPT_SIGNATURE)
  then fatal "Invalid GPT signature"
  else
  let gptHeader := resize lastSector gptHeader in
  orFatal "Error seeking to partition table"
    (Seek (lba_offset (PartitionTableLBA gptHeader))) ;;;
  partitions <-- read_partitions (Z.to_nat PARTITION_ENTRY_COUNT) ;;
  let partitions := fst (relocate partitions 34) in
  let gptHeader :=
    set_PartitionTableCRC (ChecksumIEEE (partitionTableBytes partitions)) gptHeader in
  let gptHeader := seal gptHeader in
  orFatal "Error seeking to primary header" (Seek SECTOR_SIZE) ;;;
  orFatal "Error writing primary header" (Write (Header.encode gptHeader)) ;;;
  orFatal "Error seeking to partition table"
    (Seek (lba_offset (PartitionTableLBA gptHeader))) ;;;
  write_partitions "Error writing partition" partitions ;;;
  let backupHeader := seal (mirror gptHeader) in
  orFatal "Error seeking to backup header"
    (Seek (lba_offset (CurrentLBA backupHeader))) ;;;
  orFatal "Error writing backup header" (Write (Header.encode backupHeader)) ;;;
  orFatal "Error seeking to backup partition table"
    (Seek (lba_offset (PartitionTableLBA backupHeader))) ;;;
  write_partitions "Error writing backup partition" partitions ;;;
  ret {| o_primary := gptHeader; o_backup := backupHeader;
         o_partitions := partitions |}.

End V2.

(** ** Variant 1: relocation on the raw table bytes, geometry from the header *)

Module V1.

Import Header.

(** Lines 85-104.  [entry[32:40]] and [entry[40:48]] are slices of
    [tableBuf[off : off+entrySize]]; their bounds are checked against the
    capacity left in [tableBuf] behind [off], and the two [PutUint64] calls
    write through to [tableBuf].  [None] is the slice-bounds panic. *)
Fixpoint realign (fuel : nat) (i entrySize : Z) (tableBuf : list byte)
    (curStart : Z) : option (list byte * Z) :=
  match fuel with
  | O => Some (tableBuf, curStart)
  | S k =>
    let off := i * entrySize in
    match slice tableBuf off (off + entrySize),
          slice tableBuf (off + 32) (off + 40),
          slice tableBuf (off + 40) (off + 48) with
    | Some _, Some bs, Some be =>
      let oldStart := le_decode bs in
      let oldEnd := le_decode be in
      if (oldEnd =? 0) || (oldStart =? 0) then
        realign k (i + 1) entrySize tableBuf curStart
      else
        let size := u64 (u64 (oldEnd - oldStart) + 1) in
        let newStart := curStart in
        let newEnd := u64 (u64 (newStart + size) - 1) in
        let tableBuf := overwrite tableBuf (off + 32) (le_encode 8 newStart) in
        let tableBuf := overwrite tableBuf (off + 40) (le_encode 8 newEnd) in
        realign k (i + 1) entrySize tableBuf (u64 (newEnd + 1))
    | _, _, _ => None
    end
  end.

(** Lines 121-133 and 156-168: serialise, pad to [HeaderSize], zero the CRC
    field, checksum the first [HeaderSize] bytes, store the checksum. *)
Definition checksummed (h : GPTHeader) : list byte * Z :=
  let hdrBytes := Header.encode h in
  let hdrBytes :=
    if Z.of_nat (length hdrBytes) <? HeaderSize h
    then hdrBytes ++ zeros (HeaderSize h - Z.of_nat (length hdrBytes))
    else hdrBytes in
  let hdrBytes := overwrite hdrBytes 16 (zeros 4) in
  let crc := ChecksumIEEE (take (Z.to_nat (HeaderSize h)) hdrBytes) in
  (overwrite hdrBytes 16 (le_encode 4 crc), crc).

(** [hdrBytes[:primary.HeaderSize]] as handed to [WriteAt] (lines 136, 172). *)
Definition header_bytes (h : GPTHeader) : list byte :=
  take (Z.to_nat (HeaderSize h)) (fst (checksummed h)).

(** Line 115. *)
Definition partSectors (tableBytes : Z) : Z :=
  u64 (Z.quot (i64 (tableBytes + SECTOR_SIZE - 1)) SECTOR_SIZE).

(** Lines 116-118. *)
Definition resize (totalSectors tableBytes : Z) (primary : GPTHeader) : GPTHeader :=
  let backupHdrLBA := u64 (totalSectors - 1) in
  set_LastUsableLBA (u64 (u64 (backupHdrLBA - partSectors tableBytes) - 1))
    (set_BackupLBA backupHdrLBA primary).

(** Line 143. *)
Definition backupTableLBA (totalSectors tableBytes : Z) : Z :=
  u64 (u64 (totalSectors - 1) - partSectors tableBytes).

(** Lines 149-153. *)
Definition mirror (backupHdrLBA backupTableLBA tableCRC : Z) (primary : GPTHeader)
  : GPTHeader :=
  set_PartitionTableCRC tableCRC
    (set_PartitionTableLBA backupTableLBA
       (set_BackupLBA 1 (set_CurrentLBA backupHdrLBA primary))).

Record outcome := mkOutcome {
  o_primary : GPTHeader;
  o_backup : GPTHeader;
  o_table : list byte
}.

Definition main : IO outcome :=
  fileSize <-- Stat ;;
  if negb (Z.rem fileSize SECTOR_SIZE =? 0)
  then fatal "file size not a multiple of 512"
  else
  let totalSectors := u64 (Z.quot fileSize SECTOR_SIZE) in
  let primHdrOff := SECTOR_SIZE * 1 in
  primHdrBuf <-- orFatal "read primary header" (ReadAt SECTOR_SIZE primHdrOff) ;;
  primary <-- orFatal "decode primary header" (ret (Header.decode primHdrBuf)) ;;
  let entrySize := PartitionEntrySize primary in
  let numEntries := NumPartitions primary in
  let tableBytes := i64 (numEntries * entrySize) in
  let primTableOff := lba_offset (PartitionTableLBA primary) in
  if fileSize <? i64 (primTableOff + tableBytes)
  then fatal "primary partition table beyond file size"
  else
  if tableBytes <? 0 then panic "makeslice: len out of range" else
  tableBuf <-- orFatal "read primary entries" (ReadAt tableBytes primTableOff) ;;
  r <-- orPanic "slice bounds out of range"
        (realign (Z.to_nat numEntries) 0 entrySize tableBuf (FirstUsableLBA primary)) ;;
  let tableBuf := fst r in
  orFatal "write primary entries" (WriteAt tableBuf primTableOff) ;;;
  let tableCRC := ChecksumIEEE tableBuf in
  let primary := set_PartitionTableCRC tableCRC primary in
  let backupHdrLBA := u64 (totalSectors - 1) in
  let primary := resize totalSectors tableBytes primary in
  orFatal "write primary header" (WriteAt (header_bytes primary) primHdrOff) ;;;
  let backupTableLBA := backupTableLBA totalSectors tableBytes in
  let backupTableOff := lba_offset backupTableLBA in
  orFatal "write backup entries" (WriteAt tableBuf backupTableOff) ;;;
  let backup := mirror backupHdrLBA backupTableLBA tableCRC primary in
  let backupHdrOff := lba_offset backupHdrLBA in
  orFatal "write backup header" (WriteAt (header_bytes backup) backupHdrOff) ;;;
  ret {| o_primary := primary; o_backup := backup; o_table := tableBuf |}.

End V1.

(** ** The inspectors: recomputing the header checksum

    Both inspection programs contain the same block ([all_gpt_info.go] lines
    224-230, the header-only inspector lines 61-68).  [hdrBuf] is the sector
    read from LBA 1 and [hdr] the struct decoded from it. *)

Module Inspect.

Import Header.

Inductive crc_result : Type :=
| Crc (calcHdrCRC : Z) (hdrForCRC : list byte)
| SliceOutOfRange
| IndexOutOfRange.

(** [hdrForCRC[i] = 0] for [i] from 16 to 19; [None] when an index is outside
    the buffer. *)
Fixpoint zero_from (i : nat) (n : nat) (b : list byte) : option (list byte) :=
  match n with
  | O => Some b
  | S k =>
    if (i <? length b)%nat then zero_from (S i) k (<[i := x00]> b) else None
  end.

Definition recalc (hdrBuf : list byte) (hdr : GPTHeader) : crc_result :=
  let hdrForCRC := zeros (HeaderSize hdr) in
  match slice hdrBuf 0 (HeaderSize hdr) with
  | None => SliceOutOfRange
  | Some src =>
    let hdrForCRC := copy hdrForCRC src in
    match zero_from 16 4 hdrForCRC with
    | None => IndexOutOfRange
    | Some hdrForCRC => Crc (ChecksumIEEE hdrForCRC) hdrForCRC
    end
  end.

(** The header-only inspector up to the computation of [calcHdrCRC]
    (lines 49-68). *)
Definition main_prefix : IO Z :=
  hdrBuf <-- orFatal "read header" (ReadAt SECTOR_SIZE SECTOR_SIZE) ;;
  hdr <-- orFatal "decode header" (ret (Header.decode hdrBuf)) ;;
  match recalc hdrBuf hdr with
  | Crc c _ => ret c
  | SliceOutOfRange => panic "slice bounds out of range"
  | IndexOutOfRange => panic "index out of range"
  end.

End Inspect.

(** ** The cursor arithmetic shared by both relocation loops

    Both loops do the same three assignments on unsigned 64-bit values;
    they differ in how a slot is recognised as empty and in where the LBAs
    are stored.  A [slot] is what either loop looks at in one table entry. *)

Module Pack.

Record slot := mkSlot { skip : bool; lo : Z; hi : Z }.

(** [newEnd := newStart + size - 1] with [size := oldEnd - oldStart + 1]. *)
Definition newEnd (cur : Z) (s : slot) : Z :=
  u64 (u64 (cur + u64 (u64 (hi s - lo s) + 1)) - 1).

(** The LBAs of a slot after its iteration, and the cursor behind it. *)
Definition placed (cur : Z) (s : slot) : Z * Z :=
  if skip s then (lo s, hi s) else (cur, newEnd cur s).

Definition step (cur : Z) (s : slot) : Z :=
  if skip s then cur else u64 (newEnd cur s + 1).

Fixpoint pack (ss : list slot) (cur : Z) : list (Z * Z) * Z :=
  match ss with
  | [] => ([], cur)
  | s :: rest =>
    let (r, c) := pack rest (step cur s) in (placed cur s :: r, c)
  end.

(** Sectors claimed by the occupied slots, as an unbounded integer. *)
Fixpoint extent (ss : list slot) : Z :=
  match ss with
  | [] => 0
  | s :: rest => (if skip s then 0 else hi s - lo s + 1) + extent rest
  end.

(** Every occupied slot holds a proper range of 64-bit LBAs. *)
Definition proper (s : slot) : Prop :=
  skip s = false -> 0 <= lo s /\ lo s <= hi s /\ hi s < 2 ^ 64.

Lemma newEnd_eq cur s : newEnd cur s = u64 (cur + (hi s - lo s)).
Proof.
  unfold newEnd, u64.
  rewrite Zminus_mod_idemp_l, Zplus_mod_idemp_l, <- Z.add_sub_assoc.
  rewrite <- (Zplus_mod_idemp_r (_ - 1)), Zminus_mod_idemp_l, Zplus_mod_idemp_r.
  f_equal. lia.
Qed.

Lemma newEnd_sub cur s : sub64 (newEnd cur s) cur = u64 (hi s - lo s).
Proof.
  rewrite newEnd_eq. unfold sub64, u64.
  rewrite Zminus_mod_idemp_l. f_equal. lia.
Qed.

Lemma pack_length ss cur : length (fst (pack ss cur)) = length ss.
Proof.
  revert cur. induction ss as [|s ss IH]; intros cur; [reflexivity|].
  simpl. specialize (IH (step cur s)). destruct (pack ss (step cur s)).
  simpl in *. lia.
Qed.

Lemma pack_app a b cur :
  pack (a ++ b) cur =
  (fst (pack a cur) ++ fst (pack b (snd (pack a cur))),
   snd (pack b (snd (pack a cur)))).
Proof.
  revert cur. induction a as [|s a IH]; intros cur; simpl.
  - destruct (pack b cur). reflexivity.
  - rewrite IH. destruct (pack a (step cur s)). reflexivity.
Qed.

Lemma pack_cons s ss cur :
  pack (s :: ss) cur =
  (placed cur s :: fst (pack ss (step cur s)), snd (pack ss (step cur s))).
Proof. simpl. destruct (pack ss (step cur s)). reflexivity. Qed.

(** What iteration [i] does: it sees the cursor left by the slots before
    it, stores [placed], and hands on [step]. *)
Lemma pack_lookup ss cur i s :
  ss !! i = Some s ->
  fst (pack ss cur) !! i = Some (placed (snd (pack (take i ss) cur)) s).
Proof.
  revert cur i. induction ss as [|t ss IH]; intros cur i H; [discriminate|].
  rewrite pack_cons. destruct i as [|i]; simpl in *.
  - congruence.
  - rewrite (IH _ _ H). destruct (pack (take i ss) (step cur t)). reflexivity.
Qed.

Lemma pack_cursor_S ss cur i s :
  ss !! i = Some s ->
  snd (pack (take (S i) ss) cur) = step (snd (pack (take i ss) cur)) s.
Proof.
  intros H. rewrite (take_S_r _ _ _ H), pack_app. simpl. reflexivity.
Qed.

Lemma extent_app a b : extent (a ++ b) = extent a + extent b.
Proof. induction a as [|s a IH]; simpl; lia. Qed.

Lemma extent_nonneg ss : Forall proper ss -> 0 <= extent ss.
Proof.
  induction 1 as [|s ss Hs _ IH]; simpl; [lia|].
  unfold proper in Hs. destruct (skip s); [lia|]. specialize (Hs eq_refl). lia.
Qed.

Lemma extent_lookup ss i s :
  Forall proper ss -> ss !! i = Some s -> skip s = false ->
  hi s - lo s + 1 <= extent ss.
Proof.
  intros Hp. revert i. induction Hp as [|t ss Ht Hp IH]; intros i H Hs; [discriminate|].
  destruct i as [|i]; simpl in *.
  - injection H as ->. rewrite Hs. pose proof (extent_nonneg _ Hp). lia.
  - specialize (IH _ H Hs). unfold proper in Ht.
    destruct (skip t); [lia|]. specialize (Ht eq_refl). lia.
Qed.

(** As long as the packed layout stays inside the 64-bit LBA space, the
    cursor in front of an occupied slot is the base plus the sizes of the
    occupied slots before it. *)
Lemma pack_cursor_exact ss cur i s :
  Forall proper ss -> 0 <= cur -> cur + extent ss <= 2 ^ 64 ->
  ss !! i = Some s -> skip s = false ->
  snd (pack (take i ss) cur) = cur + extent (take i ss).
Proof.
  intros Hp. revert cur i.
  induction Hp as [|t ss Ht Hp IH]; intros cur i Hc Hx H Hs; [discriminate|].
  destruct i as [|i]; [simpl; lia|].
  cbn [take lookup list_lookup] in *.
  rewrite pack_cons. cbn [snd extent].
  pose proof (extent_lookup _ _ _ Hp H Hs) as Hsz.
  assert (Hps : proper s).
  { exact (Forall_lookup_1 _ _ _ _ Hp H). }
  specialize (Hps Hs). cbn [extent] in Hx.
  unfold step. unfold proper in Ht. destruct (skip t) eqn:Et.
  - rewrite (IH cur i) by (assumption || lia). lia.
  - specialize (Ht eq_refl).
    assert (Hne : newEnd cur t = cur + (hi t - lo t)).
    { rewrite newEnd_eq. apply u64_small. unfold is_u64. lia. }
    rewrite Hne.
    assert (Hst : u64 (cur + (hi t - lo t) + 1) = cur + (hi t - lo t) + 1).
    { apply u64_small. unfold is_u64. lia. }
    rewrite Hst. rewrite (IH _ i) by (assumption || lia). lia.
Qed.

Lemma extent_take_le ss i : Forall proper ss -> extent (take i ss) <= extent ss.
Proof.
  intros Hp. rewrite <- (take_drop i ss) at 2. rewrite extent_app.
  assert (0 <= extent (drop i ss)); [|lia].
  apply extent_nonneg, Forall_drop, Hp.
Qed.

Lemma extent_take_S ss i s :
  ss !! i = Some s ->
  extent (take (S i) ss) = extent (take i ss) + (if skip s then 0 else hi s - lo s + 1).
Proof.
  intros H. rewrite (take_S_r _ _ _ H), extent_app. simpl. lia.
Qed.

(** The wrap-around difference of the LBAs stored by any iteration is the
    wrap-around difference it found. *)
Lemma pack_size ss cur i s a b :
  ss !! i = Some s -> fst (pack ss cur) !! i = Some (a, b) ->
  sub64 b a = u64 (hi s - lo s).
Proof.
  intros H. rewrite (pack_lookup _ _ _ _ H). unfold placed.
  destruct (skip s); intros [= <- <-].
  - reflexivity.
  - apply newEnd_sub.
Qed.

(** Without wrap-around an occupied slot lands at the base plus the sizes
    of the occupied slots before it and keeps its length. *)
Lemma pack_placed_exact ss cur i s :
  Forall proper ss -> 0 <= cur -> cur + extent ss <= 2 ^ 64 ->
  ss !! i = Some s -> skip s = false ->
  fst (pack ss cur) !! i =
  Some (cur + extent (take i ss), cur + extent (take i ss) + (hi s - lo s)).
Proof.
  intros Hp Hc Hx H Hs.
  rewrite (pack_lookup _ _ _ _ H), (pack_cursor_exact _ _ _ _ Hp Hc Hx H Hs).
  unfold placed. rewrite Hs. do 2 f_equal.
  rewrite newEnd_eq. apply u64_small.
  pose proof (extent_take_S _ _ _ H) as HS. rewrite Hs in HS.
  pose proof (extent_take_le ss (S i) Hp).
  pose proof (extent_nonneg (take i ss) ltac:(apply Forall_take, Hp)).
  pose proof (Forall_lookup_1 _ _ _ _ Hp H Hs).
  unfold is_u64. lia.
Qed.

Lemma pack_ordered ss cur i j si sj ai bi aj bj :
  Forall proper ss -> 0 <= cur -> cur + extent ss <= 2 ^ 64 ->
  (i < j)%nat ->
  ss !! i = Some si -> ss !! j = Some sj ->
  skip si = false -> skip sj = false ->
  fst (pack ss cur) !! i = Some (ai, bi) ->
  fst (pack ss cur) !! j = Some (aj, bj) ->
  ai <= bi /\ bi < aj /\ aj <= bj.
Proof.
  intros Hp Hc Hx Hij Hi Hj Hsi Hsj.
  rewrite (pack_placed_exact _ _ _ _ Hp Hc Hx Hi Hsi).
  rewrite (pack_placed_exact _ _ _ _ Hp Hc Hx Hj Hsj).
  intros [= <- <-] [= <- <-].
  pose proof (Forall_lookup_1 _ _ _ _ Hp Hi Hsi).
  pose proof (Forall_lookup_1 _ _ _ _ Hp Hj Hsj).
  pose proof (extent_take_S _ _ _ Hi) as HS. rewrite Hsi in HS.
  assert (Hle : extent (take (S i) ss) <= extent (take j ss)).
  { replace (take (S i) ss) with (take (S i) (take j ss)).
    - apply extent_take_le, Forall_take, Hp.
    - rewrite take_take. f_equal. lia. }
  lia.
Qed.

End Pack.

(** ** Variant 2's loop against the shared arithmetic *)

Module V2Reloc.

Import Partition Pack.

Definition slot_of (p : GPTPartition) : slot :=
  {| skip := isZero (TypeGUID p); lo := StartLBA p; hi := EndLBA p |}.

Definition span (p : GPTPartition) : Z * Z := (StartLBA p, EndLBA p).

(** What one iteration stores in the slot it visits. *)
Definition visit (cur : Z) (p : GPTPartition) : GPTPartition :=
  if isZero (TypeGUID p) then p
  else set_lbas cur (newEnd cur (slot_of p)) p.

Lemma relocate_cons p ps cur :
  V2.relocate (p :: ps) cur =
  (visit cur p :: fst (V2.relocate ps (step cur (slot_of p))),
   snd (V2.relocate ps (step cur (slot_of p)))).
Proof.
  unfold visit, step. cbn [V2.relocate slot_of skip lo hi].
  destruct (isZero (TypeGUID p)).
  - destruct (V2.relocate ps cur). reflexivity.
  - unfold newEnd. cbn [lo hi].
    destruct (V2.relocate ps _). reflexivity.
Qed.

Lemma relocate_length ps cur : length (fst (V2.relocate ps cur)) = length ps.
Proof.
  revert cur. induction ps as [|p ps IH]; intros cur; [reflexivity|].
  rewrite relocate_cons. cbn [fst length]. rewrite IH. reflexivity.
Qed.

Lemma relocate_cursor ps cur :
  snd (V2.relocate ps cur) = snd (pack (slot_of <$> ps) cur).
Proof.
  revert cur. induction ps as [|p ps IH]; intros cur; [reflexivity|].
  rewrite relocate_cons, fmap_cons, pack_cons. cbn [snd]. apply IH.
Qed.

Lemma relocate_spans ps cur :
  span <$> fst (V2.relocate ps cur) = fst (pack (slot_of <$> ps) cur).
Proof.
  revert cur. induction ps as [|p ps IH]; intros cur; [reflexivity|].
  rewrite relocate_cons, fmap_cons, pack_cons. cbn [fst]. rewrite fmap_cons, IH.
  f_equal. unfold visit, placed, span. cbn [slot_of skip lo hi].
  destruct (isZero (TypeGUID p)); reflexivity.
Qed.

Lemma relocate_app a b cur :
  V2.relocate (a ++ b) cur =
  (fst (V2.relocate a cur) ++ fst (V2.relocate b (snd (V2.relocate a cur))),
   snd (V2.relocate b (snd (V2.relocate a cur)))).
Proof.
  revert cur. induction a as [|p a IH]; intros cur.
  - simpl. destruct (V2.relocate b cur). reflexivity.
  - rewrite <- app_comm_cons, !relocate_cons, IH. reflexivity.
Qed.

(** Iteration [i] sees the cursor left by the first [i] slots. *)
Lemma relocate_lookup ps cur i p :
  ps !! i = Some p ->
  fst (V2.relocate ps cur) !! i = Some (visit (snd (V2.relocate (take i ps) cur)) p).
Proof.
  revert cur i. induction ps as [|q ps IH]; intros cur i H; [discriminate|].
  rewrite relocate_cons. destruct i as [|i]; cbn [lookup list_lookup fst take] in *.
  - injection H as ->. reflexivity.
  - rewrite (IH _ _ H), relocate_cons. reflexivity.
Qed.

Lemma relocate_cursor_S ps cur i p :
  ps !! i = Some p ->
  snd (V2.relocate (take (S i) ps) cur) =
  step (snd (V2.relocate (take i ps) cur)) (slot_of p).
Proof.
  intros H. rewrite (take_S_r _ _ _ H), relocate_app, relocate_cons. reflexivity.
Qed.

End V2Reloc.

(** ** Variant 1's loop against the shared arithmetic

    The loop works on bytes.  For entries of at least 48 bytes the two LBA
    fields of different entries do not overlap, and the loop is the shared
    arithmetic applied to the fields read at offsets 32 and 40 of each
    entry. *)

Module V1Reloc.

Import Pack.

(** [binary.LittleEndian.Uint64(buf[off : off+8])]. *)
Definition get64 (buf : list byte) (off : Z) : Z :=
  le_decode (take 8 (drop (Z.to_nat off) buf)).

Definition slot_at (es : Z) (buf : list byte) (i : Z) : slot :=
  let oldStart := get64 buf (i * es + 32) in
  let oldEnd := get64 buf (i * es + 40) in
  {| skip := (oldEnd =? 0) || (oldStart =? 0); lo := oldStart; hi := oldEnd |}.

Definition span_at (es : Z) (buf : list byte) (i : Z) : Z * Z :=
  (get64 buf (i * es + 32), get64 buf (i * es + 40)).

Definition slots (es n : Z) (buf : list byte) : list slot :=
  slot_at es buf <$> seqZ 0 n.

(** The two [PutUint64] calls of one iteration. *)
Definition store (es : Z) (buf : list byte) (i a b : Z) : list byte :=
  overwrite (overwrite buf (i * es + 32) (le_encode 8 a)) (i * es + 40) (le_encode 8 b).

Lemma window_ext (b1 b2 : list byte) (o n : nat) :
  (forall z, (o <= z < o + n)%nat -> b1 !! z = b2 !! z) ->
  take n (drop o b1) = take n (drop o b2).
Proof.
  intros H. apply list_eq. intros k.
  destruct (decide (k < n)%nat) as [Hk|Hk].
  - rewrite !lookup_take_lt, !lookup_drop by exact Hk. apply H. lia.
  - rewrite !lookup_take_ge by lia. reflexivity.
Qed.

Lemma overwrite_length b off src :
  0 <= off -> off + Z.of_nat (length src) <= Z.of_nat (length b) ->
  length (overwrite b off src) = length b.
Proof.
  intros H1 H2. unfold overwrite.
  rewrite !length_app, length_take, length_drop. lia.
Qed.

Lemma overwrite_window b off src :
  0 <= off -> off + Z.of_nat (length src) <= Z.of_nat (length b) ->
  take (length src) (drop (Z.to_nat off) (overwrite b off src)) = src.
Proof.
  intros H1 H2. unfold overwrite.
  rewrite drop_app_length' by (rewrite length_take; lia).
  apply take_app_length.
Qed.

Lemma overwrite_frame b off src (z : nat) :
  0 <= off -> off + Z.of_nat (length src) <= Z.of_nat (length b) ->
  (Z.of_nat z < off \/ off + Z.of_nat (length src) <= Z.of_nat z) ->
  overwrite b off src !! z = b !! z.
Proof.
  intros H1 H2 Hz. unfold overwrite.
  destruct (decide (Z.of_nat z < off)) as [Hlt|Hge].
  - rewrite lookup_app_l by (rewrite length_take; lia).
    apply lookup_take_lt. lia.
  - rewrite lookup_app_r by (rewrite length_take; lia).
    rewrite lookup_app_r by (rewrite length_take; lia).
    rewrite lookup_drop, length_take. f_equal. lia.
Qed.

Lemma get64_overwrite_same b off v :
  0 <= off -> off + 8 <= Z.of_nat (length b) ->
  get64 (overwrite b off (le_encode 8 v)) off = u64 v.
Proof.
  intros H1 H2. unfold get64.
  pose proof (overwrite_window b off (le_encode 8 v)) as Hw.
  rewrite le_encode_length in Hw. rewrite Hw by lia.
  rewrite le_decode_encode. reflexivity.
Qed.

Lemma get64_overwrite_other b off src o :
  0 <= off -> off + Z.of_nat (length src) <= Z.of_nat (length b) -> 0 <= o ->
  (o + 8 <= off \/ off + Z.of_nat (length src) <= o) ->
  get64 (overwrite b off src) o = get64 b o.
Proof.
  intros H1 H2 H3 H4. unfold get64. f_equal. apply window_ext.
  intros z Hz. apply overwrite_frame; lia.
Qed.

(** Side conditions on offsets into a buffer that was written to. *)
Ltac bounds :=
  rewrite ?le_encode_length;
  first [ reflexivity | nia | rewrite overwrite_length; bounds ].

Section Store.
Variables (es : Z) (buf : list byte) (i a b : Z).
Hypothesis Hes : 48 <= es.
Hypothesis Hi : 0 <= i.
Hypothesis Hlen : (i + 1) * es <= Z.of_nat (length buf).

Lemma store_length : length (store es buf i a b) = length buf.
Proof.
  unfold store. bounds.
Qed.

Lemma store_frame (z : nat) :
  (Z.of_nat z < i * es + 32 \/ i * es + 48 <= Z.of_nat z) ->
  store es buf i a b !! z = buf !! z.
Proof.
  intros Hz. unfold store.
  rewrite !overwrite_frame; bounds.
Qed.

Lemma store_start : get64 (store es buf i a b) (i * es + 32) = u64 a.
Proof.
  unfold store.
  rewrite get64_overwrite_other by bounds.
  apply get64_overwrite_same; bounds.
Qed.

Lemma store_end : get64 (store es buf i a b) (i * es + 40) = u64 b.
Proof.
  unfold store. apply get64_overwrite_same; bounds.
Qed.

Lemma store_get64_other o :
  0 <= o -> (o + 8 <= i * es + 32 \/ i * es + 48 <= o) ->
  get64 (store es buf i a b) o = get64 buf o.
Proof.
  intros Ho Hd. unfold get64. f_equal. apply window_ext.
  intros z Hz. apply store_frame. lia.
Qed.

Lemma store_slot_other j :
  0 <= j -> j <> i -> slot_at es (store es buf i a b) j = slot_at es buf j.
Proof.
  intros Hj Hne. unfold slot_at. rewrite !store_get64_other by nia. reflexivity.
Qed.

Lemma store_span_other j :
  0 <= j -> j <> i -> span_at es (store es buf i a b) j = span_at es buf j.
Proof.
  intros Hj Hne. unfold span_at. rewrite !store_get64_other by nia. reflexivity.
Qed.

(** One iteration of the loop, all slice bounds being in range. *)
Lemma realign_S k cur :
  V1.realign (S k) i es buf cur =
  if skip (slot_at es buf i) then V1.realign k (i + 1) es buf cur
  else V1.realign k (i + 1) es
         (store es buf i cur (newEnd cur (slot_at es buf i)))
         (u64 (newEnd cur (slot_at es buf i) + 1)).
Proof.
  cbn [V1.realign].
  rewrite (slice_Some buf (i * es) (i * es + es)) by nia.
  rewrite (slice_Some buf (i * es + 32) (i * es + 40)) by nia.
  rewrite (slice_Some buf (i * es + 40) (i * es + 48)) by nia.
  replace (Z.to_nat (i * es + 40 - (i * es + 32))) with 8%nat by lia.
  replace (Z.to_nat (i * es + 48 - (i * es + 40))) with 8%nat by lia.
  reflexivity.
Qed.
End Store.

Lemma get64_frame b1 b2 o :
  0 <= o ->
  (forall z : nat, o <= Z.of_nat z < o + 8 -> b1 !! z = b2 !! z) ->
  get64 b1 o = get64 b2 o.
Proof.
  intros Ho H. unfold get64. f_equal. apply window_ext. intros z Hz. apply H. lia.
Qed.

Lemma fmap_seqZ_ext {A} (f g : Z -> A) m n :
  (forall j, m <= j < m + n -> f j = g j) -> f <$> seqZ m n = g <$> seqZ m n.
Proof.
  intros H. apply list_eq. intros k. rewrite !list_lookup_fmap.
  destruct (seqZ m n !! k) as [j|] eqn:E; [|reflexivity].
  apply lookup_seqZ in E as [-> Hk]. simpl. f_equal. apply H. lia.
Qed.

Lemma seqZ_succ m (k : nat) : seqZ m (Z.of_nat (S k)) = m :: seqZ (m + 1) (Z.of_nat k).
Proof.
  rewrite seqZ_cons by lia. f_equal. f_equal; lia.
Qed.

(** The loop from slot [i] on, [k] iterations: it does not panic, keeps the
    length of the buffer, touches only the LBA fields of the occupied slots
    it visits, and leaves in them what the shared arithmetic computes from
    the fields it found. *)
Lemma realign_pack es (Hes : 48 <= es) (k : nat) :
  forall i buf c,
  0 <= i -> is_u64 c -> (i + Z.of_nat k) * es <= Z.of_nat (length buf) ->
  exists buf',
    V1.realign k i es buf c =
      Some (buf', snd (pack (slot_at es buf <$> seqZ i (Z.of_nat k)) c))
    /\ length buf' = length buf
    /\ span_at es buf' <$> seqZ i (Z.of_nat k) =
       fst (pack (slot_at es buf <$> seqZ i (Z.of_nat k)) c)
    /\ (forall z : nat,
         (forall j, i <= j < i + Z.of_nat k -> skip (slot_at es buf j) = false ->
            Z.of_nat z < j * es + 32 \/ j * es + 48 <= Z.of_nat z) ->
         buf' !! z = buf !! z).
Proof.
  induction k as [|k IH]; intros i buf c Hi Hc Hlen.
  - exists buf. simpl. repeat split; reflexivity.
  - assert (Hlen1 : (i + 1) * es <= Z.of_nat (length buf)) by nia.
    rewrite (realign_S es buf i Hes Hi Hlen1), seqZ_succ, !fmap_cons, pack_cons.
    cbn [fst snd]. unfold step, placed.
    destruct (skip (slot_at es buf i)) eqn:Hskip.
    + destruct (IH (i + 1) buf c) as (buf' & Hrun & Hl & Hsp & Hfr); [lia|exact Hc|nia|].
      exists buf'. rewrite fmap_cons, Hrun, Hsp. repeat split; try assumption.
      * f_equal. unfold span_at. cbn [slot_at lo hi]. f_equal.
        -- apply get64_frame; [nia|]. intros z Hz. apply Hfr. intros j Hj _. nia.
        -- apply get64_frame; [nia|]. intros z Hz. apply Hfr. intros j Hj _. nia.
      * intros z Hz. apply Hfr. intros j Hj. apply Hz. lia.
    + set (e := newEnd c (slot_at es buf i)).
      set (buf1 := store es buf i c e).
      assert (Hl1 : length buf1 = length buf) by (apply store_length; assumption).
      destruct (IH (i + 1) buf1 (u64 (e + 1))) as (buf' & Hrun & Hl & Hsp & Hfr);
        [lia|apply u64_range|rewrite Hl1; nia|].
      assert (Hsame : slot_at es buf1 <$> seqZ (i + 1) (Z.of_nat k) =
                      slot_at es buf <$> seqZ (i + 1) (Z.of_nat k)).
      { apply fmap_seqZ_ext. intros j Hj. apply store_slot_other; assumption || lia. }
      rewrite Hsame in Hrun, Hsp.
      exists buf'. rewrite fmap_cons, Hrun, Hsp. repeat split.
      * congruence.
      * f_equal. unfold span_at. f_equal.
        -- rewrite (get64_frame buf' buf1 (i * es + 32)).
           ++ unfold buf1. rewrite store_start by assumption. apply u64_small, Hc.
           ++ nia.
           ++ intros z Hz. apply Hfr. intros j Hj _. nia.
        -- rewrite (get64_frame buf' buf1 (i * es + 40)).
           ++ unfold buf1. rewrite store_end by assumption.
              apply u64_small. unfold e, newEnd. apply u64_range.
           ++ nia.
           ++ intros z Hz. apply Hfr. intros j Hj _. nia.
      * intros z Hz. rewrite Hfr.
        -- apply store_frame; try assumption. apply Hz; [lia|exact Hskip].
        -- intros j Hj Hsj. apply Hz; [lia|].
           unfold buf1 in Hsj. rewrite store_slot_other in Hsj by (assumption || lia).
           exact Hsj.
Qed.

Lemma get64_range buf o : is_u64 (get64 buf o).
Proof.
  unfold get64, is_u64.
  pose proof (le_decode_range (take 8 (drop (Z.to_nat o) buf))) as H.
  assert (Hl : (length (take 8 (drop (Z.to_nat o) buf)) <= 8)%nat)
    by (rewrite length_take; lia).
  assert (256 ^ Z.of_nat (length (take 8 (drop (Z.to_nat o) buf))) <= 256 ^ 8)
    by (apply Z.pow_le_mono_r; lia).
  change (2 ^ 64) with (256 ^ 8). lia.
Qed.

Lemma take_seqZ (j : nat) n : Z.of_nat j <= n -> take j (seqZ 0 n) = seqZ 0 (Z.of_nat j).
Proof.
  intros H. apply list_eq. intros k.
  destruct (decide (k < j)%nat) as [Hk|Hk].
  - rewrite lookup_take_lt by exact Hk. rewrite !lookup_seqZ_lt by lia. reflexivity.
  - rewrite lookup_take_ge by lia. rewrite lookup_seqZ_ge by lia. reflexivity.
Qed.

Lemma slots_lookup es (n j : nat) buf :
  (j < n)%nat -> slots es (Z.of_nat n) buf !! j = Some (slot_at es buf (Z.of_nat j)).
Proof.
  intros H. unfold slots. rewrite list_lookup_fmap, lookup_seqZ_lt by lia.
  reflexivity.
Qed.

Lemma slots_take es (n j : nat) buf :
  (j <= n)%nat -> take j (slots es (Z.of_nat n) buf) = slots es (Z.of_nat j) buf.
Proof.
  intros H. unfold slots. rewrite <- fmap_take, take_seqZ by lia. reflexivity.
Qed.

(** The whole loop of [main]: [n] iterations from slot 0. *)
Lemma realign_all es (n : nat) buf c :
  48 <= es -> is_u64 c -> Z.of_nat n * es <= Z.of_nat (length buf) ->
  exists buf',
    V1.realign n 0 es buf c = Some (buf', snd (pack (slots es (Z.of_nat n) buf) c))
    /\ length buf' = length buf
    /\ (forall j : nat, (j < n)%nat ->
         fst (pack (slots es (Z.of_nat n) buf) c) !! j
         = Some (span_at es buf' (Z.of_nat j)))
    /\ (forall z : nat,
         (forall j : nat, (j < n)%nat ->
            skip (slot_at es buf (Z.of_nat j)) = false ->
            Z.of_nat z < Z.of_nat j * es + 32 \/ Z.of_nat j * es + 48 <= Z.of_nat z) ->
         buf' !! z = buf !! z).
Proof.
  intros Hes Hc Hlen.
  destruct (realign_pack es Hes n 0 buf c) as (buf' & Hrun & Hl & Hsp & Hfr);
    [lia|exact Hc|lia|].
  exists buf'. unfold slots. repeat split; try assumption.
  - intros j Hj. rewrite <- Hsp, list_lookup_fmap, lookup_seqZ_lt by lia.
    reflexivity.
  - intros z Hz. apply Hfr. intros j Hj Hs.
    specialize (Hz (Z.to_nat j)). rewrite Z2Nat.id in Hz by lia.
    apply Hz; [lia|exact Hs].
Qed.

End V1Reloc.

(** ** Running [main] on a file *)

Module Run.

(** The value a run returns, the writes it issued, and the file it leaves. *)
Definition returns {A} (m : IO A) (f : File) (a : A) : Prop :=
  fst (m (open f)) = Ok a.

Definition stops {A} (m : IO A) (f : File) : Prop :=
  match fst (m (open f)) with Ok _ => False | _ => True end.

Definition writes {A} (m : IO A) (f : File) : list wr := wlog (snd (m (open f))).

Definition disk_after {A} (m : IO A) (f : File) : File := disk (snd (m (open f))).

(** A sparse image: [sz] bytes, zero except for the given chunks. *)
Fixpoint chunk_at (chunks : list (Z * list byte)) (z : Z) : byte :=
  match chunks with
  | [] => x00
  | (off, bs) :: rest =>
    if (off <=? z) && (z <? off + Z.of_nat (length bs))
    then nth (Z.to_nat (z - off)) bs x00
    else chunk_at rest z
  end.

Definition sparse (sz : Z) (chunks : list (Z * list byte)) : File :=
  {| f_size := sz; f_at := chunk_at chunks |}.

Lemma returns_inv {A} (m : IO A) f a :
  returns m f a -> m (open f) = (Ok a, snd (m (open f))).
Proof.
  unfold returns. destruct (m (open f)) as [r w]. simpl. intros ->. reflexivity.
Qed.

Lemma bind_ok {A B} (c : IO A) (k : A -> IO B) w b w' :
  bind c k w = (Ok b, w') ->
  exists a w1, c w = (Ok a, w1) /\ k a w1 = (Ok b, w').
Proof.
  unfold bind. destruct (c w) as [[a|m|m] w1]; intros H; try discriminate.
  exists a, w1. split; [reflexivity|exact H].
Qed.

Lemma orFatal_ok {A} msg (c : IO (option A)) w a w' :
  orFatal msg c w = (Ok a, w') -> c w = (Ok (Some a), w').
Proof.
  unfold orFatal. intros H. apply bind_ok in H as ([x|] & w1 & Hc & Hk).
  - unfold ret in Hk. congruence.
  - discriminate.
Qed.

Lemma orPanic_ok {A} msg (r : option A) w a w' :
  orPanic msg r w = (Ok a, w') -> r = Some a /\ w' = w.
Proof.
  unfold orPanic, ret, panic. destruct r; intros H; [|discriminate].
  split; congruence.
Qed.

Lemma Stat_ok w n w' : Stat w = (Ok n, w') -> n = f_size (disk w) /\ w' = w.
Proof. unfold Stat. intros [= <- <-]. split; reflexivity. Qed.

Lemma Seek_ok off w u w' :
  Seek off w = (Ok (Some u), w') ->
  0 <= off /\ w' = {| disk := disk w; pos := off; wlog := wlog w |}.
Proof.
  unfold Seek. destruct (off <? 0) eqn:E; [discriminate|].
  intros [= _ <-]. split; [lia|reflexivity].
Qed.

Lemma ReadFull_ok n w bs w' :
  ReadFull n w = (Ok (Some bs), w') ->
  pos w + n <= f_size (disk w)
  /\ bs = read_bytes (disk w) (pos w) (Z.to_nat n)
  /\ w' = {| disk := disk w; pos := pos w + n; wlog := wlog w |}.
Proof.
  unfold ReadFull. destruct (pos w + n <=? f_size (disk w)) eqn:E; [|discriminate].
  intros [= <- <-]. repeat split. lia.
Qed.

Lemma ReadAt_ok n off w bs w' :
  ReadAt n off w = (Ok (Some bs), w') ->
  0 <= off /\ bs = read_bytes (disk w) off (Z.to_nat n) /\ w' = w.
Proof.
  unfold ReadAt. destruct (off <? 0) eqn:E; [discriminate|].
  destruct ((n =? 0) || (off + n <=? f_size (disk w))); [|discriminate].
  intros [= <- <-]. repeat split. lia.
Qed.

Lemma WriteAt_ok data off w u w' :
  WriteAt data off w = (Ok (Some u), w') ->
  0 <= off
  /\ w' = {| disk := write_bytes (disk w) off data; pos := pos w;
             wlog := wlog w ++ [mkWr off data] |}.
Proof.
  unfold WriteAt. destruct (off <? 0) eqn:E; [discriminate|].
  intros [= _ <-]. split; [lia|reflexivity].
Qed.

Lemma Write_ok data w u w' :
  Write data w = (Ok (Some u), w') ->
  w' = {| disk := write_bytes (disk w) (pos w) data;
          pos := pos w + Z.of_nat (length data);
          wlog := wlog w ++ [mkWr (pos w) data] |}.
Proof. unfold Write. intros H. congruence. Qed.

Lemma ret_ok {A} (a b : A) w w' : ret a w = (Ok b, w') -> b = a /\ w' = w.
Proof. unfold ret. intros H. split; congruence. Qed.

Lemma read_bytes_length f off n : length (read_bytes f off n) = n.
Proof. unfold read_bytes. rewrite length_map, length_seq. reflexivity. Qed.

End Run.

Import Run.

(** ** A successful run of variant 2 *)

Module V2Main.

Import Header Partition V2.

(** The [binary.Write] calls of one pass over the table, the first at file
    offset [off]. *)
Fixpoint part_writes (off : Z) (ps : list GPTPartition) : list wr :=
  match ps with
  | [] => []
  | p :: rest =>
    mkWr off (Partition.encode p)
    :: part_writes (off + Z.of_nat (length (Partition.encode p))) rest
  end.

Definition lastSector (fileSize : Z) : Z := u64 (u64 fileSize / SECTOR_SIZE - 1).

Lemma write_partitions_run msg ps w :
  exists w', write_partitions msg ps w = (Ok tt, w')
    /\ wlog w' = wlog w ++ part_writes (pos w) ps.
Proof.
  revert w. induction ps as [|p ps IH]; intros w.
  - exists w. simpl. rewrite app_nil_r. split; reflexivity.
  - cbn [write_partitions part_writes]. unfold bind, orFatal, bind, Write, ret.
    match goal with |- context [write_partitions msg ps ?w1] =>
      destruct (IH w1) as (w' & Hrun & Hlog) end.
    exists w'. split; [exact Hrun|]. rewrite Hlog. cbn [wlog pos].
    rewrite <- app_assoc. reflexivity.
Qed.

Lemma read_partitions_ok n w ps w' :
  read_partitions n w = (Ok ps, w') ->
  disk w' = disk w /\ wlog w' = wlog w /\ length ps = n
  /\ Forall Partition.sized ps.
Proof.
  revert w ps w'. induction n as [|n IH]; intros w ps w' H.
  - cbn in H. injection H as <- <-. repeat split. constructor.
  - cbn [read_partitions] in H.
    apply bind_ok in H as (b & w1 & Hb & H).
    apply orFatal_ok, ReadFull_ok in Hb as (_ & Hbytes & ->).
    apply bind_ok in H as (ps' & w2 & Hps & H).
    apply IH in Hps as (Hd & Hl & Hn & Hsz).
    apply ret_ok in H as [-> ->].
    cbn [disk wlog] in *. repeat split; try assumption.
    + simpl. lia.
    + constructor; [|exact Hsz].
      apply Partition.of_bytes_sized. rewrite Hbytes. apply read_bytes_length.
Qed.

(** Everything a successful run computed and wrote, in terms of the header
    sector and the 128 slots it read. *)
Lemma v2_main_ok f o :
  returns main f o ->
  exists ps,
    let hdr := Header.of_bytes (read_bytes f SECTOR_SIZE Header.size) in
    Signature hdr = GPT_SIGNATURE
    /\ length ps = 128%nat
    /\ Forall Partition.sized ps
    /\ o_partitions o = fst (relocate ps 34)
    /\ o_primary o =
       seal (set_PartitionTableCRC
               (ChecksumIEEE (partitionTableBytes (o_partitions o)))
               (resize (lastSector (f_size f)) hdr))
    /\ o_backup o = seal (mirror (o_primary o))
    /\ writes main f =
       mkWr SECTOR_SIZE (Header.encode (o_primary o))
       :: part_writes (lba_offset (PartitionTableLBA (o_primary o))) (o_partitions o)
       ++ mkWr (lba_offset (CurrentLBA (o_backup o))) (Header.encode (o_backup o))
       :: part_writes (lba_offset (PartitionTableLBA (o_backup o))) (o_partitions o).
Proof.
  intros Hret. apply returns_inv in Hret. unfold writes.
  destruct (main (open f)) as [r wf] eqn:Hmain. cbn [snd] in *.
  injection Hret as ->. unfold main in Hmain.
  apply bind_ok in Hmain as (fileSize & w0 & Hst & H).
  apply Stat_ok in Hst as [-> ->].
  apply bind_ok in H as (u1 & w1 & Hs1 & H).
  apply orFatal_ok, Seek_ok in Hs1 as [_ ->].
  apply bind_ok in H as (hb & w2 & Hrd & H).
  apply orFatal_ok, ReadFull_ok in Hrd as (_ & -> & ->).
  cbn [disk pos wlog open] in H.
  replace (Z.to_nat (Z.of_nat Header.size)) with Header.size in H by lia.
  set (hdr := Header.of_bytes (read_bytes f SECTOR_SIZE Header.size)) in *.
  destruct (eqb_bytes (Signature hdr) GPT_SIGNATURE) eqn:Hsig;
    cbn [negb] in H; [|discriminate].
  apply eqb_bytes_true in Hsig.
  apply bind_ok in H as (u2 & w3 & Hs2 & H).
  apply orFatal_ok, Seek_ok in Hs2 as [_ ->].
  apply bind_ok in H as (ps & w4 & Hps & H).
  apply read_partitions_ok in Hps as (Hd4 & Hl4 & Hn & Hsized).
  cbn [disk pos wlog] in Hd4, Hl4.
  exists ps.
  apply bind_ok in H as (u3 & w5 & Hs3 & H).
  apply orFatal_ok, Seek_ok in Hs3 as [_ ->].
  apply bind_ok in H as (u4 & w6 & Hw1 & H).
  apply orFatal_ok, Write_ok in Hw1 as ->.
  apply bind_ok in H as (u5 & w7 & Hs4 & H).
  apply orFatal_ok, Seek_ok in Hs4 as [_ ->].
  apply bind_ok in H as (u6 & w8 & Hwp1 & H).
  match type of Hwp1 with write_partitions ?m ?l ?w = _ =>
    destruct (write_partitions_run m l w) as (w8' & Hr & Hlog8) end.
  rewrite Hr in Hwp1. assert (w8' = w8) as -> by congruence. clear Hr Hwp1.
  cbn [pos wlog] in Hlog8.
  apply bind_ok in H as (u7 & w9 & Hs5 & H).
  apply orFatal_ok, Seek_ok in Hs5 as [_ ->].
  apply bind_ok in H as (u8 & w10 & Hw2 & H).
  apply orFatal_ok, Write_ok in Hw2 as ->.
  apply bind_ok in H as (u9 & w11 & Hs6 & H).
  apply orFatal_ok, Seek_ok in Hs6 as [_ ->].
  apply bind_ok in H as (u10 & w12 & Hwp2 & H).
  match type of Hwp2 with write_partitions ?m ?l ?w = _ =>
    destruct (write_partitions_run m l w) as (w12' & Hr2 & Hlog12) end.
  rewrite Hr2 in Hwp2. assert (w12' = w12) as -> by congruence. clear Hr2 Hwp2.
  cbn [pos wlog] in Hlog12.
  apply ret_ok in H as [-> ->].
  cbn [o_primary o_backup o_partitions].
  repeat split; try assumption; try reflexivity.
  rewrite Hlog12, Hlog8, Hl4. cbn [app].
  rewrite <- app_assoc. reflexivity.
Qed.

End V2Main.

(** ** A successful run of variant 1 *)

Module V1Main.

Import Header V1.

Lemma WriteAt_log data off w u w' :
  WriteAt data off w = (Ok (Some u), w') ->
  wlog w' = wlog w ++ [mkWr off data].
Proof. intros H. apply WriteAt_ok in H as [_ ->]. reflexivity. Qed.

Lemma decode_ok b h : Header.decode b = Some h -> h = Header.of_bytes b.
Proof.
  unfold Header.decode. destruct (_ <=? _)%nat; [|discriminate]. congruence.
Qed.

(** Everything a successful run computed and wrote, in terms of the header
    sector and the table bytes it read. *)
Lemma v1_main_ok f o :
  returns main f o ->
  let hdr := Header.of_bytes (read_bytes f SECTOR_SIZE 512) in
  let tableBytes := i64 (NumPartitions hdr * PartitionEntrySize hdr) in
  let primTableOff := lba_offset (PartitionTableLBA hdr) in
  let totalSectors := u64 (Z.quot (f_size f) SECTOR_SIZE) in
  Z.rem (f_size f) SECTOR_SIZE = 0
  /\ 0 <= tableBytes
  /\ (exists cur,
       realign (Z.to_nat (NumPartitions hdr)) 0 (PartitionEntrySize hdr)
         (read_bytes f primTableOff (Z.to_nat tableBytes)) (FirstUsableLBA hdr)
       = Some (o_table o, cur))
  /\ o_primary o =
     resize totalSectors tableBytes
       (set_PartitionTableCRC (ChecksumIEEE (o_table o)) hdr)
  /\ o_backup o =
     mirror (u64 (totalSectors - 1)) (backupTableLBA totalSectors tableBytes)
       (ChecksumIEEE (o_table o)) (o_primary o)
  /\ writes main f =
     [ mkWr primTableOff (o_table o);
       mkWr SECTOR_SIZE (header_bytes (o_primary o));
       mkWr (lba_offset (backupTableLBA totalSectors tableBytes)) (o_table o);
       mkWr (lba_offset (u64 (totalSectors - 1))) (header_bytes (o_backup o)) ].
Proof.
  intros Hret. apply returns_inv in Hret. unfold writes.
  destruct (main (open f)) as [r wf] eqn:Hmain. cbn [snd] in *.
  assert (r = Ok o) as -> by congruence. clear Hret.
  unfold main in Hmain.
  apply bind_ok in Hmain as (fileSize & w0 & Hst & H).
  apply Stat_ok in Hst as [-> ->]. cbn [disk open] in H.
  destruct (Z.rem (f_size f) SECTOR_SIZE =? 0) eqn:Hrem;
    cbn [negb] in H; [|discriminate].
  apply Z.eqb_eq in Hrem.
  apply bind_ok in H as (primHdrBuf & w1 & Hrd & H).
  apply orFatal_ok, ReadAt_ok in Hrd as (_ & -> & ->). cbn [disk open] in H.
  apply bind_ok in H as (primary & w2 & Hdec & H).
  apply orFatal_ok, ret_ok in Hdec as [Hdec ->]. symmetry in Hdec.
  apply decode_ok in Hdec. subst primary.
  replace (SECTOR_SIZE * 1) with SECTOR_SIZE in H by reflexivity.
  replace (Z.to_nat SECTOR_SIZE) with 512%nat in H by reflexivity.
  set (hdr := Header.of_bytes (read_bytes f SECTOR_SIZE 512)) in *.
  set (tableBytes := i64 (NumPartitions hdr * PartitionEntrySize hdr)) in *.
  destruct (f_size f <? _) eqn:Hfit; [discriminate|].
  destruct (tableBytes <? 0) eqn:Hneg; [discriminate|].
  apply Z.ltb_ge in Hneg.
  apply bind_ok in H as (tableBuf & w3 & Hrt & H).
  apply orFatal_ok, ReadAt_ok in Hrt as (_ & -> & ->). cbn [disk open] in H.
  apply bind_ok in H as ([tableBuf cur] & w4 & Hre & H).
  apply orPanic_ok in Hre as [Hre ->]. cbn [fst] in H.
  apply bind_ok in H as (u1 & w5 & Hw1 & H).
  apply orFatal_ok, WriteAt_log in Hw1.
  apply bind_ok in H as (u2 & w6 & Hw2 & H).
  apply orFatal_ok, WriteAt_log in Hw2.
  apply bind_ok in H as (u3 & w7 & Hw3 & H).
  apply orFatal_ok, WriteAt_log in Hw3.
  apply bind_ok in H as (u4 & w8 & Hw4 & H).
  apply orFatal_ok, WriteAt_log in Hw4.
  apply ret_ok in H as [-> ->].
  cbn [o_primary o_backup o_table].
  split; [exact Hrem|]. split; [exact Hneg|].
  split; [exists cur; exact Hre|].
  split; [reflexivity|]. split; [reflexivity|].
  rewrite Hw4, Hw3, Hw2, Hw1. reflexivity.
Qed.

End V1Main.

(** ** Sample images *)

Module Samples.

Import Header Partition.

Definition header (sig : list byte) (hs first ptlba num esz : Z) : GPTHeader :=
  {| Signature := sig; Revision := 0x10000; HeaderSize := hs; HeaderCRC32 := 0;
     Reserved := 0; CurrentLBA := 1; BackupLBA := 0; FirstUsableLBA := first;
     LastUsableLBA := 0; DiskGUID := zeros 16; PartitionTableLBA := ptlba;
     NumPartitions := num; PartitionEntrySize := esz; PartitionTableCRC := 0 |}.

Definition entry (type : byte) (s e : Z) : GPTPartition :=
  {| TypeGUID := type :: zeros 15; PartitionGUID := zeros 16;
     StartLBA := s; EndLBA := e; Attributes := 0; Name := zeros 72 |}.

(** A 1 GiB image with the conventional layout and an empty table. *)
Definition gib : File :=
  sparse (2097152 * 512)
    [(512, Header.encode (header GPT_SIGNATURE 92 34 2 128 128))].

(** A 64-sector image with the conventional layout and two partitions, in
    slots 0 and 2 ([40..49] and [60..79]). *)
Definition small : File :=
  sparse (64 * 512)
    [(512, Header.encode (header GPT_SIGNATURE 92 34 2 128 128));
     (1024, Partition.encode (entry x01 40 49));
     (1024 + 256, Partition.encode (entry x02 60 79))].

(** The same disk, its header announcing a table of 4 entries. *)
Definition short_table : File :=
  sparse (64 * 512)
    [(512, Header.encode (header GPT_SIGNATURE 92 34 2 4 128));
     (1024, Partition.encode (entry x01 40 49));
     (1024 + 256, Partition.encode (entry x02 60 79))].

(** A 64-sector image whose sector 1 does not carry the GPT signature. *)
Definition unsigned_disk : File :=
  sparse (64 * 512)
    [(512, Header.encode
             (header [x4e; x4f; x54; x20; x47; x50; x54; x21] 92 34 2 4 128));
     (1024, Partition.encode (entry x01 40 49))].

(** Three slots, the middle one unused. *)
Definition table3 : list GPTPartition :=
  [entry x01 40 49; entry x00 0 0; entry x02 60 79].

Definition table3_bytes : list byte := concat (map Partition.encode table3).

(** Three occupied slots whose sizes add up to more than the 64-bit LBA
    space: [2^64 - 40], 10 and 100 sectors. *)
Definition wrapping : list GPTPartition :=
  [entry x01 1 (2 ^ 64 - 40); entry x01 1 10; entry x01 1 100].

Definition wrapping_bytes : list byte := concat (map Partition.encode wrapping).

Definition value {A} (d : A) (r : result A) : A :=
  match r with Ok a => a | _ => d end.

Definition no_header : GPTHeader := header [] 0 0 0 0 0.

Definition v1_value (f : File) : V1.outcome :=
  value (V1.mkOutcome no_header no_header []) (fst (V1.main (open f))).

Definition v2_value (f : File) : V2.outcome :=
  value (V2.mkOutcome no_header no_header []) (fst (V2.main (open f))).

Definition v2_gib : V2.outcome := Eval vm_compute in v2_value gib.
Definition v1_gib : V1.outcome := Eval vm_compute in v1_value gib.
Definition v1_small : V1.outcome := Eval vm_compute in v1_value small.
Definition v2_small : V2.outcome := Eval vm_compute in v2_value small.
Definition v2_short_table : V2.outcome := Eval vm_compute in v2_value short_table.
Definition v1_short_table : V1.outcome := Eval vm_compute in v1_value short_table.
Definition v1_unsigned : V1.outcome := Eval vm_compute in v1_value unsigned_disk.

Lemma gib_v2 : returns V2.main gib v2_gib.
Proof. vm_compute. reflexivity. Qed.

Lemma small_v1 : returns V1.main small v1_small.
Proof. vm_compute. reflexivity. Qed.

Lemma small_v2 : returns V2.main small v2_small.
Proof. vm_compute. reflexivity. Qed.

Lemma short_table_v2 : returns V2.main short_table v2_short_table.
Proof. vm_compute. reflexivity. Qed.

Lemma short_table_v1 : returns V1.main short_table v1_short_table.
Proof. vm_compute. reflexivity. Qed.

Lemma unsigned_v1 : returns V1.main unsigned_disk v1_unsigned.
Proof. vm_compute. reflexivity. Qed.

End Samples.

(** * Properties of the relocation engine and of the checksum code *)

Import Header Samples.

(** Simplification of field reads through the header updates of [main]. *)
Ltac fields :=
  cbn [V1.resize V1.mirror V2.seal V2.resize V2.mirror
       set_HeaderCRC32 set_CurrentLBA set_BackupLBA set_LastUsableLBA
       set_PartitionTableLBA set_PartitionTableCRC
       Signature Revision HeaderSize HeaderCRC32 Reserved CurrentLBA BackupLBA
       FirstUsableLBA LastUsableLBA DiskGUID PartitionTableLBA NumPartitions
       PartitionEntrySize PartitionTableCRC].

(** ** Geometry on a 1 GiB image *)

(** Variant 1 on 2,097,152 sectors with a 128 x 128 table: 32 table
    sectors, backup header at 2097151, backup table at 2097119, last usable
    sector 2097118. *)
Lemma v1_geometry_1GiB f o :
  f_size f = 2097152 * 512 ->
  NumPartitions (Header.of_bytes (read_bytes f SECTOR_SIZE 512)) = 128 ->
  PartitionEntrySize (Header.of_bytes (read_bytes f SECTOR_SIZE 512)) = 128 ->
  returns V1.main f o ->
  V1.partSectors (128 * 128) = 32
  /\ BackupLBA (V1.o_primary o) = 2097151
  /\ CurrentLBA (V1.o_backup o) = 2097151
  /\ PartitionTableLBA (V1.o_backup o) = 2097119
  /\ LastUsableLBA (V1.o_primary o) = 2097118.
Proof.
  intros Hsz Hn He Hret.
  destruct (V1Main.v1_main_ok f o Hret) as (_ & _ & _ & Hp & Hb & _).
  rewrite Hb, Hp. fields. unfold V1.backupTableLBA. rewrite Hn, He, Hsz.
  repeat split; vm_compute; reflexivity.
Qed.

(** C1. Variant 2 on a device of 2,097,152 sectors: the backup header is at
    sector 2097151 and the last usable sector is 2097118 as stated, but the
    backup table is placed at [BackupLBA - 33] = 2097118, which is the last
    usable sector itself and not 2097119. *)
Theorem v2_backup_table_1GiB f o :
  f_size f = 2097152 * 512 ->
  returns V2.main f o ->
  BackupLBA (V2.o_primary o) = 2097151
  /\ LastUsableLBA (V2.o_primary o) = 2097118
  /\ CurrentLBA (V2.o_backup o) = 2097151
  /\ PartitionTableLBA (V2.o_backup o) = 2097118.
Proof.
  intros Hsz Hret.
  destruct (V2Main.v2_main_ok f o Hret) as (ps & _ & _ & _ & _ & Hp & Hb & _).
  rewrite Hb, Hp. fields. unfold V2Main.lastSector. rewrite Hsz.
  repeat split; vm_compute; reflexivity.
Qed.

Lemma v2_backup_table_1GiB_witness :
  f_size gib = 2097152 * 512
  /\ returns V2.main gib v2_gib
  /\ PartitionTableLBA (V2.o_backup v2_gib) = 2097118.
Proof.
  assert (H1 : f_size gib = 2097152 * 512) by reflexivity.
  pose proof gib_v2 as H2.
  split; [exact H1|]. split; [exact H2|].
  apply (v2_backup_table_1GiB gib v2_gib H1 H2).
Defined.

(** ** Which slots the relocation loops skip *)

Module SkipRule.

Import Partition Pack V1Reloc V2Reloc.

(** The emptiness test of the specification: an all-zero type GUID, or a
    zero start LBA, or a zero end LBA. *)
Definition claimed_empty (p : GPTPartition) : bool :=
  isZero (TypeGUID p) || (StartLBA p =? 0) || (EndLBA p =? 0).

(** Variant 2 looks at the type GUID only. *)
Lemma skip_v2 (ps : list GPTPartition) cur i p :
  ps !! i = Some p ->
  let c := snd (V2.relocate (take i ps) cur) in
  let c' := snd (V2.relocate (take (S i) ps) cur) in
  if isZero (TypeGUID p) then
    fst (V2.relocate ps cur) !! i = Some p /\ c' = c
  else
    let size := u64 (u64 (EndLBA p - StartLBA p) + 1) in
    let newEnd := u64 (u64 (c + size) - 1) in
    fst (V2.relocate ps cur) !! i = Some (set_lbas c newEnd p)
    /\ c' = u64 (newEnd + 1).
Proof.
  intros H. cbv zeta.
  rewrite (relocate_lookup _ _ _ _ H), (relocate_cursor_S _ _ _ _ H).
  unfold visit, step. cbn [slot_of skip].
  destruct (isZero (TypeGUID p)); split; reflexivity.
Qed.

(** Variant 1 looks at the two LBA fields only. *)
Lemma skip_v1 es (n : nat) buf cur (j : nat) :
  48 <= es -> is_u64 cur -> Z.of_nat n * es <= Z.of_nat (length buf) ->
  (j < n)%nat ->
  exists buf' cur' bj c bj' c',
    V1.realign n 0 es buf cur = Some (buf', cur')
    /\ V1.realign j 0 es buf cur = Some (bj, c)
    /\ V1.realign (S j) 0 es buf cur = Some (bj', c')
    /\ let off := Z.of_nat j * es in
       let oldStart := get64 buf (off + 32) in
       let oldEnd := get64 buf (off + 40) in
       if (oldEnd =? 0) || (oldStart =? 0) then
         take (Z.to_nat es) (drop (Z.to_nat off) buf')
         = take (Z.to_nat es) (drop (Z.to_nat off) buf)
         /\ c' = c
       else
         let size := u64 (u64 (oldEnd - oldStart) + 1) in
         let newEnd := u64 (u64 (c + size) - 1) in
         get64 buf' (off + 32) = c /\ get64 buf' (off + 40) = newEnd
         /\ c' = u64 (newEnd + 1).
Proof.
  intros Hes Hc Hlen Hj.
  destruct (realign_all es n buf cur Hes Hc Hlen) as (buf' & Hrun & _ & Hsp & Hfr).
  destruct (realign_all es j buf cur Hes Hc) as (bj & Hrunj & _); [nia|].
  destruct (realign_all es (S j) buf cur Hes Hc) as (bj' & Hrunj' & _); [nia|].
  eexists buf', _, bj, _, bj', _.
  split; [exact Hrun|]. split; [exact Hrunj|]. split; [exact Hrunj'|].
  cbv zeta.
  pose proof (slots_lookup es n j buf Hj) as Hs.
  specialize (Hsp j Hj). rewrite (pack_lookup _ _ _ _ Hs) in Hsp.
  rewrite <- (slots_take es n (S j)) by lia.
  rewrite (pack_cursor_S _ _ _ _ Hs).
  rewrite (slots_take es n j) in * by lia.
  set (c := snd (pack (slots es (Z.of_nat j) buf) cur)) in *.
  unfold step, placed in *. cbn [slot_at skip lo hi] in *.
  destruct ((get64 buf (Z.of_nat j * es + 40) =? 0)
            || (get64 buf (Z.of_nat j * es + 32) =? 0)) eqn:Hskip.
  - split; [|reflexivity].
    apply window_ext. intros z Hz. apply Hfr. intros k Hk Hsk.
    assert (k <> j).
    { intros ->. unfold slot_at in Hsk. cbn [skip] in Hsk.
      rewrite Hskip in Hsk. discriminate. }
    nia.
  - unfold span_at, newEnd in *. cbn [lo hi] in *. injection Hsp as Ha Hb.
    repeat split; congruence.
Qed.

End SkipRule.

(** C2, as the code has it.  Variant 1 skips a slot if and only if its start
    LBA or its end LBA is zero, whatever its type GUID; variant 2 skips a
    slot if and only if its type GUID is all-zero, whatever its LBAs.  A
    skipped slot keeps all its bytes and leaves the cursor where it was;
    every other slot gets the cursor as its start, [start + size - 1] as its
    end, and moves the cursor to [end + 1]. *)
Theorem skip_rule_per_variant :
  (forall es (n : nat) buf cur (j : nat),
     48 <= es -> is_u64 cur -> Z.of_nat n * es <= Z.of_nat (length buf) ->
     (j < n)%nat ->
     exists buf' cur' bj c bj' c',
       V1.realign n 0 es buf cur = Some (buf', cur')
       /\ V1.realign j 0 es buf cur = Some (bj, c)
       /\ V1.realign (S j) 0 es buf cur = Some (bj', c')
       /\ let off := Z.of_nat j * es in
          let oldStart := V1Reloc.get64 buf (off + 32) in
          let oldEnd := V1Reloc.get64 buf (off + 40) in
          if (oldEnd =? 0) || (oldStart =? 0) then
            take (Z.to_nat es) (drop (Z.to_nat off) buf')
            = take (Z.to_nat es) (drop (Z.to_nat off) buf)
            /\ c' = c
          else
            let size := u64 (u64 (oldEnd - oldStart) + 1) in
            let newEnd := u64 (u64 (c + size) - 1) in
            V1Reloc.get64 buf' (off + 32) = c
            /\ V1Reloc.get64 buf' (off + 40) = newEnd
            /\ c' = u64 (newEnd + 1))
  /\
  (forall (ps : list Partition.GPTPartition) cur i p,
     ps !! i = Some p ->
     let c := snd (V2.relocate (take i ps) cur) in
     let c' := snd (V2.relocate (take (S i) ps) cur) in
     if isZero (Partition.TypeGUID p) then
       fst (V2.relocate ps cur) !! i = Some p /\ c' = c
     else
       let size := u64 (u64 (Partition.EndLBA p - Partition.StartLBA p) + 1) in
       let newEnd := u64 (u64 (c + size) - 1) in
       fst (V2.relocate ps cur) !! i = Some (Partition.set_lbas c newEnd p)
       /\ c' = u64 (newEnd + 1)).
Proof.
  split.
  - exact SkipRule.skip_v1.
  - exact SkipRule.skip_v2.
Qed.

Lemma skip_rule_per_variant_witness :
  (exists buf' cur' bj c bj' c',
     V1.realign 3 0 128 table3_bytes 34 = Some (buf', cur')
     /\ V1.realign 2 0 128 table3_bytes 34 = Some (bj, c)
     /\ V1.realign 3 0 128 table3_bytes 34 = Some (bj', c')
     /\ V1Reloc.get64 buf' (256 + 32) = c
     /\ V1Reloc.get64 buf' (256 + 40) = 63
     /\ c' = 64)
  /\ fst (V2.relocate table3 34) !! 1%nat = Some (entry x00 0 0)
  /\ snd (V2.relocate (take 2 table3) 34) = snd (V2.relocate (take 1 table3) 34).
Proof.
  split.
  - destruct (proj1 skip_rule_per_variant 128 3%nat table3_bytes 34 2%nat)
      as (buf' & cur' & bj & c & bj' & c' & H1 & H2 & H3 & H4).
    + lia.
    + unfold is_u64. lia.
    + vm_compute. congruence.
    + lia.
    + exists buf', cur', bj, c, bj', c'.
      split; [exact H1|]. split; [exact H2|]. split; [exact H3|].
      assert (Hc : c = 44) by (vm_compute in H2; congruence).
      subst c. exact H4.
  - exact (proj2 skip_rule_per_variant table3 34 1%nat (entry x00 0 0) eq_refl).
Defined.

(** C2 does not hold as stated: a slot with a non-zero type GUID and a zero
    start LBA is relocated by variant 2, and a slot with an all-zero type
    GUID and non-zero LBAs is relocated by variant 1. *)
Lemma skip_rule_counterexample :
  (SkipRule.claimed_empty (entry x01 0 9) = true
   /\ V2.relocate [entry x01 0 9] 34
      = ([Partition.set_lbas 34 43 (entry x01 0 9)], 44))
  /\
  (SkipRule.claimed_empty (entry x00 40 49) = true
   /\ V1.realign 1 0 128 (Partition.encode (entry x00 40 49)) 34
      = Some (Partition.encode (Partition.set_lbas 34 43 (entry x00 40 49)), 44)).
Proof. repeat split; vm_compute; reflexivity. Qed.

(** ** Sizes, order and disjointness after relocation *)

Module Layout.

Import Partition Pack V1Reloc V2Reloc.

Lemma v2_size (ps : list GPTPartition) cur i p :
  ps !! i = Some p -> isZero (TypeGUID p) = false ->
  0 <= StartLBA p -> StartLBA p <= EndLBA p -> EndLBA p < 2 ^ 64 ->
  exists p',
    fst (V2.relocate ps cur) !! i = Some p'
    /\ sub64 (EndLBA p') (StartLBA p') = EndLBA p - StartLBA p.
Proof.
  intros H Hnz H0 Hle Hhi.
  exists (visit (snd (V2.relocate (take i ps) cur)) p).
  split; [apply relocate_lookup, H|].
  unfold visit. rewrite Hnz. cbn [set_lbas StartLBA EndLBA].
  rewrite newEnd_sub. cbn [slot_of lo hi]. apply u64_small. unfold is_u64. lia.
Qed.

Lemma v1_size es (n : nat) buf cur (j : nat) :
  48 <= es -> is_u64 cur -> Z.of_nat n * es <= Z.of_nat (length buf) ->
  (j < n)%nat ->
  let oldStart := get64 buf (Z.of_nat j * es + 32) in
  let oldEnd := get64 buf (Z.of_nat j * es + 40) in
  oldStart <> 0 -> oldEnd <> 0 -> oldStart <= oldEnd ->
  exists buf' cur',
    V1.realign n 0 es buf cur = Some (buf', cur')
    /\ sub64 (get64 buf' (Z.of_nat j * es + 40)) (get64 buf' (Z.of_nat j * es + 32))
       = oldEnd - oldStart.
Proof.
  intros Hes Hc Hlen Hj oldStart oldEnd _ _ Hle.
  destruct (realign_all es n buf cur Hes Hc Hlen) as (buf' & Hrun & _ & Hsp & _).
  eexists buf', _. split; [exact Hrun|].
  pose proof (pack_size _ cur j _ _ _ (slots_lookup es n j buf Hj) (Hsp j Hj)) as Hsz.
  rewrite Hsz. cbn [slot_at lo hi]. apply u64_small.
  pose proof (get64_range buf (Z.of_nat j * es + 32)) as Hr1.
  pose proof (get64_range buf (Z.of_nat j * es + 40)) as Hr2.
  unfold is_u64 in *. subst oldStart oldEnd. lia.
Qed.

(** The occupied slots of a table hold proper ranges. *)
Definition v2_proper (ps : list GPTPartition) : Prop :=
  Forall (fun p => isZero (TypeGUID p) = false ->
                   0 <= StartLBA p /\ StartLBA p <= EndLBA p /\ EndLBA p < 2 ^ 64) ps.

(** Sectors taken by the occupied slots of a table. *)
Definition v2_sectors (ps : list GPTPartition) : Z := extent (slot_of <$> ps).

Definition v1_proper (es : Z) (n : nat) (buf : list byte) : Prop :=
  forall j : nat, (j < n)%nat ->
    get64 buf (Z.of_nat j * es + 32) <> 0 ->
    get64 buf (Z.of_nat j * es + 40) <> 0 ->
    get64 buf (Z.of_nat j * es + 32) <= get64 buf (Z.of_nat j * es + 40).

Definition v1_sectors (es : Z) (n : nat) (buf : list byte) : Z :=
  extent (slots es (Z.of_nat n) buf).

Lemma v2_proper_slots ps : v2_proper ps -> Forall proper (slot_of <$> ps).
Proof.
  unfold v2_proper. intros H. apply Forall_fmap.
  eapply Forall_impl; [exact H|]. intros p Hp. exact Hp.
Qed.

Lemma skip_false_inv (s e : Z) :
  (e =? 0) || (s =? 0) = false -> s <> 0 /\ e <> 0.
Proof.
  intros H. apply orb_false_elim in H as [H1 H2].
  apply Z.eqb_neq in H1, H2. split; assumption.
Qed.

Lemma v1_proper_slots es n buf :
  v1_proper es n buf -> Forall proper (slots es (Z.of_nat n) buf).
Proof.
  intros H. apply Forall_lookup_2. intros j s Hs.
  assert (Hj : (j < n)%nat).
  { apply lookup_lt_Some in Hs. unfold slots in Hs.
    rewrite length_fmap, length_seqZ in Hs. lia. }
  rewrite (slots_lookup es n j buf Hj) in Hs. injection Hs as <-.
  unfold proper. cbn [slot_at skip lo hi]. intros Hsk.
  apply skip_false_inv in Hsk as [Hs0 He0].
  pose proof (get64_range buf (Z.of_nat j * es + 32)).
  pose proof (get64_range buf (Z.of_nat j * es + 40)).
  pose proof (H j Hj Hs0 He0). unfold is_u64 in *. lia.
Qed.

Lemma v2_order (ps : list GPTPartition) cur i j pi pj :
  v2_proper ps -> 0 <= cur -> cur + v2_sectors ps <= 2 ^ 64 ->
  (i < j)%nat -> ps !! i = Some pi -> ps !! j = Some pj ->
  isZero (TypeGUID pi) = false -> isZero (TypeGUID pj) = false ->
  exists pi' pj',
    fst (V2.relocate ps cur) !! i = Some pi'
    /\ fst (V2.relocate ps cur) !! j = Some pj'
    /\ StartLBA pi' <= EndLBA pi'
    /\ EndLBA pi' < StartLBA pj'
    /\ StartLBA pj' <= EndLBA pj'.
Proof.
  intros Hp Hc Hx Hij Hi Hj Hzi Hzj.
  pose proof (relocate_lookup ps cur i pi Hi) as Hi'.
  pose proof (relocate_lookup ps cur j pj Hj) as Hj'.
  eexists _, _. split; [exact Hi'|]. split; [exact Hj'|].
  pose proof (relocate_spans ps cur) as Hsp.
  assert (Hsi : fst (pack (slot_of <$> ps) cur) !! i = Some (span (visit (snd (V2.relocate (take i ps) cur)) pi))).
  { rewrite <- Hsp, list_lookup_fmap, Hi'. reflexivity. }
  assert (Hsj : fst (pack (slot_of <$> ps) cur) !! j = Some (span (visit (snd (V2.relocate (take j ps) cur)) pj))).
  { rewrite <- Hsp, list_lookup_fmap, Hj'. reflexivity. }
  eapply (pack_ordered (slot_of <$> ps) cur i j (slot_of pi) (slot_of pj));
    try eassumption.
  - apply v2_proper_slots, Hp.
  - rewrite list_lookup_fmap, Hi. reflexivity.
  - rewrite list_lookup_fmap, Hj. reflexivity.
Qed.

Lemma v1_order es (n : nat) buf cur (i j : nat) :
  48 <= es -> is_u64 cur -> Z.of_nat n * es <= Z.of_nat (length buf) ->
  v1_proper es n buf -> cur + v1_sectors es n buf <= 2 ^ 64 ->
  (i < j)%nat -> (j < n)%nat ->
  get64 buf (Z.of_nat i * es + 32) <> 0 -> get64 buf (Z.of_nat i * es + 40) <> 0 ->
  get64 buf (Z.of_nat j * es + 32) <> 0 -> get64 buf (Z.of_nat j * es + 40) <> 0 ->
  exists buf' cur',
    V1.realign n 0 es buf cur = Some (buf', cur')
    /\ get64 buf' (Z.of_nat i * es + 32) <= get64 buf' (Z.of_nat i * es + 40)
    /\ get64 buf' (Z.of_nat i * es + 40) < get64 buf' (Z.of_nat j * es + 32)
    /\ get64 buf' (Z.of_nat j * es + 32) <= get64 buf' (Z.of_nat j * es + 40).
Proof.
  intros Hes Hc Hlen Hp Hx Hij Hj Hsi Hei Hsj Hej.
  destruct (realign_all es n buf cur Hes Hc Hlen) as (buf' & Hrun & _ & Hsp & _).
  eexists buf', _. split; [exact Hrun|].
  assert (Hi : (i < n)%nat) by lia.
  eapply (pack_ordered (slots es (Z.of_nat n) buf) cur i j
            (slot_at es buf (Z.of_nat i)) (slot_at es buf (Z.of_nat j))).
  - apply v1_proper_slots, Hp.
  - unfold is_u64 in Hc. lia.
  - exact Hx.
  - exact Hij.
  - apply slots_lookup, Hi.
  - apply slots_lookup, Hj.
  - cbn [slot_at skip]. apply orb_false_intro; apply Z.eqb_neq; assumption.
  - cbn [slot_at skip]. apply orb_false_intro; apply Z.eqb_neq; assumption.
  - exact (Hsp i Hi).
  - exact (Hsp j Hj).
Qed.

(** Without wrap-around the integer difference of the stored LBAs is the
    one found. *)
Lemma v2_size_exact (ps : list GPTPartition) cur i p :
  v2_proper ps -> 0 <= cur -> cur + v2_sectors ps <= 2 ^ 64 ->
  ps !! i = Some p -> isZero (TypeGUID p) = false ->
  exists p',
    fst (V2.relocate ps cur) !! i = Some p'
    /\ EndLBA p' - StartLBA p' = EndLBA p - StartLBA p.
Proof.
  intros Hp Hc Hx Hi Hz.
  pose proof (relocate_lookup ps cur i p Hi) as Hi'.
  eexists. split; [exact Hi'|].
  pose proof (relocate_spans ps cur) as Hsp.
  assert (Hs : fst (pack (slot_of <$> ps) cur) !! i
               = Some (span (visit (snd (V2.relocate (take i ps) cur)) p))).
  { rewrite <- Hsp, list_lookup_fmap, Hi'. reflexivity. }
  rewrite (pack_placed_exact (slot_of <$> ps) cur i (slot_of p)) in Hs.
  - unfold span in Hs. injection Hs as Ha Hb. rewrite <- Ha, <- Hb.
    cbn [slot_of lo hi]. lia.
  - apply v2_proper_slots, Hp.
  - exact Hc.
  - exact Hx.
  - rewrite list_lookup_fmap, Hi. reflexivity.
  - exact Hz.
Qed.

Lemma v1_size_exact es (n : nat) buf cur (j : nat) :
  48 <= es -> is_u64 cur -> Z.of_nat n * es <= Z.of_nat (length buf) ->
  v1_proper es n buf -> cur + v1_sectors es n buf <= 2 ^ 64 ->
  (j < n)%nat ->
  let oldStart := get64 buf (Z.of_nat j * es + 32) in
  let oldEnd := get64 buf (Z.of_nat j * es + 40) in
  oldStart <> 0 -> oldEnd <> 0 ->
  exists buf' cur',
    V1.realign n 0 es buf cur = Some (buf', cur')
    /\ get64 buf' (Z.of_nat j * es + 40) - get64 buf' (Z.of_nat j * es + 32)
       = oldEnd - oldStart.
Proof.
  intros Hes Hc Hlen Hp Hx Hj oldStart oldEnd Hs0 He0.
  destruct (realign_all es n buf cur Hes Hc Hlen) as (buf' & Hrun & _ & Hsp & _).
  eexists buf', _. split; [exact Hrun|].
  specialize (Hsp j Hj).
  rewrite (pack_placed_exact _ cur j (slot_at es buf (Z.of_nat j))) in Hsp.
  - unfold span_at in Hsp. injection Hsp as Ha Hb. rewrite <- Ha, <- Hb.
    cbn [slot_at lo hi]. subst oldStart oldEnd. lia.
  - apply v1_proper_slots, Hp.
  - unfold is_u64 in Hc. lia.
  - exact Hx.
  - apply slots_lookup, Hj.
  - cbn [slot_at skip]. apply orb_false_intro; apply Z.eqb_neq; assumption.
Qed.

End Layout.

(** C3, as the code has it.  Provided every occupied slot holds a proper
    range and the packed layout stays inside the 64-bit LBA space (the
    starting cursor plus the sizes of all occupied slots is at most 2^64,
    so that the cursor never wraps), every occupied slot keeps its size:
    the integer difference of its new end and start LBAs is the old one.
    This holds for any starting value of the cursor, in both variants. *)
Theorem relocation_preserves_size_without_wrap :
  (forall es (n : nat) buf cur (j : nat),
     48 <= es -> is_u64 cur -> Z.of_nat n * es <= Z.of_nat (length buf) ->
     Layout.v1_proper es n buf -> cur + Layout.v1_sectors es n buf <= 2 ^ 64 ->
     (j < n)%nat ->
     let oldStart := V1Reloc.get64 buf (Z.of_nat j * es + 32) in
     let oldEnd := V1Reloc.get64 buf (Z.of_nat j * es + 40) in
     oldStart <> 0 -> oldEnd <> 0 ->
     exists buf' cur',
       V1.realign n 0 es buf cur = Some (buf', cur')
       /\ V1Reloc.get64 buf' (Z.of_nat j * es + 40)
          - V1Reloc.get64 buf' (Z.of_nat j * es + 32)
          = oldEnd - oldStart)
  /\
  (forall (ps : list Partition.GPTPartition) cur i p,
     Layout.v2_proper ps -> 0 <= cur -> cur + Layout.v2_sectors ps <= 2 ^ 64 ->
     ps !! i = Some p -> isZero (Partition.TypeGUID p) = false ->
     exists p',
       fst (V2.relocate ps cur) !! i = Some p'
       /\ Partition.EndLBA p' - Partition.StartLBA p'
          = Partition.EndLBA p - Partition.StartLBA p).
Proof.
  split.
  - exact Layout.v1_size_exact.
  - exact Layout.v2_size_exact.
Qed.

Lemma relocation_preserves_size_without_wrap_witness :
  (exists buf' cur',
     V1.realign 3 0 128 table3_bytes 34 = Some (buf', cur')
     /\ V1Reloc.get64 buf' (256 + 40) - V1Reloc.get64 buf' (256 + 32) = 19)
  /\
  (exists p',
     fst (V2.relocate table3 34) !! 2%nat = Some p'
     /\ Partition.EndLBA p' - Partition.StartLBA p' = 19).
Proof.
  split.
  - apply (proj1 relocation_preserves_size_without_wrap
             128 3%nat table3_bytes 34 2%nat).
    + lia.
    + unfold is_u64. lia.
    + vm_compute. congruence.
    + intros [|[|[|j]]] Hj Hs He;
        first [ lia | exfalso; apply Hs; vm_compute; reflexivity | vm_compute; congruence ].
    + vm_compute. congruence.
    + lia.
    + vm_compute. congruence.
    + vm_compute. congruence.
  - apply (proj2 relocation_preserves_size_without_wrap
             table3 34 2%nat (entry x02 60 79)).
    + repeat constructor; intros Hz; vm_compute in Hz; try discriminate;
        repeat split; vm_compute; congruence.
    + lia.
    + vm_compute. congruence.
    + reflexivity.
    + reflexivity.
Defined.

(** C3 does not hold as stated: when the sizes of the occupied slots add up
    to more than 2^64 sectors the 64-bit cursor wraps inside a slot.  Slot 1
    of [wrapping] is occupied and holds the proper range [1..10]; relocated
    from sector 34 it is stored as [2^64-6 .. 3] by both variants, and the
    difference of these two LBAs is not 9 (it is 9 - 2^64; only the
    difference modulo 2^64 is kept, see [Layout.v1_size] and
    [Layout.v2_size]). *)
Lemma relocation_size_counterexample :
  (exists p p',
     wrapping !! 1%nat = Some p
     /\ isZero (Partition.TypeGUID p) = false
     /\ Partition.StartLBA p = 1 /\ Partition.EndLBA p = 10
     /\ fst (V2.relocate wrapping 34) !! 1%nat = Some p'
     /\ Partition.StartLBA p' = 2 ^ 64 - 6 /\ Partition.EndLBA p' = 3
     /\ Partition.EndLBA p' - Partition.StartLBA p'
        <> Partition.EndLBA p - Partition.StartLBA p)
  /\ (exists buf' cur',
        V1.realign 3 0 128 wrapping_bytes 34 = Some (buf', cur')
        /\ V1Reloc.span_at 128 wrapping_bytes 1 = (1, 10)
        /\ V1Reloc.span_at 128 buf' 1 = (2 ^ 64 - 6, 3)
        /\ V1Reloc.get64 buf' (128 + 40) - V1Reloc.get64 buf' (128 + 32)
           <> V1Reloc.get64 wrapping_bytes (128 + 40)
              - V1Reloc.get64 wrapping_bytes (128 + 32)).
Proof.
  split.
  - eexists _, _. split; [reflexivity|]. split; [reflexivity|].
    split; [reflexivity|]. split; [reflexivity|]. split; [reflexivity|].
    repeat split; vm_compute; congruence.
  - eexists _, _. split; [vm_compute; reflexivity|].
    repeat split; vm_compute; congruence.
Qed.

(** C4, as the code has it.  Provided every occupied slot holds a proper
    range and the packed layout stays inside the 64-bit LBA space (the
    starting cursor plus the sizes of all occupied slots is at most 2^64,
    so that the cursor never wraps), any two occupied slots [i < j] end up
    with proper ranges, the range of slot [i] lying entirely below the range
    of slot [j]; slots keep their index. *)
Theorem relocation_order_without_wrap :
  (forall es (n : nat) buf cur (i j : nat),
     48 <= es -> is_u64 cur -> Z.of_nat n * es <= Z.of_nat (length buf) ->
     Layout.v1_proper es n buf -> cur + Layout.v1_sectors es n buf <= 2 ^ 64 ->
     (i < j)%nat -> (j < n)%nat ->
     V1Reloc.get64 buf (Z.of_nat i * es + 32) <> 0 ->
     V1Reloc.get64 buf (Z.of_nat i * es + 40) <> 0 ->
     V1Reloc.get64 buf (Z.of_nat j * es + 32) <> 0 ->
     V1Reloc.get64 buf (Z.of_nat j * es + 40) <> 0 ->
     exists buf' cur',
       V1.realign n 0 es buf cur = Some (buf', cur')
       /\ V1Reloc.get64 buf' (Z.of_nat i * es + 32)
          <= V1Reloc.get64 buf' (Z.of_nat i * es + 40)
       /\ V1Reloc.get64 buf' (Z.of_nat i * es + 40)
          < V1Reloc.get64 buf' (Z.of_nat j * es + 32)
       /\ V1Reloc.get64 buf' (Z.of_nat j * es + 32)
          <= V1Reloc.get64 buf' (Z.of_nat j * es + 40))
  /\
  (forall (ps : list Partition.GPTPartition) cur i j pi pj,
     Layout.v2_proper ps -> 0 <= cur -> cur + Layout.v2_sectors ps <= 2 ^ 64 ->
     (i < j)%nat -> ps !! i = Some pi -> ps !! j = Some pj ->
     isZero (Partition.TypeGUID pi) = false ->
     isZero (Partition.TypeGUID pj) = false ->
     exists pi' pj',
       fst (V2.relocate ps cur) !! i = Some pi'
       /\ fst (V2.relocate ps cur) !! j = Some pj'
       /\ Partition.StartLBA pi' <= Partition.EndLBA pi'
       /\ Partition.EndLBA pi' < Partition.StartLBA pj'
       /\ Partition.StartLBA pj' <= Partition.EndLBA pj').
Proof.
  split.
  - exact Layout.v1_order.
  - exact Layout.v2_order.
Qed.

Lemma relocation_order_without_wrap_witness :
  (exists buf' cur',
     V1.realign 3 0 128 table3_bytes 34 = Some (buf', cur')
     /\ V1Reloc.get64 buf' (0 + 32) <= V1Reloc.get64 buf' (0 + 40)
     /\ V1Reloc.get64 buf' (0 + 40) < V1Reloc.get64 buf' (256 + 32)
     /\ V1Reloc.get64 buf' (256 + 32) <= V1Reloc.get64 buf' (256 + 40))
  /\
  (exists pi' pj',
     fst (V2.relocate table3 34) !! 0%nat = Some pi'
     /\ fst (V2.relocate table3 34) !! 2%nat = Some pj'
     /\ Partition.StartLBA pi' <= Partition.EndLBA pi'
     /\ Partition.EndLBA pi' < Partition.StartLBA pj'
     /\ Partition.StartLBA pj' <= Partition.EndLBA pj').
Proof.
  split.
  - apply (proj1 relocation_order_without_wrap 128 3%nat table3_bytes 34 0%nat 2%nat).
    + lia.
    + unfold is_u64. lia.
    + vm_compute. congruence.
    + intros [|[|[|j]]] Hj Hs He;
        first [ lia | exfalso; apply Hs; vm_compute; reflexivity | vm_compute; congruence ].
    + vm_compute. congruence.
    + lia.
    + lia.
    + vm_compute. congruence.
    + vm_compute. congruence.
    + vm_compute. congruence.
    + vm_compute. congruence.
  - apply (proj2 relocation_order_without_wrap table3 34 0%nat 2%nat
             (entry x01 40 49) (entry x02 60 79)).
    + repeat constructor; intros Hz; vm_compute in Hz; try discriminate;
        repeat split; vm_compute; congruence.
    + lia.
    + vm_compute. congruence.
    + lia.
    + reflexivity.
    + reflexivity.
    + reflexivity.
    + reflexivity.
Defined.

(** C4 does not hold as stated: three occupied slots with proper ranges
    whose sizes add up to more than 2^64 sectors make the 64-bit cursor
    wrap, in both variants; slot 2 then lands at [4..103], inside the range
    [34..2^64-7] given to slot 0. *)
Lemma relocation_order_counterexample :
  Forall (fun p => isZero (Partition.TypeGUID p) = false
                   /\ 0 < Partition.StartLBA p
                   /\ Partition.StartLBA p <= Partition.EndLBA p
                   /\ Partition.EndLBA p < 2 ^ 64) wrapping
  /\ V2Reloc.span <$> fst (V2.relocate wrapping 34)
     = [(34, 2 ^ 64 - 7); (2 ^ 64 - 6, 3); (4, 103)]
  /\ (exists buf' cur',
        V1.realign 3 0 128 wrapping_bytes 34 = Some (buf', cur')
        /\ V1Reloc.span_at 128 buf' <$> [0; 1; 2]
           = [(34, 2 ^ 64 - 7); (2 ^ 64 - 6, 3); (4, 103)])
  /\ (exists p0 p2,
        fst (V2.relocate wrapping 34) !! 0%nat = Some p0
        /\ fst (V2.relocate wrapping 34) !! 2%nat = Some p2
        /\ ~ (Partition.EndLBA p0 <= Partition.StartLBA p2)
        /\ Partition.StartLBA p0 <= Partition.EndLBA p2
        /\ Partition.StartLBA p2 <= Partition.EndLBA p0).
Proof.
  split; [|split; [|split]].
  - repeat constructor; vm_compute; congruence.
  - vm_compute. reflexivity.
  - eexists _, _. split; vm_compute; reflexivity.
  - eexists _, _. split; [reflexivity|]. split; [reflexivity|].
    repeat split; vm_compute; congruence.
Qed.

(** ** The backup header *)

(** All fields but [CurrentLBA], [BackupLBA], [PartitionTableLBA] and
    [HeaderCRC32] agree. *)
Definition mirrors (primary backup : GPTHeader) : Prop :=
  Signature backup = Signature primary
  /\ Revision backup = Revision primary
  /\ HeaderSize backup = HeaderSize primary
  /\ Reserved backup = Reserved primary
  /\ FirstUsableLBA backup = FirstUsableLBA primary
  /\ LastUsableLBA backup = LastUsableLBA primary
  /\ DiskGUID backup = DiskGUID primary
  /\ NumPartitions backup = NumPartitions primary
  /\ PartitionEntrySize backup = PartitionEntrySize primary
  /\ PartitionTableCRC backup = PartitionTableCRC primary.

(** C5. In a successful run of either variant the backup header agrees with
    the corrected primary header on every field except [CurrentLBA],
    [BackupLBA], [PartitionTableLBA] and [HeaderCRC32]; in particular the
    disk GUID and the table checksum are the same, and the backup header's
    [CurrentLBA] is the primary header's [BackupLBA]. *)
Theorem backup_mirrors_primary :
  (forall f o,
     returns V1.main f o ->
     mirrors (V1.o_primary o) (V1.o_backup o)
     /\ DiskGUID (V1.o_backup o) = DiskGUID (V1.o_primary o)
     /\ PartitionTableCRC (V1.o_backup o) = PartitionTableCRC (V1.o_primary o)
     /\ CurrentLBA (V1.o_backup o) = BackupLBA (V1.o_primary o))
  /\
  (forall f o,
     returns V2.main f o ->
     mirrors (V2.o_primary o) (V2.o_backup o)
     /\ DiskGUID (V2.o_backup o) = DiskGUID (V2.o_primary o)
     /\ PartitionTableCRC (V2.o_backup o) = PartitionTableCRC (V2.o_primary o)
     /\ CurrentLBA (V2.o_backup o) = BackupLBA (V2.o_primary o)).
Proof.
  split; intros f o Hret.
  - destruct (V1Main.v1_main_ok f o Hret) as (_ & _ & _ & Hp & Hb & _).
    rewrite Hb, Hp. unfold mirrors. fields. repeat split; reflexivity.
  - destruct (V2Main.v2_main_ok f o Hret) as (ps & _ & _ & _ & _ & Hp & Hb & _).
    rewrite Hb. unfold mirrors. fields. repeat split; reflexivity.
Qed.

Lemma backup_mirrors_primary_witness :
  (returns V1.main small v1_small
   /\ mirrors (V1.o_primary v1_small) (V1.o_backup v1_small)
   /\ CurrentLBA (V1.o_backup v1_small) = BackupLBA (V1.o_primary v1_small))
  /\
  (returns V2.main small v2_small
   /\ mirrors (V2.o_primary v2_small) (V2.o_backup v2_small)
   /\ CurrentLBA (V2.o_backup v2_small) = BackupLBA (V2.o_primary v2_small)).
Proof.
  pose proof small_v1 as H1.
  pose proof small_v2 as H2.
  split.
  - split; [exact H1|].
    destruct (proj1 backup_mirrors_primary small v1_small H1) as (Hm & _ & _ & Hc).
    split; assumption.
  - split; [exact H2|].
    destruct (proj2 backup_mirrors_primary small v2_small H2) as (Hm & _ & _ & Hc).
    split; assumption.
Defined.

(** ** The partition table checksum *)

Module TableCRC.

Import Partition V1Reloc V2Reloc.

Lemma slice_bounds b lo hi s :
  slice b lo hi = Some s -> 0 <= lo /\ lo <= hi /\ hi <= Z.of_nat (length b).
Proof.
  unfold slice. destruct (_ && _) eqn:E; [|discriminate]. intros _.
  apply andb_prop in E as [E1 E3]. apply andb_prop in E1 as [E1 E2]. lia.
Qed.

(** The loop of variant 1 never changes the length of the table buffer. *)
Lemma realign_length k :
  forall i es buf c buf' c',
  V1.realign k i es buf c = Some (buf', c') -> length buf' = length buf.
Proof.
  induction k as [|k IH]; intros i es buf c buf' c' H.
  - cbn in H. congruence.
  - cbn [V1.realign] in H.
    destruct (slice buf (i * es) (i * es + es)) eqn:E0; [|discriminate].
    destruct (slice buf (i * es + 32) (i * es + 40)) as [bs|] eqn:E1; [|discriminate].
    destruct (slice buf (i * es + 40) (i * es + 48)) as [be|] eqn:E2; [|discriminate].
    apply slice_bounds in E1, E2.
    destruct ((le_decode be =? 0) || (le_decode bs =? 0)).
    + exact (IH _ _ _ _ _ _ H).
    + apply IH in H. rewrite H. bounds.
Qed.

Lemma field_u32 b off : is_u32 (le_decode (field b off 4)).
Proof.
  unfold is_u32, field.
  pose proof (le_decode_range (take 4 (drop off b))) as H.
  assert (Hl : (length (take 4 (drop off b)) <= 4)%nat) by (rewrite length_take; lia).
  assert (256 ^ Z.of_nat (length (take 4 (drop off b))) <= 256 ^ 4)
    by (apply Z.pow_le_mono_r; lia).
  change (2 ^ 32) with (256 ^ 4). lia.
Qed.

(** A non-negative [int] product of two [uint32] values did not overflow. *)
Lemma i64_product n e :
  is_u32 n -> is_u32 e -> 0 <= i64 (n * e) -> i64 (n * e) = n * e.
Proof.
  unfold is_u32, i64. intros Hn He H.
  assert (0 <= n * e < 2 ^ 64) by nia.
  destruct (Z_lt_le_dec (n * e) (2 ^ 63)) as [Hlt|Hge].
  - rewrite Z.mod_small; lia.
  - exfalso.
    replace (n * e + 2 ^ 63) with (n * e - 2 ^ 63 + 1 * 2 ^ 64) in H by lia.
    rewrite Z.mod_add, Z.mod_small in H; lia.
Qed.

(** Variant 1: the stored checksum is that of the whole table buffer, which
    holds [NumPartitions * PartitionEntrySize] bytes, the product of the two
    header fields as read. *)
Lemma crc_v1 f o :
  returns V1.main f o ->
  PartitionTableCRC (V1.o_primary o) = ChecksumIEEE (V1.o_table o)
  /\ PartitionTableCRC (V1.o_backup o) = ChecksumIEEE (V1.o_table o)
  /\ Z.of_nat (length (V1.o_table o))
     = NumPartitions (V1.o_primary o) * PartitionEntrySize (V1.o_primary o)
  /\ exists off, In (mkWr off (V1.o_table o)) (writes V1.main f)
       /\ off = lba_offset (PartitionTableLBA (V1.o_primary o)).
Proof.
  intros Hret.
  destruct (V1Main.v1_main_ok f o Hret) as (_ & Hnn & (cur & Hre) & Hp & Hb & Hw).
  rewrite Hb, Hp. fields. split; [reflexivity|]. split; [reflexivity|]. split.
  - apply realign_length in Hre. rewrite Hre, read_bytes_length.
    rewrite Z2Nat.id by exact Hnn.
    apply i64_product; [apply field_u32|apply field_u32|exact Hnn].
  - eexists. split; [|reflexivity]. rewrite Hw. left. reflexivity.
Qed.

Lemma copy_exact (dst src : list byte) : length src = length dst -> copy dst src = src.
Proof.
  intros H. unfold copy. rewrite <- H, take_ge, drop_ge by lia.
  apply app_nil_r.
Qed.

Lemma copy_at_fits (tbl : list byte) off (buf : list byte) :
  (off + length buf <= length tbl)%nat ->
  V2.copy_at tbl off buf = take off tbl ++ buf ++ drop (off + length buf) tbl.
Proof.
  intros H. unfold V2.copy_at, copy. f_equal.
  rewrite length_drop, take_ge by lia. rewrite drop_drop. reflexivity.
Qed.

(** Filling slots [i], [i+1], ... of a buffer with sized records. *)
Lemma fill_table_concat ps :
  Forall sized ps ->
  forall i tbl,
  ((i + length ps) * 128 <= length tbl)%nat ->
  V2.fill_table i ps tbl
  = take (i * 128) tbl ++ concat (Partition.encode <$> ps)
    ++ drop ((i + length ps) * 128) tbl.
Proof.
  induction 1 as [|p ps Hp Hps IH]; intros i tbl Hlen.
  - cbn [V2.fill_table fmap list_fmap concat length app].
    rewrite Nat.add_0_r, take_drop. reflexivity.
  - cbn [V2.fill_table length] in *.
    pose proof (encode_length p Hp) as Hel. unfold Partition.size in Hel.
    assert (Hbuf : V2.byteBuffer_Write (zeros V2.PARTITION_ENTRY_SIZE) (Partition.encode p)
                   = Partition.encode p).
    { unfold V2.byteBuffer_Write. apply copy_exact.
      rewrite Hel. unfold zeros. rewrite repeat_length. reflexivity. }
    rewrite Hbuf.
    replace (Z.to_nat V2.PARTITION_ENTRY_SIZE) with 128%nat by reflexivity.
    rewrite copy_at_fits by lia. rewrite Hel.
    rewrite IH.
    2:{ rewrite !length_app. rewrite length_take. rewrite length_drop. lia. }
    set (A := take (i * 128) tbl). set (E := Partition.encode p).
    set (D := drop (i * 128 + 128) tbl).
    assert (HA : length A = (i * 128)%nat) by (unfold A; rewrite length_take; lia).
    assert (Ht : take (S i * 128) (A ++ E ++ D) = A ++ E).
    { rewrite app_assoc. apply take_app_length'. rewrite length_app, HA. unfold E. lia. }
    assert (Hd : drop ((S i + length ps) * 128) (A ++ E ++ D)
                 = drop ((i + S (length ps)) * 128) tbl).
    { rewrite app_assoc, drop_app_ge by (rewrite length_app, HA; unfold E; lia).
      unfold D. rewrite drop_drop. f_equal. rewrite length_app, HA. unfold E. lia. }
    rewrite Ht, Hd, fmap_cons. cbn [concat]. rewrite <- !app_assoc. reflexivity.
Qed.

Lemma relocate_sized ps cur : Forall sized ps -> Forall sized (fst (V2.relocate ps cur)).
Proof.
  intros H. revert cur. induction H as [|p ps Hp Hps IH]; intros cur.
  - constructor.
  - rewrite relocate_cons. cbn [fst]. constructor; [|apply IH].
    unfold visit. destruct (isZero (TypeGUID p)); exact Hp.
Qed.

(** Variant 2: the stored checksum is that of the serialised 128 slots,
    empty ones included, 16384 bytes whatever the header announces. *)
Lemma crc_v2 f o :
  returns V2.main f o ->
  PartitionTableCRC (V2.o_primary o)
    = ChecksumIEEE (concat (Partition.encode <$> V2.o_partitions o))
  /\ PartitionTableCRC (V2.o_backup o) = PartitionTableCRC (V2.o_primary o)
  /\ length (V2.o_partitions o) = 128%nat
  /\ Z.of_nat (length (concat (Partition.encode <$> V2.o_partitions o)))
     = V2.PARTITION_ENTRY_COUNT * V2.PARTITION_ENTRY_SIZE.
Proof.
  intros Hret.
  destruct (V2Main.v2_main_ok f o Hret) as (ps & _ & Hn & Hsz & Hparts & Hp & Hb & _).
  assert (Hsz' : Forall sized (V2.o_partitions o))
    by (rewrite Hparts; apply relocate_sized, Hsz).
  assert (Hn' : length (V2.o_partitions o) = 128%nat)
    by (rewrite Hparts, relocate_length; exact Hn).
  assert (Htbl : V2.partitionTableBytes (V2.o_partitions o)
                 = concat (Partition.encode <$> V2.o_partitions o)).
  { unfold V2.partitionTableBytes. rewrite (fill_table_concat _ Hsz').
    - rewrite Hn'. cbn [take Nat.mul]. rewrite drop_ge.
      + rewrite app_nil_r. reflexivity.
      + unfold zeros. rewrite repeat_length. vm_compute. lia.
    - rewrite Hn'. unfold zeros. rewrite repeat_length. vm_compute. lia. }
  split; [|split; [|split]].
  - rewrite Hp. fields. rewrite Htbl. reflexivity.
  - rewrite Hb. fields. reflexivity.
  - exact Hn'.
  - rewrite <- Htbl. unfold V2.partitionTableBytes.
    clear - Hn'. 
    assert (Hl : forall ps i tbl, length (V2.fill_table i ps tbl) = length tbl).
    { induction ps as [|q ps IH]; intros i tbl; [reflexivity|].
      cbn [V2.fill_table]. rewrite IH. unfold V2.copy_at, copy.
      rewrite !length_app, !length_take, !length_drop. lia. }
    rewrite Hl. unfold zeros. rewrite repeat_length. vm_compute. reflexivity.
Qed.

End TableCRC.

(** C6 in both variants.  Variant 1 does what the claim says: it stores
    the CRC-32 of the whole raw table buffer, empty slots included, which
    holds exactly [NumPartitions * PartitionEntrySize] bytes for whatever
    values the header carries.  Variant 2 does not: it stores the CRC-32 of
    the concatenated serialisations of its 128 slots, empty ones included,
    exactly 128 * 128 bytes, independently of the two header fields, which
    it leaves in the header as it found them. *)
Theorem table_crc_per_variant :
  (forall f o,
     returns V1.main f o ->
     PartitionTableCRC (V1.o_primary o) = ChecksumIEEE (V1.o_table o)
     /\ Z.of_nat (length (V1.o_table o))
        = NumPartitions (V1.o_primary o) * PartitionEntrySize (V1.o_primary o))
  /\
  (forall f o,
     returns V2.main f o ->
     PartitionTableCRC (V2.o_primary o)
       = ChecksumIEEE (concat (Partition.encode <$> V2.o_partitions o))
     /\ Z.of_nat (length (concat (Partition.encode <$> V2.o_partitions o)))
        = 128 * 128).
Proof.
  split; intros f o Hret.
  - destruct (TableCRC.crc_v1 f o Hret) as (H1 & _ & H2 & _). split; assumption.
  - destruct (TableCRC.crc_v2 f o Hret) as (H1 & _ & _ & H2). split; assumption.
Qed.

Lemma table_crc_per_variant_witness :
  (returns V1.main small v1_small
   /\ PartitionTableCRC (V1.o_primary v1_small) = ChecksumIEEE (V1.o_table v1_small)
   /\ Z.of_nat (length (V1.o_table v1_small))
      = NumPartitions (V1.o_primary v1_small)
        * PartitionEntrySize (V1.o_primary v1_small))
  /\
  (returns V2.main small v2_small
   /\ PartitionTableCRC (V2.o_primary v2_small)
      = ChecksumIEEE (concat (Partition.encode <$> V2.o_partitions v2_small))
   /\ Z.of_nat (length (concat (Partition.encode <$> V2.o_partitions v2_small)))
      = 128 * 128).
Proof.
  pose proof small_v1 as H1.
  pose proof small_v2 as H2.
  split.
  - split; [exact H1|]. exact (proj1 table_crc_per_variant small v1_small H1).
  - split; [exact H2|]. exact (proj2 table_crc_per_variant small v2_small H2).
Defined.

(** C6, the failing input: a disk whose header announces 4 entries of 128
    bytes at sector 2.  Variant 2 leaves [NumPartitions = 4] in the header
    and stores the checksum of 16384 bytes; this is neither the checksum of
    the first 512 bytes of its table nor the checksum of the 512 bytes an
    inspector reads back from the announced entry array of the repaired
    disk.  Variant 1 on the same disk stores the checksum of the 512-byte
    entry array, which is also what is read back from the disk it leaves. *)
Lemma table_crc_counterexample :
  returns V2.main short_table v2_short_table
  /\ NumPartitions (V2.o_primary v2_short_table)
     * PartitionEntrySize (V2.o_primary v2_short_table) = 512
  /\ lba_offset (PartitionTableLBA (V2.o_primary v2_short_table)) = 1024
  /\ PartitionTableCRC (V2.o_primary v2_short_table)
     = ChecksumIEEE (concat (Partition.encode <$> V2.o_partitions v2_short_table))
  /\ Z.of_nat (length (concat (Partition.encode <$> V2.o_partitions v2_short_table)))
     = 16384
  /\ PartitionTableCRC (V2.o_primary v2_short_table)
     <> ChecksumIEEE
          (take 512 (concat (Partition.encode <$> V2.o_partitions v2_short_table)))
  /\ PartitionTableCRC (V2.o_primary v2_short_table)
     <> ChecksumIEEE (read_bytes (disk_after V2.main short_table) 1024 512)
  /\ returns V1.main short_table v1_short_table
  /\ NumPartitions (V1.o_primary v1_short_table)
     * PartitionEntrySize (V1.o_primary v1_short_table) = 512
  /\ lba_offset (PartitionTableLBA (V1.o_primary v1_short_table)) = 1024
  /\ Z.of_nat (length (V1.o_table v1_short_table)) = 512
  /\ PartitionTableCRC (V1.o_primary v1_short_table)
     = ChecksumIEEE (V1.o_table v1_short_table)
  /\ PartitionTableCRC (V1.o_primary v1_short_table)
     = ChecksumIEEE (read_bytes (disk_after V1.main short_table) 1024 512).
Proof.
  split; [exact short_table_v2|].
  do 6 (split; [vm_compute; congruence|]).
  split; [exact short_table_v1|].
  repeat split; vm_compute; congruence.
Qed.

(** ** The recomputed header checksum of the inspectors *)

Module InspectFacts.

Import Inspect.

(** The buffer after [hdrForCRC[i] = 0] for [i = 16 .. 19]. *)
Definition zeroed (b : list byte) : list byte :=
  <[19%nat := x00]> (<[18%nat := x00]> (<[17%nat := x00]> (<[16%nat := x00]> b))).

Lemma zero_from_16_4 b :
  zero_from 16 4 b = if (20 <=? length b)%nat then Some (zeroed b) else None.
Proof.
  unfold zeroed. cbn [zero_from]. rewrite !length_insert.
  destruct (20 <=? length b)%nat eqn:E.
  - apply Nat.leb_le in E.
    destruct (16 <? length b)%nat eqn:E16; [|apply Nat.ltb_ge in E16; lia].
    destruct (17 <? length b)%nat eqn:E17; [|apply Nat.ltb_ge in E17; lia].
    destruct (18 <? length b)%nat eqn:E18; [|apply Nat.ltb_ge in E18; lia].
    destruct (19 <? length b)%nat eqn:E19; [|apply Nat.ltb_ge in E19; lia].
    reflexivity.
  - apply Nat.leb_gt in E.
    destruct (16 <? length b)%nat eqn:E16; [|reflexivity].
    destruct (17 <? length b)%nat eqn:E17; [|reflexivity].
    destruct (18 <? length b)%nat eqn:E18; [|reflexivity].
    destruct (19 <? length b)%nat eqn:E19; [|reflexivity].
    apply Nat.ltb_lt in E19. lia.
Qed.

Lemma zeroed_length b : length (zeroed b) = length b.
Proof. unfold zeroed. rewrite !length_insert. reflexivity. Qed.

Lemma zeroed_inside b i :
  (16 <= i < 20)%nat -> (i < length b)%nat -> zeroed b !! i = Some x00.
Proof.
  intros Hi Hl. unfold zeroed. rewrite !list_lookup_insert, !length_insert.
  repeat case_decide; try reflexivity. lia.
Qed.

Lemma zeroed_outside b i :
  (i < 16 \/ 20 <= i)%nat -> zeroed b !! i = b !! i.
Proof.
  intros Hi. unfold zeroed. rewrite !list_lookup_insert_ne by lia. reflexivity.
Qed.

(** The three ways the block can end, by the decoded [HeaderSize]. *)
Lemma recalc_cases hdrBuf hdr :
  recalc hdrBuf hdr =
  if (0 <=? Header.HeaderSize hdr)
     && (Header.HeaderSize hdr <=? Z.of_nat (length hdrBuf))
  then
    if 20 <=? Header.HeaderSize hdr
    then let hdrForCRC := zeroed (take (Z.to_nat (Header.HeaderSize hdr)) hdrBuf) in
         Crc (ChecksumIEEE hdrForCRC) hdrForCRC
    else IndexOutOfRange
  else SliceOutOfRange.
Proof.
  unfold recalc, slice.
  change (0 <=? 0) with true. cbn [andb].
  destruct ((0 <=? Header.HeaderSize hdr)
            && (Header.HeaderSize hdr <=? Z.of_nat (length hdrBuf))) eqn:E;
    [|reflexivity].
  apply andb_prop in E as [E1 E2]. apply Z.leb_le in E1, E2.
  rewrite Z.sub_0_r. change (Z.to_nat 0) with 0%nat. rewrite drop_0.
  assert (Hcopy : copy (zeros (Header.HeaderSize hdr))
                    (take (Z.to_nat (Header.HeaderSize hdr)) hdrBuf)
                  = take (Z.to_nat (Header.HeaderSize hdr)) hdrBuf).
  { apply TableCRC.copy_exact. unfold zeros.
    rewrite repeat_length, length_take. lia. }
  rewrite Hcopy, zero_from_16_4, length_take.
  destruct (20 <=? Header.HeaderSize hdr) eqn:E20.
  - apply Z.leb_le in E20.
    destruct (20 <=? _)%nat eqn:En; [reflexivity|].
    apply Nat.leb_gt in En. lia.
  - apply Z.leb_gt in E20.
    destruct (20 <=? _)%nat eqn:En; [|reflexivity].
    apply Nat.leb_le in En. lia.
Qed.

(** Buffers that agree outside the stored checksum decode to the same
    [HeaderSize]. *)
Lemma header_size_agree (b1 b2 : list byte) :
  (forall i, (i < 16 \/ 20 <= i)%nat -> b1 !! i = b2 !! i) ->
  Header.HeaderSize (Header.of_bytes b1) = Header.HeaderSize (Header.of_bytes b2).
Proof.
  intros H. unfold Header.of_bytes, field. cbn [Header.HeaderSize]. f_equal.
  apply V1Reloc.window_ext. intros z Hz. apply H. lia.
Qed.

Lemma zeroed_agree (b1 b2 : list byte) n :
  length b1 = length b2 ->
  (forall i, (i < 16 \/ 20 <= i)%nat -> b1 !! i = b2 !! i) ->
  zeroed (take n b1) = zeroed (take n b2).
Proof.
  intros Hlen H. apply list_eq. intros i.
  assert (Hl12 : length (take n b1) = length (take n b2))
    by (rewrite !length_take; lia).
  destruct (decide (16 <= i < 20)%nat) as [Hi|Hi].
  - destruct (decide (i < length (take n b1))%nat) as [Hl|Hl].
    + rewrite !zeroed_inside; try assumption; [reflexivity|lia].
    + rewrite !lookup_ge_None_2; [reflexivity| |]; rewrite zeroed_length; lia.
  - rewrite !zeroed_outside by lia.
    destruct (decide (i < n)%nat).
    + rewrite !lookup_take_lt by assumption. apply H. lia.
    + rewrite !lookup_take_ge by lia. reflexivity.
Qed.

End InspectFacts.

(** C7. Two sector buffers that differ only in the four bytes at offsets 16
    to 19 give the same result.  Whenever the block produces a checksum, it
    is the CRC-32 of exactly [HeaderSize] bytes, the bytes of the header
    sector with offsets 16 to 19 replaced by zero.  And it does produce one
    for every sector whose [HeaderSize] is at least 20 and at most the
    length of the sector buffer, the same for both buffers. *)
Theorem header_crc_ignores_stored_checksum (b1 b2 : list byte) :
  length b1 = length b2 ->
  (forall i, (i < 16 \/ 20 <= i)%nat -> b1 !! i = b2 !! i) ->
  Inspect.recalc b1 (Header.of_bytes b1) = Inspect.recalc b2 (Header.of_bytes b2)
  /\ (forall c buf,
       Inspect.recalc b1 (Header.of_bytes b1) = Inspect.Crc c buf ->
       c = ChecksumIEEE buf
       /\ Z.of_nat (length buf) = HeaderSize (Header.of_bytes b1)
       /\ (forall i, (16 <= i < 20)%nat -> buf !! i = Some x00)
       /\ (forall i, (i < 16 \/ 20 <= i)%nat ->
             buf !! i = take (Z.to_nat (HeaderSize (Header.of_bytes b1))) b1 !! i))
  /\ (20 <= HeaderSize (Header.of_bytes b1) <= Z.of_nat (length b1) ->
      exists buf,
        Inspect.recalc b1 (Header.of_bytes b1) = Inspect.Crc (ChecksumIEEE buf) buf
        /\ Inspect.recalc b2 (Header.of_bytes b2) = Inspect.Crc (ChecksumIEEE buf) buf
        /\ Z.of_nat (length buf) = HeaderSize (Header.of_bytes b1)
        /\ (forall i, (16 <= i < 20)%nat -> buf !! i = Some x00)
        /\ (forall i, (i < 16 \/ 20 <= i)%nat ->
              (Z.of_nat i < HeaderSize (Header.of_bytes b1)) ->
              buf !! i = b1 !! i)).
Proof.
  intros Hlen H.
  assert (Heq : Inspect.recalc b1 (Header.of_bytes b1)
                = Inspect.recalc b2 (Header.of_bytes b2)).
  { rewrite !InspectFacts.recalc_cases.
    rewrite <- (InspectFacts.header_size_agree b1 b2 H), <- Hlen.
    cbv zeta.
    rewrite (InspectFacts.zeroed_agree b1 b2 _ Hlen H). reflexivity. }
  split; [exact Heq|]. split.
  - intros c buf. rewrite InspectFacts.recalc_cases.
    generalize (HeaderSize (Header.of_bytes b1)). intros hs.
    destruct (_ && _) eqn:E; [|discriminate].
    destruct (20 <=? _) eqn:E20; [|discriminate].
    cbv zeta. intros [= <- <-].
    apply andb_prop in E as [E1 E2]. apply Z.leb_le in E1, E2, E20.
    split; [reflexivity|]. split; [|split].
    + rewrite InspectFacts.zeroed_length, length_take. lia.
    + intros i Hi. apply InspectFacts.zeroed_inside; [exact Hi|].
      rewrite length_take. lia.
    + intros i Hi. apply InspectFacts.zeroed_outside, Hi.
  - intros Hhs. rewrite <- Heq. rewrite InspectFacts.recalc_cases.
    revert Hhs. generalize (HeaderSize (Header.of_bytes b1)). intros hs Hhs.
    assert (E : (0 <=? hs) && (hs <=? Z.of_nat (length b1)) = true).
    { apply andb_true_intro. split; apply Z.leb_le; lia. }
    assert (E20 : (20 <=? hs) = true) by (apply Z.leb_le; lia).
    rewrite E, E20. cbv zeta.
    exists (InspectFacts.zeroed (take (Z.to_nat hs) b1)).
    split; [reflexivity|]. split; [reflexivity|]. split; [|split].
    + rewrite InspectFacts.zeroed_length, length_take. lia.
    + intros i Hi. apply InspectFacts.zeroed_inside; [exact Hi|].
      rewrite length_take. lia.
    + intros i Hi Hlt. rewrite InspectFacts.zeroed_outside by exact Hi.
      apply lookup_take_lt. lia.
Qed.

(** Two 512-byte header sectors that differ in the stored checksum only. *)
Definition sector_a : list byte :=
  Header.encode (header Header.GPT_SIGNATURE 92 34 2 128 128) ++ zeros 420.

Definition sector_b : list byte :=
  Header.encode
    (Header.set_HeaderCRC32 0xDEADBEEF (header Header.GPT_SIGNATURE 92 34 2 128 128))
  ++ zeros 420.

Lemma header_crc_ignores_stored_checksum_witness :
  sector_a <> sector_b
  /\ length sector_a = 512%nat
  /\ exists buf,
       Inspect.recalc sector_a (Header.of_bytes sector_a)
       = Inspect.Crc (ChecksumIEEE buf) buf
       /\ Inspect.recalc sector_b (Header.of_bytes sector_b)
          = Inspect.Crc (ChecksumIEEE buf) buf
       /\ Z.of_nat (length buf) = 92.
Proof.
  split; [vm_compute; congruence|]. split; [reflexivity|].
  assert (Hlen : length sector_a = length sector_b) by reflexivity.
  assert (H : forall i, (i < 16 \/ 20 <= i)%nat -> sector_a !! i = sector_b !! i).
  { intros i Hi.
    do 16 (destruct i as [|i]; [reflexivity|]).
    do 4 (destruct i as [|i]; [exfalso; lia|]).
    reflexivity. }
  assert (Hhs : 20 <= HeaderSize (Header.of_bytes sector_a)
                <= Z.of_nat (length sector_a)) by (vm_compute; intuition discriminate).
  destruct (proj2 (proj2 (header_crc_ignores_stored_checksum sector_a sector_b Hlen H))
              Hhs) as (buf & H1 & H2 & H3 & _).
  exists buf. split; [exact H1|]. split; [exact H2|]. exact H3.
Defined.

(** A 4-sector image whose header announces a [HeaderSize] of 513 bytes. *)
Definition oversized : File :=
  sparse (4 * 512) [(512, Header.encode (header Header.GPT_SIGNATURE 513 34 2 0 128))].

(** C10. The block that recomputes the header checksum slices the 512-byte
    sector buffer up to the decoded [HeaderSize]: it can only produce a
    checksum when [HeaderSize] is at most 512, and whenever [HeaderSize]
    exceeds 512 the slice expression is out of bounds and the inspector
    stops in a run-time panic. *)
Theorem header_crc_needs_header_size_within_sector f :
  SECTOR_SIZE + SECTOR_SIZE <= f_size f ->
  let hdrBuf := read_bytes f SECTOR_SIZE 512 in
  let hdr := Header.of_bytes hdrBuf in
  (forall c buf, Inspect.recalc hdrBuf hdr = Inspect.Crc c buf -> HeaderSize hdr <= 512)
  /\ (512 < HeaderSize hdr ->
      Inspect.recalc hdrBuf hdr = Inspect.SliceOutOfRange
      /\ fst (Inspect.main_prefix (open f)) = Panic "slice bounds out of range").
Proof.
  intros Hsz hdrBuf hdr.
  assert (Hlen : Z.of_nat (length hdrBuf) = 512)
    by (unfold hdrBuf; rewrite read_bytes_length; reflexivity).
  split.
  - intros c buf. rewrite InspectFacts.recalc_cases, Hlen.
    destruct (_ && _) eqn:E; [|discriminate]. intros _.
    apply andb_prop in E as [_ E]. apply Z.leb_le in E. exact E.
  - intros Hbig.
    assert (Hre : Inspect.recalc hdrBuf hdr = Inspect.SliceOutOfRange).
    { rewrite InspectFacts.recalc_cases, Hlen.
      destruct (HeaderSize hdr <=? 512) eqn:E; [apply Z.leb_le in E; lia|].
      rewrite andb_false_r. reflexivity. }
    split; [exact Hre|].
    unfold Inspect.main_prefix, bind, orFatal, bind, ReadAt, ret.
    cbn [disk open].
    destruct (SECTOR_SIZE <? 0) eqn:E0; [discriminate|].
    destruct (SECTOR_SIZE + SECTOR_SIZE <=? f_size f) eqn:E1;
      [|apply Z.leb_gt in E1; lia].
    rewrite orb_true_r.
    change (Z.to_nat SECTOR_SIZE) with 512%nat. fold hdrBuf.
    assert (Hdec : Header.decode hdrBuf = Some hdr).
    { unfold Header.decode, Header.size.
      destruct (92 <=? length hdrBuf)%nat eqn:E; [reflexivity|].
      apply Nat.leb_gt in E. lia. }
    rewrite Hdec, Hre. reflexivity.
Qed.

Lemma header_crc_needs_header_size_within_sector_witness :
  SECTOR_SIZE + SECTOR_SIZE <= f_size oversized
  /\ 512 < HeaderSize (Header.of_bytes (read_bytes oversized SECTOR_SIZE 512))
  /\ fst (Inspect.main_prefix (open oversized)) = Panic "slice bounds out of range".
Proof.
  assert (H1 : SECTOR_SIZE + SECTOR_SIZE <= f_size oversized)
    by (vm_compute; congruence).
  assert (H2 : 512 < HeaderSize (Header.of_bytes (read_bytes oversized SECTOR_SIZE 512)))
    by (vm_compute; reflexivity).
  split; [exact H1|]. split; [exact H2|].
  exact (proj2 (proj2 (header_crc_needs_header_size_within_sector oversized H1) H2)).
Defined.

(** ** The signature check *)

Lemma v2_run_foreign_signature f :
  Signature (Header.of_bytes (read_bytes f SECTOR_SIZE Header.size))
    <> Header.GPT_SIGNATURE ->
  exists msg w, V2.main (open f) = (Fatal msg, w) /\ disk w = f /\ wlog w = [].
Proof.
  intros Hsig. unfold V2.main.
  unfold bind at 1. unfold Stat at 1. cbn [disk open].
  unfold bind at 1. unfold orFatal at 1. unfold bind at 1. unfold Seek at 1.
  destruct (SECTOR_SIZE <? 0) eqn:E0; [discriminate|].
  cbn [ret disk pos wlog open].
  unfold bind at 1. unfold orFatal at 1. unfold bind at 1. unfold ReadFull at 1.
  cbn [disk pos wlog].
  destruct (SECTOR_SIZE + Z.of_nat Header.size <=? f_size f) eqn:E1.
  - cbn [ret].
    replace (Z.to_nat (Z.of_nat Header.size)) with Header.size by lia.
    destruct (eqb_bytes _ Header.GPT_SIGNATURE) eqn:E.
    + apply eqb_bytes_true in E. contradiction.
    + cbn [negb fatal]. eexists _, _. split; [reflexivity|]. split; reflexivity.
  - cbn [fatal]. eexists _, _. split; [reflexivity|]. split; reflexivity.
Qed.

(** Variant 2 stops before issuing any write when the signature read from
    sector 1 is not "EFI PART" (or when the header cannot be read at all). *)
Lemma v2_rejects_foreign_signature f :
  Signature (Header.of_bytes (read_bytes f SECTOR_SIZE Header.size))
    <> Header.GPT_SIGNATURE ->
  stops V2.main f /\ writes V2.main f = [] /\ disk_after V2.main f = f.
Proof.
  intros Hsig.
  destruct (v2_run_foreign_signature f Hsig) as (msg & w & Hrun & Hd & Hl).
  unfold stops, writes, disk_after. rewrite Hrun. cbn [fst snd].
  split; [exact I|]. split; assumption.
Qed.

(** C8, for variant 1.  Its decoding step is a plain [binary.Read] into the
    struct: on a disk whose sector 1 does not carry "EFI PART" the run
    succeeds and rewrites the table, both headers and the backup table. *)
Theorem v1_accepts_foreign_signature :
  Signature (Header.of_bytes (read_bytes unsigned_disk SECTOR_SIZE 512))
    <> Header.GPT_SIGNATURE
  /\ returns V1.main unsigned_disk v1_unsigned
  /\ w_off <$> writes V1.main unsigned_disk = [1024; 512; 31744; 32256]
  /\ stops V2.main unsigned_disk
  /\ writes V2.main unsigned_disk = [].
Proof.
  split; [vm_compute; congruence|].
  split; [exact unsigned_v1|].
  split; [vm_compute; reflexivity|].
  split; [vm_compute; exact I|].
  vm_compute. reflexivity.
Qed.

(** ** The order of the writes *)

(** C9, as the code has it.  A successful run of variant 1 writes the
    primary entry array, then the primary header at sector 1, then the
    backup entry array, then the backup header.  A successful run of
    variant 2 writes the primary header at sector 1, then the 128 primary
    entries, then the backup header, then the 128 backup entries. *)
Theorem write_order_per_variant :
  (forall f o,
     returns V1.main f o ->
     writes V1.main f =
     [ mkWr (lba_offset (PartitionTableLBA (V1.o_primary o))) (V1.o_table o);
       mkWr SECTOR_SIZE (V1.header_bytes (V1.o_primary o));
       mkWr (lba_offset (PartitionTableLBA (V1.o_backup o))) (V1.o_table o);
       mkWr (lba_offset (CurrentLBA (V1.o_backup o)))
            (V1.header_bytes (V1.o_backup o)) ])
  /\
  (forall f o,
     returns V2.main f o ->
     writes V2.main f =
     mkWr SECTOR_SIZE (Header.encode (V2.o_primary o))
     :: V2Main.part_writes (lba_offset (PartitionTableLBA (V2.o_primary o)))
          (V2.o_partitions o)
     ++ mkWr (lba_offset (CurrentLBA (V2.o_backup o))) (Header.encode (V2.o_backup o))
     :: V2Main.part_writes (lba_offset (PartitionTableLBA (V2.o_backup o)))
          (V2.o_partitions o)).
Proof.
  split; intros f o Hret.
  - destruct (V1Main.v1_main_ok f o Hret) as (_ & _ & _ & Hp & Hb & Hw).
    rewrite Hw, Hb, Hp. fields. reflexivity.
  - destruct (V2Main.v2_main_ok f o Hret) as (ps & _ & _ & _ & _ & _ & _ & Hw).
    exact Hw.
Qed.

Lemma write_order_per_variant_witness :
  (returns V1.main small v1_small
   /\ w_off <$> writes V1.main small = [1024; 512; 15872; 32256])
  /\
  (returns V2.main small v2_small
   /\ w_off <$> take 2 (writes V2.main small) = [512; 1024]
   /\ w_off <$> take 2 (drop 129 (writes V2.main small)) = [32256; 15360]).
Proof.
  pose proof small_v1 as H1. pose proof small_v2 as H2.
  split.
  - split; [exact H1|].
    rewrite (proj1 write_order_per_variant small v1_small H1).
    vm_compute. reflexivity.
  - split; [exact H2|].
    rewrite (proj2 write_order_per_variant small v2_small H2).
    split; vm_compute; reflexivity.
Defined.

(** C9 does not hold as stated: in a successful run of variant 1 the first
    write goes to the entry array at sector 2 and only the second one to
    the header at sector 1; in a successful run of variant 2 the backup
    header (sector 63) is written before the backup entries (from sector
    30 on). *)
Lemma write_order_counterexample :
  returns V1.main small v1_small
  /\ w_off <$> writes V1.main small = [2 * 512; 1 * 512; 31 * 512; 63 * 512]
  /\ returns V2.main small v2_small
  /\ w_off <$> take 2 (writes V2.main small) = [1 * 512; 2 * 512]
  /\ w_off <$> take 2 (drop 129 (writes V2.main small)) = [63 * 512; 30 * 512]
  /\ length (writes V2.main small) = 258%nat.
Proof.
  split; [exact small_v1|]. split; [vm_compute; reflexivity|].
  split; [exact small_v2|]. repeat split; vm_compute; reflexivity.
Qed.

(** * Further properties of the codec, the loops and the tools *)

(** ** Round trips of the two record layouts *)

Module Codec.

Lemma field_length (b : list byte) off n :
  (off + n <= length b)%nat -> length (field b off n) = n.
Proof. intros H. unfold field. rewrite length_take, length_drop. lia. Qed.

Lemma field_glue (b : list byte) off n off' m k :
  off' = (off + n)%nat -> k = (n + m)%nat ->
  field b off n ++ field b off' m = field b off k.
Proof.
  intros -> ->. unfold field. rewrite <- drop_drop. apply take_take_drop.
Qed.

Lemma le_encode_field (b : list byte) off n :
  (off + n <= length b)%nat -> le_encode n (le_decode (field b off n)) = field b off n.
Proof.
  intros H. rewrite <- (field_length b off n H) at 1. apply le_encode_decode.
Qed.

Lemma field_head (x rest : list byte) n :
  length x = n -> field (x ++ rest) 0 n = x.
Proof. intros <-. unfold field. rewrite drop_0. apply take_app_length. Qed.

Lemma field_skip (x rest : list byte) o off n k :
  length x = k -> o = (k + off)%nat -> field (x ++ rest) o n = field rest off n.
Proof.
  intros <- ->. unfold field. rewrite drop_app_add. reflexivity.
Qed.

Lemma le_decode_encode_u32 v : is_u32 v -> le_decode (le_encode 4 v) = v.
Proof.
  intros H. rewrite le_decode_encode. apply Z.mod_small. exact H.
Qed.

Lemma le_decode_encode_u64 v : is_u64 v -> le_decode (le_encode 8 v) = v.
Proof.
  intros H. rewrite le_decode_encode. apply Z.mod_small. exact H.
Qed.

Lemma field_u64 b off : is_u64 (le_decode (field b off 8)).
Proof.
  unfold is_u64, field.
  pose proof (le_decode_range (take 8 (drop off b))) as H.
  assert (Hl : (length (take 8 (drop off b)) <= 8)%nat) by (rewrite length_take; lia).
  assert (256 ^ Z.of_nat (length (take 8 (drop off b))) <= 256 ^ 8)
    by (apply Z.pow_le_mono_r; lia).
  change (2 ^ 64) with (256 ^ 8). lia.
Qed.

(** Re-encoding a decoded header gives back the 92 bytes it was read from. *)
Lemma header_encode_of_bytes b :
  (Header.size <= length b)%nat -> Header.encode (Header.of_bytes b) = take Header.size b.
Proof.
  unfold Header.size. intros H. unfold Header.encode, Header.of_bytes.
  cbn [Signature Revision HeaderSize HeaderCRC32 Reserved CurrentLBA BackupLBA
       FirstUsableLBA LastUsableLBA DiskGUID PartitionTableLBA NumPartitions
       PartitionEntrySize PartitionTableCRC].
  rewrite !le_encode_field by lia.
  rewrite (field_glue b 84 4 88 4 8 eq_refl eq_refl),
    (field_glue b 80 4 84 8 12 eq_refl eq_refl),
    (field_glue b 72 8 80 12 20 eq_refl eq_refl),
    (field_glue b 56 16 72 20 36 eq_refl eq_refl),
    (field_glue b 48 8 56 36 44 eq_refl eq_refl),
    (field_glue b 40 8 48 44 52 eq_refl eq_refl),
    (field_glue b 32 8 40 52 60 eq_refl eq_refl),
    (field_glue b 24 8 32 60 68 eq_refl eq_refl),
    (field_glue b 20 4 24 68 72 eq_refl eq_refl),
    (field_glue b 16 4 20 72 76 eq_refl eq_refl),
    (field_glue b 12 4 16 76 80 eq_refl eq_refl),
    (field_glue b 8 4 12 80 84 eq_refl eq_refl),
    (field_glue b 0 8 8 84 92 eq_refl eq_refl).
  unfold field. rewrite drop_0. reflexivity.
Qed.

(** Every decoded header is well-formed. *)
Lemma header_of_bytes_wf b : (Header.size <= length b)%nat -> Header.wf (Header.of_bytes b).
Proof.
  unfold Header.size. intros H.
  constructor; cbn; try apply TableCRC.field_u32; try apply field_u64;
    apply field_length; lia.
Qed.

(** Decoding the serialisation of a well-formed header gives it back. *)
Lemma header_of_bytes_encode h : Header.wf h -> Header.of_bytes (Header.encode h) = h.
Proof.
  intros [Hs Hg H1 H2 H3 H4 H5 H6 H7 H8 H9 H10 H11 H12].
  destruct h as [sig rev hs crc res cur bak fst lst guid ptl num esz pcrc].
  cbn [Signature Revision HeaderSize HeaderCRC32 Reserved CurrentLBA BackupLBA
       FirstUsableLBA LastUsableLBA DiskGUID PartitionTableLBA NumPartitions
       PartitionEntrySize PartitionTableCRC] in *.
  unfold Header.of_bytes, Header.encode.
  cbn [Signature Revision HeaderSize HeaderCRC32 Reserved CurrentLBA BackupLBA
       FirstUsableLBA LastUsableLBA DiskGUID PartitionTableLBA NumPartitions
       PartitionEntrySize PartitionTableCRC].
  set (e_rev := le_encode 4 rev). set (e_hs := le_encode 4 hs).
  set (e_crc := le_encode 4 crc). set (e_res := le_encode 4 res).
  set (e_cur := le_encode 8 cur). set (e_bak := le_encode 8 bak).
  set (e_fst := le_encode 8 fst). set (e_lst := le_encode 8 lst).
  set (e_ptl := le_encode 8 ptl). set (e_num := le_encode 4 num).
  set (e_esz := le_encode 4 esz). set (e_pcrc := le_encode 4 pcrc).
  assert (L4 : forall v, length (le_encode 4 v) = 4%nat) by (intros; apply le_encode_length).
  assert (L8 : forall v, length (le_encode 8 v) = 8%nat) by (intros; apply le_encode_length).
  rewrite (field_head sig _ 8 Hs).
  rewrite (field_skip sig _ 8 0 4 8 Hs eq_refl),
    (field_head e_rev _ 4 (L4 _)).
  rewrite (field_skip sig _ 12 4 4 8 Hs eq_refl),
    (field_skip e_rev _ 4 0 4 4 (L4 _) eq_refl),
    (field_head e_hs _ 4 (L4 _)).
  rewrite (field_skip sig _ 16 8 4 8 Hs eq_refl),
    (field_skip e_rev _ 8 4 4 4 (L4 _) eq_refl),
    (field_skip e_hs _ 4 0 4 4 (L4 _) eq_refl),
    (field_head e_crc _ 4 (L4 _)).
  rewrite (field_skip sig _ 20 12 4 8 Hs eq_refl),
    (field_skip e_rev _ 12 8 4 4 (L4 _) eq_refl),
    (field_skip e_hs _ 8 4 4 4 (L4 _) eq_refl),
    (field_skip e_crc _ 4 0 4 4 (L4 _) eq_refl),
    (field_head e_res _ 4 (L4 _)).
  rewrite (field_skip sig _ 24 16 8 8 Hs eq_refl),
    (field_skip e_rev _ 16 12 8 4 (L4 _) eq_refl),
    (field_skip e_hs _ 12 8 8 4 (L4 _) eq_refl),
    (field_skip e_crc _ 8 4 8 4 (L4 _) eq_refl),
    (field_skip e_res _ 4 0 8 4 (L4 _) eq_refl),
    (field_head e_cur _ 8 (L8 _)).
  rewrite (field_skip sig _ 32 24 8 8 Hs eq_refl),
    (field_skip e_rev _ 24 20 8 4 (L4 _) eq_refl),
    (field_skip e_hs _ 20 16 8 4 (L4 _) eq_refl),
    (field_skip e_crc _ 16 12 8 4 (L4 _) eq_refl),
    (field_skip e_res _ 12 8 8 4 (L4 _) eq_refl),
    (field_skip e_cur _ 8 0 8 8 (L8 _) eq_refl),
    (field_head e_bak _ 8 (L8 _)).
  rewrite (field_skip sig _ 40 32 8 8 Hs eq_refl),
    (field_skip e_rev _ 32 28 8 4 (L4 _) eq_refl),
    (field_skip e_hs _ 28 24 8 4 (L4 _) eq_refl),
    (field_skip e_crc _ 24 20 8 4 (L4 _) eq_refl),
    (field_skip e_res _ 20 16 8 4 (L4 _) eq_refl),
    (field_skip e_cur _ 16 8 8 8 (L8 _) eq_refl),
    (field_skip e_bak _ 8 0 8 8 (L8 _) eq_refl),
    (field_head e_fst _ 8 (L8 _)).
  rewrite (field_skip sig _ 48 40 8 8 Hs eq_refl),
    (field_skip e_rev _ 40 36 8 4 (L4 _) eq_refl),
    (field_skip e_hs _ 36 32 8 4 (L4 _) eq_refl),
    (field_skip e_crc _ 32 28 8 4 (L4 _) eq_refl),
    (field_skip e_res _ 28 24 8 4 (L4 _) eq_refl),
    (field_skip e_cur _ 24 16 8 8 (L8 _) eq_refl),
    (field_skip e_bak _ 16 8 8 8 (L8 _) eq_refl),
    (field_skip e_fst _ 8 0 8 8 (L8 _) eq_refl),
    (field_head e_lst _ 8 (L8 _)).
  rewrite (field_skip sig _ 56 48 16 8 Hs eq_refl),
    (field_skip e_rev _ 48 44 16 4 (L4 _) eq_refl),
    (field_skip e_hs _ 44 40 16 4 (L4 _) eq_refl),
    (field_skip e_crc _ 40 36 16 4 (L4 _) eq_refl),
    (field_skip e_res _ 36 32 16 4 (L4 _) eq_refl),
    (field_skip e_cur _ 32 24 16 8 (L8 _) eq_refl),
    (field_skip e_bak _ 24 16 16 8 (L8 _) eq_refl),
    (field_skip e_fst _ 16 8 16 8 (L8 _) eq_refl),
    (field_skip e_lst _ 8 0 16 8 (L8 _) eq_refl),
    (field_head guid _ 16 Hg).
  rewrite (field_skip sig _ 72 64 8 8 Hs eq_refl),
    (field_skip e_rev _ 64 60 8 4 (L4 _) eq_refl),
    (field_skip e_hs _ 60 56 8 4 (L4 _) eq_refl),
    (field_skip e_crc _ 56 52 8 4 (L4 _) eq_refl),
    (field_skip e_res _ 52 48 8 4 (L4 _) eq_refl),
    (field_skip e_cur _ 48 40 8 8 (L8 _) eq_refl),
    (field_skip e_bak _ 40 32 8 8 (L8 _) eq_refl),
    (field_skip e_fst _ 32 24 8 8 (L8 _) eq_refl),
    (field_skip e_lst _ 24 16 8 8 (L8 _) eq_refl),
    (field_skip guid _ 16 0 8 16 Hg eq_refl),
    (field_head e_ptl _ 8 (L8 _)).
  rewrite (field_skip sig _ 80 72 4 8 Hs eq_refl),
    (field_skip e_rev _ 72 68 4 4 (L4 _) eq_refl),
    (field_skip e_hs _ 68 64 4 4 (L4 _) eq_refl),
    (field_skip e_crc _ 64 60 4 4 (L4 _) eq_refl),
    (field_skip e_res _ 60 56 4 4 (L4 _) eq_refl),
    (field_skip e_cur _ 56 48 4 8 (L8 _) eq_refl),
    (field_skip e_bak _ 48 40 4 8 (L8 _) eq_refl),
    (field_skip e_fst _ 40 32 4 8 (L8 _) eq_refl),
    (field_skip e_lst _ 32 24 4 8 (L8 _) eq_refl),
    (field_skip guid _ 24 8 4 16 Hg eq_refl),
    (field_skip e_ptl _ 8 0 4 8 (L8 _) eq_refl),
    (field_head e_num _ 4 (L4 _)).
  rewrite (field_skip sig _ 84 76 4 8 Hs eq_refl),
    (field_skip e_rev _ 76 72 4 4 (L4 _) eq_refl),
    (field_skip e_hs _ 72 68 4 4 (L4 _) eq_refl),
    (field_skip e_crc _ 68 64 4 4 (L4 _) eq_refl),
    (field_skip e_res _ 64 60 4 4 (L4 _) eq_refl),
    (field_skip e_cur _ 60 52 4 8 (L8 _) eq_refl),
    (field_skip e_bak _ 52 44 4 8 (L8 _) eq_refl),
    (field_skip e_fst _ 44 36 4 8 (L8 _) eq_refl),
    (field_skip e_lst _ 36 28 4 8 (L8 _) eq_refl),
    (field_skip guid _ 28 12 4 16 Hg eq_refl),
    (field_skip e_ptl _ 12 4 4 8 (L8 _) eq_refl),
    (field_skip e_num _ 4 0 4 4 (L4 _) eq_refl),
    (field_head e_esz _ 4 (L4 _)).
  rewrite (field_skip sig _ 88 80 4 8 Hs eq_refl),
    (field_skip e_rev _ 80 76 4 4 (L4 _) eq_refl),
    (field_skip e_hs _ 76 72 4 4 (L4 _) eq_refl),
    (field_skip e_crc _ 72 68 4 4 (L4 _) eq_refl),
    (field_skip e_res _ 68 64 4 4 (L4 _) eq_refl),
    (field_skip e_cur _ 64 56 4 8 (L8 _) eq_refl),
    (field_skip e_bak _ 56 48 4 8 (L8 _) eq_refl),
    (field_skip e_fst _ 48 40 4 8 (L8 _) eq_refl),
    (field_skip e_lst _ 40 32 4 8 (L8 _) eq_refl),
    (field_skip guid _ 32 16 4 16 Hg eq_refl),
    (field_skip e_ptl _ 16 8 4 8 (L8 _) eq_refl),
    (field_skip e_num _ 8 4 4 4 (L4 _) eq_refl),
    (field_skip e_esz _ 4 0 4 4 (L4 _) eq_refl).
  replace (field e_pcrc 0 4) with e_pcrc
    by (unfold field; rewrite drop_0, take_ge; [reflexivity|unfold e_pcrc; rewrite L4; lia]).
  unfold e_rev, e_hs, e_crc, e_res, e_cur, e_bak, e_fst, e_lst, e_ptl, e_num,
    e_esz, e_pcrc.
  rewrite !le_decode_encode_u32, !le_decode_encode_u64 by assumption.
  reflexivity.
Qed.

End Codec.

Module PartitionCodec.

Import Codec Partition.

(** Re-encoding a decoded slot gives back the 128 bytes it was read from. *)
Lemma partition_encode_of_bytes b :
  length b = Partition.size -> Partition.encode (Partition.of_bytes b) = b.
Proof.
  unfold Partition.size. intros H. unfold Partition.encode, Partition.of_bytes.
  cbn [TypeGUID PartitionGUID StartLBA EndLBA Attributes Name].
  rewrite !le_encode_field by lia.
  rewrite (field_glue b 48 8 56 72 80 eq_refl eq_refl),
    (field_glue b 40 8 48 80 88 eq_refl eq_refl),
    (field_glue b 32 8 40 88 96 eq_refl eq_refl),
    (field_glue b 16 16 32 96 112 eq_refl eq_refl),
    (field_glue b 0 16 16 112 128 eq_refl eq_refl).
  unfold field. rewrite drop_0. apply take_ge. lia.
Qed.

Lemma partition_of_bytes_wf b :
  length b = Partition.size -> Partition.wf (Partition.of_bytes b).
Proof.
  unfold Partition.size. intros H.
  constructor; cbn; try apply field_u64; apply field_length; lia.
Qed.

(** Decoding the serialisation of a well-formed slot gives it back. *)
Lemma partition_of_bytes_encode p :
  Partition.wf p -> Partition.of_bytes (Partition.encode p) = p.
Proof.
  intros [Ht Hg H1 H2 H3 Hn].
  destruct p as [ty gu s e a nm].
  cbn [TypeGUID PartitionGUID StartLBA EndLBA Attributes Name] in *.
  unfold Partition.of_bytes, Partition.encode.
  cbn [TypeGUID PartitionGUID StartLBA EndLBA Attributes Name].
  set (e_s := le_encode 8 s). set (e_e := le_encode 8 e). set (e_a := le_encode 8 a).
  assert (L8 : forall v, length (le_encode 8 v) = 8%nat) by (intros; apply le_encode_length).
  rewrite (field_head ty _ 16 Ht).
  rewrite (field_skip ty _ 16 0 16 16 Ht eq_refl),
    (field_head gu _ 16 Hg).
  rewrite (field_skip ty _ 32 16 8 16 Ht eq_refl),
    (field_skip gu _ 16 0 8 16 Hg eq_refl),
    (field_head e_s _ 8 (L8 _)).
  rewrite (field_skip ty _ 40 24 8 16 Ht eq_refl),
    (field_skip gu _ 24 8 8 16 Hg eq_refl),
    (field_skip e_s _ 8 0 8 8 (L8 _) eq_refl),
    (field_head e_e _ 8 (L8 _)).
  rewrite (field_skip ty _ 48 32 8 16 Ht eq_refl),
    (field_skip gu _ 32 16 8 16 Hg eq_refl),
    (field_skip e_s _ 16 8 8 8 (L8 _) eq_refl),
    (field_skip e_e _ 8 0 8 8 (L8 _) eq_refl),
    (field_head e_a _ 8 (L8 _)).
  rewrite (field_skip ty _ 56 40 72 16 Ht eq_refl),
    (field_skip gu _ 40 24 72 16 Hg eq_refl),
    (field_skip e_s _ 24 16 72 8 (L8 _) eq_refl),
    (field_skip e_e _ 16 8 72 8 (L8 _) eq_refl),
    (field_skip e_a _ 8 0 72 8 (L8 _) eq_refl).
  replace (field nm 0 72) with nm
    by (unfold field; rewrite drop_0, take_ge; [reflexivity|lia]).
  unfold e_s, e_e, e_a.
  rewrite !le_decode_encode_u64 by assumption.
  reflexivity.
Qed.

(** [relocate] keeps slots well-formed: the LBAs it stores are 64-bit values
    as long as the starting cursor is one. *)
Lemma visit_wf cur p : is_u64 cur -> Partition.wf p -> Partition.wf (V2Reloc.visit cur p).
Proof.
  intros Hc [Ht Hg H1 H2 H3 Hn]. unfold V2Reloc.visit.
  destruct (isZero (TypeGUID p)); [constructor; assumption|].
  constructor; cbn [set_lbas TypeGUID PartitionGUID StartLBA EndLBA Attributes Name];
    try assumption.
  unfold Pack.newEnd. apply u64_range.
Qed.

End PartitionCodec.

(** X1. [binary.Read] of a header fails exactly when fewer than 92 bytes are
    available; when it succeeds the struct is well-formed and serialising
    it gives back the 92 bytes that were read. *)
Theorem header_decode_then_encode (b : list byte) :
  ((length b < 92)%nat -> Header.decode b = None)
  /\ forall h, Header.decode b = Some h ->
       (92 <= length b)%nat /\ Header.wf h /\ Header.encode h = take 92 b.
Proof.
  unfold Header.decode, Header.size. split.
  - intros H. destruct (92 <=? length b)%nat eqn:E; [|reflexivity].
    apply Nat.leb_le in E. lia.
  - intros h. destruct (92 <=? length b)%nat eqn:E; [|discriminate].
    apply Nat.leb_le in E. intros [= <-].
    split; [exact E|]. split.
    + apply Codec.header_of_bytes_wf. exact E.
    + apply Codec.header_encode_of_bytes. exact E.
Qed.

Definition sample_sector : list byte :=
  Header.encode (header GPT_SIGNATURE 92 34 2 128 128) ++ zeros 420.

Lemma header_decode_then_encode_witness :
  Header.decode sample_sector = Some (header GPT_SIGNATURE 92 34 2 128 128)
  /\ Header.encode (header GPT_SIGNATURE 92 34 2 128 128) = take 92 sample_sector
  /\ Header.decode (take 91 sample_sector) = None.
Proof.
  assert (H : Header.decode sample_sector
              = Some (header GPT_SIGNATURE 92 34 2 128 128))
    by (vm_compute; reflexivity).
  split; [exact H|]. split.
  - exact (proj2 (proj2 (proj2 (header_decode_then_encode _) _ H))).
  - apply (proj1 (header_decode_then_encode (take 91 sample_sector))).
    vm_compute. lia.
Defined.

(** X2. Serialising a well-formed header gives 92 bytes from which
    [binary.Read] recovers the same struct. *)
Theorem header_encode_then_decode (h : GPTHeader) :
  Header.wf h ->
  length (Header.encode h) = 92%nat /\ Header.decode (Header.encode h) = Some h.
Proof.
  intros Hwf.
  assert (Hl : length (Header.encode h) = 92%nat).
  { destruct Hwf as [Hs Hg _ _ _ _ _ _ _ _ _ _ _ _]. unfold Header.encode.
    rewrite !length_app, !le_encode_length, Hs, Hg. reflexivity. }
  split; [exact Hl|].
  unfold Header.decode, Header.size. rewrite Hl. cbn.
  f_equal. apply Codec.header_of_bytes_encode, Hwf.
Qed.

Lemma sample_header_wf : Header.wf (header GPT_SIGNATURE 92 34 2 128 128).
Proof.
  constructor; cbn; try reflexivity; unfold is_u32, is_u64; lia.
Qed.

Lemma header_encode_then_decode_witness :
  Header.decode (Header.encode (header GPT_SIGNATURE 92 34 2 128 128))
  = Some (header GPT_SIGNATURE 92 34 2 128 128).
Proof.
  exact (proj2 (header_encode_then_decode _ sample_header_wf)).
Defined.

(** X3. A 128-byte slot decodes to a well-formed record whose serialisation
    is the same 128 bytes, and a well-formed record is recovered from its
    serialisation. *)
Theorem partition_round_trips :
  (forall b, length b = 128%nat ->
     Partition.wf (Partition.of_bytes b)
     /\ Partition.encode (Partition.of_bytes b) = b)
  /\ (forall p, Partition.wf p ->
        length (Partition.encode p) = 128%nat
        /\ Partition.of_bytes (Partition.encode p) = p).
Proof.
  split.
  - intros b Hb. split.
    + apply PartitionCodec.partition_of_bytes_wf, Hb.
    + apply PartitionCodec.partition_encode_of_bytes, Hb.
  - intros p Hp. split.
    + apply Partition.encode_length. destruct Hp. repeat split; assumption.
    + apply PartitionCodec.partition_of_bytes_encode, Hp.
Qed.

Lemma sample_entry_wf : Partition.wf (entry x01 40 49).
Proof.
  constructor; cbn; try reflexivity; unfold is_u64; lia.
Qed.

Lemma partition_round_trips_witness :
  Partition.encode (Partition.of_bytes (Partition.encode (entry x01 40 49)))
  = Partition.encode (entry x01 40 49)
  /\ Partition.of_bytes (Partition.encode (entry x01 40 49)) = entry x01 40 49.
Proof.
  split.
  - apply (proj1 partition_round_trips). vm_compute. reflexivity.
  - apply (proj2 partition_round_trips). exact sample_entry_wf.
Defined.

(** ** More on the shared cursor arithmetic *)

Module PackMore.

Import Pack.

Lemma u64_idem z : u64 (u64 z) = u64 z.
Proof. unfold u64. apply Z.mod_mod. lia. Qed.

Lemma newEnd_u64 cur s : u64 (newEnd cur s) = newEnd cur s.
Proof. unfold newEnd. apply u64_idem. Qed.

(** The slot as the loop leaves it: same emptiness flag, new LBAs. *)
Definition reslot (cur : Z) (s : slot) : slot :=
  {| skip := skip s; lo := fst (placed cur s); hi := snd (placed cur s) |}.

Fixpoint repack (ss : list slot) (cur : Z) : list slot :=
  match ss with
  | [] => []
  | s :: rest => reslot cur s :: repack rest (step cur s)
  end.

Lemma placed_reslot cur s : placed cur (reslot cur s) = placed cur s.
Proof.
  unfold reslot, placed. cbn [skip lo hi].
  destruct (skip s) eqn:E; cbn [fst snd]; [reflexivity|].
  f_equal. rewrite newEnd_eq. cbn [lo hi].
  replace (cur + (newEnd cur s - cur)) with (newEnd cur s) by lia.
  apply newEnd_u64.
Qed.

Lemma step_reslot cur s : step cur (reslot cur s) = step cur s.
Proof.
  unfold step. pose proof (placed_reslot cur s) as H.
  unfold reslot, placed in *. cbn [skip lo hi] in *.
  destruct (skip s); [reflexivity|]. cbn [fst snd] in *.
  injection H as H. rewrite H. reflexivity.
Qed.

(** Packing a packed table changes nothing. *)
Lemma pack_repack ss cur : pack (repack ss cur) cur = pack ss cur.
Proof.
  revert cur. induction ss as [|s ss IH]; intros cur; [reflexivity|].
  cbn [repack]. rewrite !pack_cons, placed_reslot, step_reslot, IH. reflexivity.
Qed.

Lemma repack_lookup ss cur i s :
  ss !! i = Some s ->
  repack ss cur !! i = Some (reslot (snd (pack (take i ss) cur)) s).
Proof.
  revert cur i. induction ss as [|t ss IH]; intros cur i H; [discriminate|].
  destruct i as [|i]; cbn [repack lookup list_lookup take] in *.
  - injection H as ->. reflexivity.
  - rewrite (IH _ _ H), pack_cons. reflexivity.
Qed.

Lemma repack_length ss cur : length (repack ss cur) = length ss.
Proof.
  revert cur. induction ss as [|s ss IH]; intros cur; [reflexivity|].
  cbn [repack length]. rewrite IH. reflexivity.
Qed.

Lemma extent_skipped ss :
  (forall k s, ss !! k = Some s -> skip s = true) -> extent ss = 0.
Proof.
  induction ss as [|s ss IH]; intros H; [reflexivity|].
  cbn [extent]. rewrite (H 0%nat s eq_refl), IH; [reflexivity|].
  intros k t Hk. apply (H (S k) t Hk).
Qed.

Lemma extent_between ss i j s :
  (i < j)%nat -> ss !! i = Some s ->
  (forall k t, (i < k < j)%nat -> ss !! k = Some t -> skip t = true) ->
  extent (take j ss) = extent (take (S i) ss).
Proof.
  intros Hij Hi Hgap.
  replace (take j ss) with (take (S i) ss ++ take (j - S i) (drop (S i) ss)).
  - rewrite extent_app, (extent_skipped (take (j - S i) (drop (S i) ss))); [lia|].
    intros k t Hk.
    assert (Hkj : (k < j - S i)%nat).
    { apply lookup_lt_Some in Hk. rewrite length_take in Hk. lia. }
    rewrite lookup_take_lt, lookup_drop in Hk by exact Hkj.
    apply (Hgap (S i + k)%nat t); [lia|exact Hk].
  - rewrite take_take_drop. f_equal. lia.
Qed.

(** Without wrap-around the occupied slots are packed without gaps: the
    first one starts at the base, and each next one starts right behind the
    previous one. *)
Lemma pack_first ss cur i s :
  Forall proper ss -> 0 <= cur -> cur + extent ss <= 2 ^ 64 ->
  ss !! i = Some s -> skip s = false ->
  (forall k t, (k < i)%nat -> ss !! k = Some t -> skip t = true) ->
  fst (pack ss cur) !! i = Some (cur, cur + (hi s - lo s)).
Proof.
  intros Hp Hc Hx Hi Hs Hgap.
  rewrite (pack_placed_exact _ _ _ _ Hp Hc Hx Hi Hs).
  rewrite (extent_skipped (take i ss)).
  - do 2 f_equal; lia.
  - intros k t Hk.
    assert (Hki : (k < i)%nat).
    { apply lookup_lt_Some in Hk. rewrite length_take in Hk. lia. }
    rewrite lookup_take_lt in Hk by exact Hki. apply (Hgap k t Hki Hk).
Qed.

Lemma pack_adjacent ss cur i j si sj ai bi :
  Forall proper ss -> 0 <= cur -> cur + extent ss <= 2 ^ 64 ->
  (i < j)%nat -> ss !! i = Some si -> ss !! j = Some sj ->
  skip si = false -> skip sj = false ->
  (forall k t, (i < k < j)%nat -> ss !! k = Some t -> skip t = true) ->
  fst (pack ss cur) !! i = Some (ai, bi) ->
  fst (pack ss cur) !! j = Some (bi + 1, bi + 1 + (hi sj - lo sj)).
Proof.
  intros Hp Hc Hx Hij Hi Hj Hsi Hsj Hgap.
  rewrite (pack_placed_exact _ _ _ _ Hp Hc Hx Hi Hsi).
  rewrite (pack_placed_exact _ _ _ _ Hp Hc Hx Hj Hsj).
  intros [= <- <-].
  rewrite (extent_between ss i j si Hij Hi Hgap), (extent_take_S _ _ _ Hi), Hsi.
  do 2 f_equal; lia.
Qed.

End PackMore.

(** ** Variant 2's loop: idempotence, untouched fields, gap-free packing *)

Module V2More.

Import Partition Pack PackMore V2Reloc.

Lemma set_lbas_set_lbas a b c d p : set_lbas a b (set_lbas c d p) = set_lbas a b p.
Proof. reflexivity. Qed.

Lemma visit_visit cur p : visit cur (visit cur p) = visit cur p.
Proof.
  unfold visit. destruct (isZero (TypeGUID p)) eqn:E; rewrite ?E; [reflexivity|].
  cbn [set_lbas TypeGUID]. rewrite E, set_lbas_set_lbas. f_equal.
  rewrite newEnd_eq. cbn [slot_of set_lbas StartLBA EndLBA lo hi].
  replace (cur + (newEnd cur (slot_of p) - cur)) with (newEnd cur (slot_of p)) by lia.
  apply newEnd_u64.
Qed.

Lemma step_visit cur p : step cur (slot_of (visit cur p)) = step cur (slot_of p).
Proof.
  unfold visit, step. cbn [slot_of skip].
  destruct (isZero (TypeGUID p)) eqn:E; rewrite ?E; [reflexivity|].
  cbn [set_lbas TypeGUID]. rewrite E. f_equal. f_equal.
  rewrite !newEnd_eq. cbn [slot_of set_lbas StartLBA EndLBA lo hi].
  replace (cur + (u64 (cur + (EndLBA p - StartLBA p)) - cur))
    with (u64 (cur + (EndLBA p - StartLBA p))) by lia.
  apply u64_idem.
Qed.

Lemma relocate_relocate ps cur :
  V2.relocate (fst (V2.relocate ps cur)) cur = V2.relocate ps cur.
Proof.
  revert cur. induction ps as [|p ps IH]; intros cur; [reflexivity|].
  rewrite (relocate_cons p ps cur). cbn [fst].
  rewrite relocate_cons, visit_visit, step_visit, IH. reflexivity.
Qed.

Lemma visit_frame cur p :
  TypeGUID (visit cur p) = TypeGUID p
  /\ PartitionGUID (visit cur p) = PartitionGUID p
  /\ Attributes (visit cur p) = Attributes p
  /\ Name (visit cur p) = Name p.
Proof.
  unfold visit. destruct (isZero (TypeGUID p)); repeat split; reflexivity.
Qed.

End V2More.

(** ** Variant 1's loop: idempotence and untouched bytes *)

Module V1More.

Import Pack PackMore V1Reloc Layout.

Lemma window_of_get64 (b : list byte) o :
  0 <= o -> o + 8 <= Z.of_nat (length b) ->
  take 8 (drop (Z.to_nat o) b) = le_encode 8 (get64 b o).
Proof.
  intros H0 H. unfold get64.
  assert (Hl : length (take 8 (drop (Z.to_nat o) b)) = 8%nat)
    by (rewrite length_take, length_drop; lia).
  rewrite <- Hl at 2. symmetry. apply le_encode_decode.
Qed.

Lemma get64_same_bytes (b1 b2 : list byte) o (z : nat) :
  0 <= o -> o + 8 <= Z.of_nat (length b1) -> o + 8 <= Z.of_nat (length b2) ->
  get64 b1 o = get64 b2 o -> o <= Z.of_nat z < o + 8 ->
  b1 !! z = b2 !! z.
Proof.
  intros H0 H1 H2 Hg Hz.
  assert (Hw : take 8 (drop (Z.to_nat o) b1) = take 8 (drop (Z.to_nat o) b2))
    by (rewrite !window_of_get64, Hg by assumption; reflexivity).
  assert (Hk : forall b : list byte,
             b !! z = take 8 (drop (Z.to_nat o) b) !! (z - Z.to_nat o)%nat).
  { intros b. rewrite lookup_take_lt, lookup_drop by lia. f_equal. lia. }
  rewrite (Hk b1), (Hk b2), Hw. reflexivity.
Qed.

(** After the loop every slot reads as the shared arithmetic left it, and
    an occupied slot stays occupied when the base is positive and the
    cursor did not wrap. *)
Lemma slots_after es (n : nat) buf cur buf1 :
  0 < cur -> v1_proper es n buf -> cur + v1_sectors es n buf <= 2 ^ 64 ->
  (forall j : nat, (j < n)%nat ->
     fst (pack (slots es (Z.of_nat n) buf) cur) !! j
     = Some (span_at es buf1 (Z.of_nat j))) ->
  slots es (Z.of_nat n) buf1 = repack (slots es (Z.of_nat n) buf) cur.
Proof.
  intros Hc Hp Hx Hsp.
  pose proof (v1_proper_slots es n buf Hp) as Hps.
  apply list_eq. intros j.
  destruct (decide (j < n)%nat) as [Hj|Hj].
  - rewrite (slots_lookup es n j buf1 Hj).
    pose proof (slots_lookup es n j buf Hj) as Hs.
    rewrite (repack_lookup _ _ _ _ Hs). f_equal.
    specialize (Hsp j Hj).
    destruct (skip (slot_at es buf (Z.of_nat j))) eqn:Hsk.
    + rewrite (pack_lookup _ _ _ _ Hs) in Hsp. unfold placed, span_at in Hsp.
      rewrite Hsk in Hsp. injection Hsp as Ha Hb.
      unfold reslot, placed. rewrite Hsk. cbn [fst snd].
      unfold slot_at in *. cbn [lo hi skip] in *.
      rewrite <- Ha, <- Hb. rewrite Hsk. reflexivity.
    + pose proof Hsp as Hsp'.
      rewrite (pack_placed_exact _ cur _ _ Hps (Z.lt_le_incl _ _ Hc) Hx Hs Hsk) in Hsp'.
      rewrite (pack_lookup _ _ _ _ Hs) in Hsp. unfold placed, span_at in Hsp.
      rewrite Hsk in Hsp. injection Hsp as Ha Hb.
      unfold reslot, placed. rewrite Hsk. cbn [fst snd].
      unfold span_at in Hsp'. injection Hsp' as Ha' Hb'.
      pose proof (extent_nonneg (take j (slots es (Z.of_nat n) buf))
                    ltac:(apply Forall_take, Hps)) as Hnn.
      pose proof (Forall_lookup_1 _ _ _ _ Hps Hs Hsk) as (Hlo & Hle & Hhi).
      cbn [slot_at lo hi] in Hlo, Hle, Hhi.
      unfold slot_at at 1.
      rewrite <- Ha, <- Hb.
      assert (Hne : (newEnd (snd (pack (take j (slots es (Z.of_nat n) buf)) cur))
                        (slot_at es buf (Z.of_nat j)) =? 0) = false).
      { apply Z.eqb_neq. rewrite Hb, <- Hb'. lia. }
      assert (Hns : (snd (pack (take j (slots es (Z.of_nat n) buf)) cur) =? 0) = false).
      { apply Z.eqb_neq. rewrite Ha, <- Ha'. lia. }
      rewrite Hne, Hns. reflexivity.
  - rewrite !lookup_ge_None_2; [reflexivity| |].
    + rewrite repack_length. unfold slots. rewrite length_fmap, length_seqZ. lia.
    + unfold slots. rewrite length_fmap, length_seqZ. lia.
Qed.

Lemma realign_idempotent es (n : nat) buf cur buf1 c1 :
  48 <= es -> is_u64 cur -> 0 < cur ->
  Z.of_nat n * es <= Z.of_nat (length buf) ->
  v1_proper es n buf -> cur + v1_sectors es n buf <= 2 ^ 64 ->
  V1.realign n 0 es buf cur = Some (buf1, c1) ->
  V1.realign n 0 es buf1 cur = Some (buf1, c1).
Proof.
  intros Hes Hu Hc Hlen Hp Hx Hrun.
  destruct (realign_all es n buf cur Hes Hu Hlen) as (b1 & Hrun1 & Hl1 & Hsp1 & _).
  rewrite Hrun in Hrun1. injection Hrun1 as <- ->.
  pose proof (slots_after es n buf cur buf1 Hc Hp Hx Hsp1) as Hslots.
  destruct (realign_all es n buf1 cur Hes Hu) as (b2 & Hrun2 & Hl2 & Hsp2 & Hfr2);
    [rewrite Hl1; exact Hlen|].
  rewrite Hslots, pack_repack in Hrun2, Hsp2.
  rewrite Hrun2. f_equal. f_equal.
  apply list_eq. intros z.
  set (j := Z.of_nat z / es).
  assert (Hjz : j * es <= Z.of_nat z < (j + 1) * es).
  { unfold j. pose proof (Z.div_mod (Z.of_nat z) es ltac:(lia)) as Hd.
    pose proof (Z.mod_pos_bound (Z.of_nat z) es ltac:(lia)). nia. }
  assert (Hj0 : 0 <= j) by (unfold j; apply Z.div_pos; lia).
  destruct (decide (j < Z.of_nat n /\ j * es + 32 <= Z.of_nat z < j * es + 48))
    as [[Hjn Hin]|Hout].
  - assert (Hjn' : (Z.to_nat j < n)%nat) by lia.
    pose proof (Hsp1 _ Hjn') as E1. pose proof (Hsp2 _ Hjn') as E2.
    rewrite E1 in E2. injection E2 as Ea Eb.
    rewrite Z2Nat.id in Ea, Eb by lia.
    destruct (decide (Z.of_nat z < j * es + 40)).
    + apply (get64_same_bytes b2 buf1 (j * es + 32));
        first [ lia | nia | rewrite Hl2; nia ].
    + apply (get64_same_bytes b2 buf1 (j * es + 40));
        first [ lia | nia | rewrite Hl2; nia ].
  - apply Hfr2. intros k Hk _.
    destruct (decide (Z.of_nat z < Z.of_nat k * es + 32)) as [|Hge]; [left; assumption|].
    destruct (decide (Z.of_nat k * es + 48 <= Z.of_nat z)) as [|Hlt]; [right; assumption|].
    exfalso. apply Hout.
    assert (Hkj : j = Z.of_nat k) by nia.
    rewrite Hkj. split; lia.
Qed.

(** The bytes of an entry in front of and behind its two LBA fields. *)
Lemma realign_keeps_other_fields es (n : nat) buf cur buf1 c1 (j : nat) :
  48 <= es -> is_u64 cur -> Z.of_nat n * es <= Z.of_nat (length buf) ->
  V1.realign n 0 es buf cur = Some (buf1, c1) -> (j < n)%nat ->
  length buf1 = length buf
  /\ take 32 (drop (Z.to_nat (Z.of_nat j * es)) buf1)
     = take 32 (drop (Z.to_nat (Z.of_nat j * es)) buf)
  /\ take (Z.to_nat (es - 48)) (drop (Z.to_nat (Z.of_nat j * es + 48)) buf1)
     = take (Z.to_nat (es - 48)) (drop (Z.to_nat (Z.of_nat j * es + 48)) buf)
  /\ drop (Z.to_nat (Z.of_nat n * es)) buf1 = drop (Z.to_nat (Z.of_nat n * es)) buf.
Proof.
  intros Hes Hu Hlen Hrun Hj.
  destruct (realign_all es n buf cur Hes Hu Hlen) as (b1 & Hrun1 & Hl1 & _ & Hfr).
  rewrite Hrun in Hrun1. injection Hrun1 as <- _.
  assert (H0 : 0 <= Z.of_nat j * es) by nia.
  assert (Hn0 : 0 <= Z.of_nat n * es) by nia.
  split; [exact Hl1|]. split; [|split].
  - apply window_ext. intros z Hz. apply Hfr. intros k Hk _.
    destruct (decide (k <= j)%nat); [|left; nia].
    destruct (decide (k = j)); [left; subst; lia|right; nia].
  - apply window_ext. intros z Hz. apply Hfr. intros k Hk _.
    destruct (decide (k <= j)%nat); [right; nia|left; nia].
  - apply list_eq. intros z. rewrite !lookup_drop. apply Hfr. intros k Hk _.
    right. nia.
Qed.

End V1More.

(** ** Gap-free packing in both variants *)

Module Packing.

Import Partition Pack PackMore V1Reloc V2Reloc Layout.

Lemma v2_span_lookup ps cur i p :
  ps !! i = Some p ->
  exists p', fst (V2.relocate ps cur) !! i = Some p'
    /\ fst (pack (slot_of <$> ps) cur) !! i = Some (StartLBA p', EndLBA p').
Proof.
  intros Hi. pose proof (relocate_lookup ps cur i p Hi) as Hi'.
  eexists. split; [exact Hi'|].
  rewrite <- relocate_spans, list_lookup_fmap, Hi'. reflexivity.
Qed.

Lemma v2_gap_skipped (ps : list GPTPartition) (P : nat -> Prop) :
  (forall k t, P k -> ps !! k = Some t -> isZero (TypeGUID t) = true) ->
  forall k s, P k -> (slot_of <$> ps) !! k = Some s -> skip s = true.
Proof.
  intros H k s Hk Hs. rewrite list_lookup_fmap in Hs.
  destruct (ps !! k) as [t|] eqn:Et; [|discriminate].
  injection Hs as <-. exact (H k t Hk Et).
Qed.

Lemma v2_first ps cur j pj :
  v2_proper ps -> 0 <= cur -> cur + v2_sectors ps <= 2 ^ 64 ->
  ps !! j = Some pj -> isZero (TypeGUID pj) = false ->
  (forall k t, (k < j)%nat -> ps !! k = Some t -> isZero (TypeGUID t) = true) ->
  exists pj', fst (V2.relocate ps cur) !! j = Some pj'
    /\ StartLBA pj' = cur /\ EndLBA pj' = cur + (EndLBA pj - StartLBA pj).
Proof.
  intros Hp Hc Hx Hj Hzj Hgap.
  destruct (v2_span_lookup ps cur j pj Hj) as (pj' & Hj' & Hs).
  exists pj'. split; [exact Hj'|].
  rewrite (pack_first (slot_of <$> ps) cur j (slot_of pj)) in Hs.
  - injection Hs as <- <-. split; reflexivity.
  - apply v2_proper_slots, Hp.
  - exact Hc.
  - exact Hx.
  - rewrite list_lookup_fmap, Hj. reflexivity.
  - exact Hzj.
  - apply (v2_gap_skipped ps (fun k => (k < j)%nat) Hgap).
Qed.

Lemma v2_adjacent ps cur i j pi pj :
  v2_proper ps -> 0 <= cur -> cur + v2_sectors ps <= 2 ^ 64 ->
  (i < j)%nat -> ps !! i = Some pi -> ps !! j = Some pj ->
  isZero (TypeGUID pi) = false -> isZero (TypeGUID pj) = false ->
  (forall k t, (i < k < j)%nat -> ps !! k = Some t -> isZero (TypeGUID t) = true) ->
  exists pi' pj',
    fst (V2.relocate ps cur) !! i = Some pi'
    /\ fst (V2.relocate ps cur) !! j = Some pj'
    /\ StartLBA pj' = EndLBA pi' + 1
    /\ EndLBA pj' = StartLBA pj' + (EndLBA pj - StartLBA pj).
Proof.
  intros Hp Hc Hx Hij Hi Hj Hzi Hzj Hgap.
  destruct (v2_span_lookup ps cur i pi Hi) as (pi' & Hi' & Hsi).
  destruct (v2_span_lookup ps cur j pj Hj) as (pj' & Hj' & Hsj).
  exists pi', pj'. split; [exact Hi'|]. split; [exact Hj'|].
  rewrite (pack_adjacent (slot_of <$> ps) cur i j (slot_of pi) (slot_of pj)
             (StartLBA pi') (EndLBA pi')) in Hsj.
  - injection Hsj as <- <-. split; reflexivity.
  - apply v2_proper_slots, Hp.
  - exact Hc.
  - exact Hx.
  - exact Hij.
  - rewrite list_lookup_fmap, Hi. reflexivity.
  - rewrite list_lookup_fmap, Hj. reflexivity.
  - exact Hzi.
  - exact Hzj.
  - apply (v2_gap_skipped ps (fun k => (i < k < j)%nat) Hgap).
  - exact Hsi.
Qed.

(** Variant 1's emptiness test on the raw table. *)
Definition v1_empty (es : Z) (buf : list byte) (k : nat) : Prop :=
  get64 buf (Z.of_nat k * es + 32) = 0 \/ get64 buf (Z.of_nat k * es + 40) = 0.

Lemma v1_occupied es buf (k : nat) :
  get64 buf (Z.of_nat k * es + 32) <> 0 -> get64 buf (Z.of_nat k * es + 40) <> 0 ->
  skip (slot_at es buf (Z.of_nat k)) = false.
Proof.
  intros H1 H2. cbn [slot_at skip]. apply orb_false_intro; apply Z.eqb_neq; assumption.
Qed.

Lemma v1_gap_skipped es (n : nat) buf (P : nat -> Prop) :
  (forall k, P k -> (k < n)%nat -> v1_empty es buf k) ->
  forall k s, P k -> slots es (Z.of_nat n) buf !! k = Some s -> skip s = true.
Proof.
  intros H k s Hk Hs.
  assert (Hkn : (k < n)%nat).
  { apply lookup_lt_Some in Hs. unfold slots in Hs.
    rewrite length_fmap, length_seqZ in Hs. lia. }
  rewrite (slots_lookup es n k buf Hkn) in Hs. injection Hs as <-.
  cbn [slot_at skip]. apply orb_true_intro.
  destruct (H k Hk Hkn) as [E|E]; [right|left]; apply Z.eqb_eq; exact E.
Qed.

Lemma v1_first es (n : nat) buf cur (j : nat) :
  48 <= es -> is_u64 cur -> Z.of_nat n * es <= Z.of_nat (length buf) ->
  v1_proper es n buf -> cur + v1_sectors es n buf <= 2 ^ 64 ->
  (j < n)%nat ->
  get64 buf (Z.of_nat j * es + 32) <> 0 -> get64 buf (Z.of_nat j * es + 40) <> 0 ->
  (forall k, (k < j)%nat -> (k < n)%nat -> v1_empty es buf k) ->
  exists buf' cur',
    V1.realign n 0 es buf cur = Some (buf', cur')
    /\ get64 buf' (Z.of_nat j * es + 32) = cur
    /\ get64 buf' (Z.of_nat j * es + 40)
       = cur + (get64 buf (Z.of_nat j * es + 40) - get64 buf (Z.of_nat j * es + 32)).
Proof.
  intros Hes Hc Hlen Hp Hx Hj Hsj Hej Hgap.
  destruct (realign_all es n buf cur Hes Hc Hlen) as (buf' & Hrun & _ & Hsp & _).
  eexists buf', _. split; [exact Hrun|].
  pose proof (Hsp j Hj) as Hs.
  rewrite (pack_first (slots es (Z.of_nat n) buf) cur j (slot_at es buf (Z.of_nat j))) in Hs.
  - unfold span_at in Hs. injection Hs as <- <-. split; reflexivity.
  - apply v1_proper_slots, Hp.
  - unfold is_u64 in Hc. lia.
  - exact Hx.
  - apply slots_lookup, Hj.
  - apply v1_occupied; assumption.
  - apply (v1_gap_skipped es n buf (fun k => (k < j)%nat)). exact Hgap.
Qed.

Lemma v1_adjacent es (n : nat) buf cur (i j : nat) :
  48 <= es -> is_u64 cur -> Z.of_nat n * es <= Z.of_nat (length buf) ->
  v1_proper es n buf -> cur + v1_sectors es n buf <= 2 ^ 64 ->
  (i < j)%nat -> (j < n)%nat ->
  get64 buf (Z.of_nat i * es + 32) <> 0 -> get64 buf (Z.of_nat i * es + 40) <> 0 ->
  get64 buf (Z.of_nat j * es + 32) <> 0 -> get64 buf (Z.of_nat j * es + 40) <> 0 ->
  (forall k, (i < k < j)%nat -> (k < n)%nat -> v1_empty es buf k) ->
  exists buf' cur',
    V1.realign n 0 es buf cur = Some (buf', cur')
    /\ get64 buf' (Z.of_nat j * es + 32) = get64 buf' (Z.of_nat i * es + 40) + 1
    /\ get64 buf' (Z.of_nat j * es + 40)
       = get64 buf' (Z.of_nat j * es + 32)
         + (get64 buf (Z.of_nat j * es + 40) - get64 buf (Z.of_nat j * es + 32)).
Proof.
  intros Hes Hc Hlen Hp Hx Hij Hj Hsi Hei Hsj Hej Hgap.
  destruct (realign_all es n buf cur Hes Hc Hlen) as (buf' & Hrun & _ & Hsp & _).
  eexists buf', _. split; [exact Hrun|].
  assert (Hi : (i < n)%nat) by lia.
  pose proof (Hsp j Hj) as Hs.
  rewrite (pack_adjacent (slots es (Z.of_nat n) buf) cur i j
             (slot_at es buf (Z.of_nat i)) (slot_at es buf (Z.of_nat j))
             (get64 buf' (Z.of_nat i * es + 32)) (get64 buf' (Z.of_nat i * es + 40))) in Hs.
  - unfold span_at in Hs. injection Hs as Ha Hb. cbn [slot_at lo hi] in Hb.
    split; [symmetry; exact Ha|]. rewrite <- Hb, <- Ha. reflexivity.
  - apply v1_proper_slots, Hp.
  - unfold is_u64 in Hc. lia.
  - exact Hx.
  - exact Hij.
  - apply slots_lookup, Hi.
  - apply slots_lookup, Hj.
  - apply v1_occupied; assumption.
  - apply v1_occupied; assumption.
  - apply (v1_gap_skipped es n buf (fun k => (i < k < j)%nat)). exact Hgap.
  - exact (Hsp i Hi).
Qed.

End Packing.

(** X4. Variant 2's relocation loop is idempotent: run from the same base
    on the table it produced, it stores the same LBAs again and ends on the
    same cursor, for every table and every base. *)
Theorem v2_relocation_idempotent (ps : list Partition.GPTPartition) (cur : Z) :
  V2.relocate (fst (V2.relocate ps cur)) cur = V2.relocate ps cur.
Proof. apply V2More.relocate_relocate. Qed.

(** X5. Variant 1's relocation loop is idempotent on a table of proper
    ranges packed from a non-zero base without wrap-around: run again on the
    buffer it produced, it returns that buffer and the same cursor.  (With
    base 0 the first relocated entry would read as empty on the second
    run.) *)
Theorem v1_relocation_idempotent es (n : nat) buf cur buf1 c1 :
  48 <= es -> is_u64 cur -> 0 < cur ->
  Z.of_nat n * es <= Z.of_nat (length buf) ->
  Layout.v1_proper es n buf -> cur + Layout.v1_sectors es n buf <= 2 ^ 64 ->
  V1.realign n 0 es buf cur = Some (buf1, c1) ->
  V1.realign n 0 es buf1 cur = Some (buf1, c1).
Proof. apply V1More.realign_idempotent. Qed.

Definition table3_v1 : list byte * Z :=
  Eval vm_compute in
    match V1.realign 3 0 128 table3_bytes 34 with Some r => r | None => ([], 0) end.

Lemma table3_proper : Layout.v1_proper 128 3 table3_bytes.
Proof.
  intros [|[|[|j]]] Hj Hs He;
    first [ lia | exfalso; apply Hs; vm_compute; reflexivity | vm_compute; congruence ].
Qed.

Lemma v1_relocation_idempotent_witness :
  V1.realign 3 0 128 (fst table3_v1) 34 = Some table3_v1.
Proof.
  apply (v1_relocation_idempotent 128 3 table3_bytes 34 (fst table3_v1) (snd table3_v1)).
  - lia.
  - unfold is_u64. lia.
  - lia.
  - vm_compute. congruence.
  - exact table3_proper.
  - vm_compute. congruence.
  - vm_compute. reflexivity.
Defined.

(** X6. Variant 2's relocation loop keeps the number of slots and changes
    nothing but the two LBAs: type GUID, unique GUID, attributes and name of
    every slot are the ones read from the disk. *)
Theorem v2_relocation_keeps_identity (ps : list Partition.GPTPartition) cur i p :
  ps !! i = Some p ->
  length (fst (V2.relocate ps cur)) = length ps
  /\ exists p',
       fst (V2.relocate ps cur) !! i = Some p'
       /\ Partition.TypeGUID p' = Partition.TypeGUID p
       /\ Partition.PartitionGUID p' = Partition.PartitionGUID p
       /\ Partition.Attributes p' = Partition.Attributes p
       /\ Partition.Name p' = Partition.Name p.
Proof.
  intros Hi. split; [apply V2Reloc.relocate_length|].
  eexists. split; [apply V2Reloc.relocate_lookup, Hi|].
  apply V2More.visit_frame.
Qed.

Lemma v2_relocation_keeps_identity_witness :
  exists p',
    fst (V2.relocate table3 34) !! 2%nat = Some p'
    /\ Partition.TypeGUID p' = Partition.TypeGUID (entry x02 60 79)
    /\ Partition.PartitionGUID p' = Partition.PartitionGUID (entry x02 60 79)
    /\ Partition.Attributes p' = Partition.Attributes (entry x02 60 79)
    /\ Partition.Name p' = Partition.Name (entry x02 60 79).
Proof.
  exact (proj2 (v2_relocation_keeps_identity table3 34 2%nat (entry x02 60 79) eq_refl)).
Defined.

(** X7. Variant 1's relocation loop keeps the length of the table buffer
    and writes to bytes 32..47 of an entry only: the first 32 bytes of every
    entry (the two GUIDs), its bytes from 48 on (attributes and name) and
    whatever follows the last entry are left as read. *)
Theorem v1_relocation_keeps_identity es (n : nat) buf cur buf1 c1 (j : nat) :
  48 <= es -> is_u64 cur -> Z.of_nat n * es <= Z.of_nat (length buf) ->
  V1.realign n 0 es buf cur = Some (buf1, c1) -> (j < n)%nat ->
  length buf1 = length buf
  /\ take 32 (drop (Z.to_nat (Z.of_nat j * es)) buf1)
     = take 32 (drop (Z.to_nat (Z.of_nat j * es)) buf)
  /\ take (Z.to_nat (es - 48)) (drop (Z.to_nat (Z.of_nat j * es + 48)) buf1)
     = take (Z.to_nat (es - 48)) (drop (Z.to_nat (Z.of_nat j * es + 48)) buf)
  /\ drop (Z.to_nat (Z.of_nat n * es)) buf1 = drop (Z.to_nat (Z.of_nat n * es)) buf.
Proof. apply V1More.realign_keeps_other_fields. Qed.

Lemma v1_relocation_keeps_identity_witness :
  length (fst table3_v1) = length table3_bytes
  /\ take 32 (drop 256 (fst table3_v1)) = take 32 (drop 256 table3_bytes)
  /\ take 80 (drop 304 (fst table3_v1)) = take 80 (drop 304 table3_bytes).
Proof.
  destruct (v1_relocation_keeps_identity 128 3 table3_bytes 34
              (fst table3_v1) (snd table3_v1) 2) as (H1 & H2 & H3 & _).
  - lia.
  - unfold is_u64. lia.
  - vm_compute. congruence.
  - vm_compute. reflexivity.
  - lia.
  - split; [exact H1|]. split; [exact H2|exact H3].
Defined.

(** X8. Variant 2 packs without gaps when the cursor does not wrap (proper
    ranges, base plus the sizes of all occupied slots at most 2^64): the
    first occupied slot starts at the base, and every further occupied slot
    starts on the sector behind the end of the occupied slot before it;
    each keeps its length. *)
Theorem v2_relocation_packs_without_gaps (ps : list Partition.GPTPartition) cur :
  Layout.v2_proper ps -> 0 <= cur -> cur + Layout.v2_sectors ps <= 2 ^ 64 ->
  (forall j pj,
     ps !! j = Some pj -> isZero (Partition.TypeGUID pj) = false ->
     (forall k t, (k < j)%nat -> ps !! k = Some t ->
                  isZero (Partition.TypeGUID t) = true) ->
     exists pj',
       fst (V2.relocate ps cur) !! j = Some pj'
       /\ Partition.StartLBA pj' = cur
       /\ Partition.EndLBA pj' = cur + (Partition.EndLBA pj - Partition.StartLBA pj))
  /\ (forall i j pi pj,
        (i < j)%nat -> ps !! i = Some pi -> ps !! j = Some pj ->
        isZero (Partition.TypeGUID pi) = false ->
        isZero (Partition.TypeGUID pj) = false ->
        (forall k t, (i < k < j)%nat -> ps !! k = Some t ->
                     isZero (Partition.TypeGUID t) = true) ->
        exists pi' pj',
          fst (V2.relocate ps cur) !! i = Some pi'
          /\ fst (V2.relocate ps cur) !! j = Some pj'
          /\ Partition.StartLBA pj' = Partition.EndLBA pi' + 1
          /\ Partition.EndLBA pj'
             = Partition.StartLBA pj' + (Partition.EndLBA pj - Partition.StartLBA pj)).
Proof.
  intros Hp Hc Hx. split.
  - intros j pj. apply Packing.v2_first; assumption.
  - intros i j pi pj. apply Packing.v2_adjacent; assumption.
Qed.

Lemma table3_v2_proper : Layout.v2_proper table3.
Proof.
  repeat constructor; intros Hz; vm_compute in Hz; try discriminate;
    repeat split; vm_compute; congruence.
Qed.

Lemma v2_relocation_packs_without_gaps_witness :
  (exists pj', fst (V2.relocate table3 34) !! 0%nat = Some pj'
     /\ Partition.StartLBA pj' = 34 /\ Partition.EndLBA pj' = 34 + (49 - 40))
  /\ (exists pi' pj',
        fst (V2.relocate table3 34) !! 0%nat = Some pi'
        /\ fst (V2.relocate table3 34) !! 2%nat = Some pj'
        /\ Partition.StartLBA pj' = Partition.EndLBA pi' + 1
        /\ Partition.EndLBA pj' = Partition.StartLBA pj' + (79 - 60)).
Proof.
  assert (H0 : 0 <= 34) by lia.
  assert (Hx : 34 + Layout.v2_sectors table3 <= 2 ^ 64) by (vm_compute; congruence).
  destruct (v2_relocation_packs_without_gaps table3 34 table3_v2_proper H0 Hx)
    as [Hfirst Hnext].
  split.
  - apply (Hfirst 0%nat (entry x01 40 49) eq_refl eq_refl).
    intros k t Hk. lia.
  - apply (Hnext 0%nat 2%nat (entry x01 40 49) (entry x02 60 79));
      [lia|reflexivity|reflexivity|reflexivity|reflexivity|].
    intros [|[|k]] t Hk Ht; [lia| |lia].
    injection Ht as <-. reflexivity.
Defined.

(** X9. Variant 1 packs without gaps under the same conditions, on the raw
    table: the first entry with non-zero start and end LBA is moved to the
    base (the header's FirstUsableLBA in [main]), every further such entry
    starts on the sector behind the end of the one before it, and each keeps
    its length. *)
Theorem v1_relocation_packs_without_gaps es (n : nat) buf cur :
  48 <= es -> is_u64 cur -> Z.of_nat n * es <= Z.of_nat (length buf) ->
  Layout.v1_proper es n buf -> cur + Layout.v1_sectors es n buf <= 2 ^ 64 ->
  exists buf' cur',
    V1.realign n 0 es buf cur = Some (buf', cur')
    /\ (forall j : nat,
          (j < n)%nat ->
          V1Reloc.get64 buf (Z.of_nat j * es + 32) <> 0 ->
          V1Reloc.get64 buf (Z.of_nat j * es + 40) <> 0 ->
          (forall k, (k < j)%nat -> (k < n)%nat -> Packing.v1_empty es buf k) ->
          V1Reloc.get64 buf' (Z.of_nat j * es + 32) = cur
          /\ V1Reloc.get64 buf' (Z.of_nat j * es + 40)
             = cur + (V1Reloc.get64 buf (Z.of_nat j * es + 40)
                      - V1Reloc.get64 buf (Z.of_nat j * es + 32)))
    /\ (forall i j : nat,
          (i < j)%nat -> (j < n)%nat ->
          V1Reloc.get64 buf (Z.of_nat i * es + 32) <> 0 ->
          V1Reloc.get64 buf (Z.of_nat i * es + 40) <> 0 ->
          V1Reloc.get64 buf (Z.of_nat j * es + 32) <> 0 ->
          V1Reloc.get64 buf (Z.of_nat j * es + 40) <> 0 ->
          (forall k, (i < k < j)%nat -> (k < n)%nat -> Packing.v1_empty es buf k) ->
          V1Reloc.get64 buf' (Z.of_nat j * es + 32)
          = V1Reloc.get64 buf' (Z.of_nat i * es + 40) + 1
          /\ V1Reloc.get64 buf' (Z.of_nat j * es + 40)
             = V1Reloc.get64 buf' (Z.of_nat j * es + 32)
               + (V1Reloc.get64 buf (Z.of_nat j * es + 40)
                  - V1Reloc.get64 buf (Z.of_nat j * es + 32))).
Proof.
  intros Hes Hc Hlen Hp Hx.
  destruct (V1Reloc.realign_all es n buf cur Hes Hc Hlen) as (buf' & Hrun & _).
  eexists buf', _. split; [exact Hrun|]. split.
  - intros j Hj Hs He Hgap.
    destruct (Packing.v1_first es n buf cur j Hes Hc Hlen Hp Hx Hj Hs He Hgap)
      as (b & c & Hrun' & H).
    rewrite Hrun in Hrun'. injection Hrun' as <- _. exact H.
  - intros i j Hij Hj Hsi Hei Hsj Hej Hgap.
    destruct (Packing.v1_adjacent es n buf cur i j Hes Hc Hlen Hp Hx Hij Hj
                Hsi Hei Hsj Hej Hgap) as (b & c & Hrun' & H).
    rewrite Hrun in Hrun'. injection Hrun' as <- _. exact H.
Qed.

Lemma v1_relocation_packs_without_gaps_witness :
  exists buf' cur',
    V1.realign 3 0 128 table3_bytes 34 = Some (buf', cur')
    /\ V1Reloc.get64 buf' 32 = 34
    /\ V1Reloc.get64 buf' (256 + 32) = V1Reloc.get64 buf' 40 + 1.
Proof.
  destruct (v1_relocation_packs_without_gaps 128 3 table3_bytes 34)
    as (buf' & cur' & Hrun & Hfirst & Hnext).
  - lia.
  - unfold is_u64. lia.
  - vm_compute. congruence.
  - exact table3_proper.
  - vm_compute. congruence.
  - exists buf', cur'. split; [exact Hrun|]. split.
    + apply (Hfirst 0%nat); [lia|vm_compute; congruence|vm_compute; congruence|].
      intros k Hk. lia.
    + apply (Hnext 0%nat 2%nat);
        [lia|lia|vm_compute; congruence|vm_compute; congruence
        |vm_compute; congruence|vm_compute; congruence|].
      intros [|[|k]] Hk Hkn; [lia| |lia].
      left. vm_compute. reflexivity.
Defined.

(** ** The header checksum of the repair tools against the inspectors *)

Module Seal.

Import Header Inspect InspectFacts.

Lemma lxor_u32 a b : is_u32 a -> is_u32 b -> is_u32 (Z.lxor a b).
Proof.
  unfold is_u32. intros Ha Hb.
  assert (H0 : 0 <= Z.lxor a b) by (apply Z.lxor_nonneg; lia).
  split; [exact H0|].
  destruct (Z.eq_dec (Z.lxor a b) 0) as [E|E]; [rewrite E; lia|].
  apply Z.log2_lt_pow2; [lia|].
  pose proof (Z.log2_lxor a b ltac:(lia) ltac:(lia)) as Hl.
  assert (Hla : Z.log2 a < 32).
  { destruct (Z.eq_dec a 0) as [->|]; [cbn; lia|]. apply Z.log2_lt_pow2; lia. }
  assert (Hlb : Z.log2 b < 32).
  { destruct (Z.eq_dec b 0) as [->|]; [cbn; lia|]. apply Z.log2_lt_pow2; lia. }
  lia.
Qed.

Lemma shift1_u32 c : is_u32 c -> is_u32 (shift1 c).
Proof.
  intros Hc. unfold shift1.
  assert (Hs : is_u32 (Z.shiftr c 1)).
  { unfold is_u32 in *. rewrite Z.shiftr_div_pow2 by lia.
    change (2 ^ 1) with 2. split; [apply Z.div_pos; lia|].
    apply Z.div_lt_upper_bound; lia. }
  destruct (Z.testbit c 0); [|exact Hs].
  apply lxor_u32; [exact Hs|]. unfold is_u32, poly. lia.
Qed.

Lemma update_byte_u32 c b : is_u32 c -> is_u32 (update_byte c b).
Proof.
  intros Hc. unfold update_byte.
  assert (Hx : is_u32 (Z.lxor c (byte_to_Z b))).
  { apply lxor_u32; [exact Hc|]. pose proof (byte_to_Z_range b). unfold is_u32. lia. }
  cbn [Nat.iter nat_rect]. do 8 apply shift1_u32. exact Hx.
Qed.

Lemma update_u32 bs c : is_u32 c -> is_u32 (update c bs).
Proof.
  revert c. induction bs as [|b bs IH]; intros c Hc; [exact Hc|].
  cbn [update fold_left]. apply IH, update_byte_u32, Hc.
Qed.

(** The checksum is a 32-bit value. *)
Lemma crc_range bs : is_u32 (ChecksumIEEE bs).
Proof.
  unfold ChecksumIEEE. apply lxor_u32.
  - apply update_u32. unfold is_u32. lia.
  - unfold is_u32. lia.
Qed.

Lemma overwrite_app_l (a b : list byte) off src :
  0 <= off -> off + Z.of_nat (length src) <= Z.of_nat (length a) ->
  overwrite (a ++ b) off src = overwrite a off src ++ b.
Proof.
  intros H0 H. unfold overwrite.
  rewrite take_app_le, drop_app_le by lia.
  rewrite <- !app_assoc. reflexivity.
Qed.

(** Assigning the checksum field changes bytes 16..19 of the serialised
    struct and nothing else. *)
Lemma encode_set_crc h v :
  length (Signature h) = 8%nat ->
  Header.encode (set_HeaderCRC32 v h)
  = overwrite (Header.encode h) 16 (le_encode 4 v).
Proof.
  intros Hs. unfold Header.encode.
  cbn [set_HeaderCRC32 Signature Revision HeaderSize HeaderCRC32 Reserved
       CurrentLBA BackupLBA FirstUsableLBA LastUsableLBA DiskGUID
       PartitionTableLBA NumPartitions PartitionEntrySize PartitionTableCRC].
  set (tl := le_encode 4 (Reserved h) ++ _).
  set (pre := Signature h ++ le_encode 4 (Revision h) ++ le_encode 4 (HeaderSize h)).
  assert (Hpre : length pre = 16%nat).
  { unfold pre. rewrite !length_app, !le_encode_length, Hs. reflexivity. }
  replace (Signature h ++ le_encode 4 (Revision h) ++ le_encode 4 (HeaderSize h)
           ++ le_encode 4 v ++ tl)
    with (pre ++ le_encode 4 v ++ tl)
    by (unfold pre; rewrite <- !app_assoc; reflexivity).
  replace (Signature h ++ le_encode 4 (Revision h) ++ le_encode 4 (HeaderSize h)
           ++ le_encode 4 (HeaderCRC32 h) ++ tl)
    with (pre ++ le_encode 4 (HeaderCRC32 h) ++ tl)
    by (unfold pre; rewrite <- !app_assoc; reflexivity).
  unfold overwrite. change (Z.to_nat 16) with 16%nat.
  rewrite le_encode_length.
  rewrite take_app_length' by (symmetry; exact Hpre).
  f_equal. f_equal.
  rewrite drop_app_ge by (rewrite Hpre; lia).
  rewrite Hpre. replace (16 + 4 - 16)%nat with 4%nat by lia.
  rewrite drop_app_length' by (rewrite le_encode_length; reflexivity).
  reflexivity.
Qed.

Lemma header_encode_length h :
  length (Signature h) = 8%nat -> length (DiskGUID h) = 16%nat ->
  length (Header.encode h) = 92%nat.
Proof.
  intros Hs Hg. unfold Header.encode.
  rewrite !length_app, !le_encode_length, Hs, Hg. reflexivity.
Qed.

(** The buffer that is checksummed: the struct with a zero checksum field,
    cut or zero-padded to [HeaderSize] bytes. *)
Definition sealed_image (h : GPTHeader) : list byte :=
  take (Z.to_nat (HeaderSize h))
    (Header.encode (set_HeaderCRC32 0 h) ++ zeros (HeaderSize h - 92)).

Lemma drop_repeat (x : byte) n m : drop n (repeat x m) = repeat x (m - n).
Proof.
  revert n. induction m as [|m IH]; intros [|n]; cbn; try reflexivity. apply IH.
Qed.

Lemma zeros_neg n : n <= 0 -> zeros n = [].
Proof. intros H. unfold zeros. replace (Z.to_nat n) with 0%nat by lia. reflexivity. Qed.

Lemma v2_image h :
  length (Signature h) = 8%nat -> length (DiskGUID h) = 16%nat ->
  V2.byteBuffer_Write (zeros (HeaderSize (set_HeaderCRC32 0 h)))
    (Header.encode (set_HeaderCRC32 0 h)) = sealed_image h.
Proof.
  intros Hs Hg. unfold V2.byteBuffer_Write, copy, sealed_image.
  cbn [set_HeaderCRC32 HeaderSize].
  assert (Hl : length (Header.encode (set_HeaderCRC32 0 h)) = 92%nat)
    by (apply header_encode_length; assumption).
  rewrite Hl. unfold zeros at 1 2. rewrite repeat_length.
  destruct (Z_le_gt_dec (HeaderSize h) 92) as [Hle|Hgt].
  - rewrite (zeros_neg (HeaderSize h - 92)) by lia. rewrite app_nil_r.
    rewrite drop_ge by (rewrite repeat_length; lia).
    rewrite app_nil_r. reflexivity.
  - rewrite take_ge by lia.
    rewrite take_ge by (rewrite length_app, Hl; unfold zeros; rewrite repeat_length; lia).
    f_equal. unfold zeros. rewrite drop_repeat. f_equal. lia.
Qed.

Lemma zeros4 : zeros 4 = le_encode 4 0.
Proof. reflexivity. Qed.

Lemma v1_padded h :
  length (Signature h) = 8%nat -> length (DiskGUID h) = 16%nat ->
  (if Z.of_nat (length (Header.encode h)) <? HeaderSize h
   then Header.encode h ++ zeros (HeaderSize h - Z.of_nat (length (Header.encode h)))
   else Header.encode h)
  = Header.encode h ++ zeros (HeaderSize h - 92).
Proof.
  intros Hs Hg. rewrite (header_encode_length h Hs Hg).
  change (Z.of_nat 92) with 92.
  destruct (92 <? HeaderSize h) eqn:E; [reflexivity|].
  apply Z.ltb_ge in E. rewrite zeros_neg by lia. rewrite app_nil_r. reflexivity.
Qed.

(** Variant 1's checksum block in terms of the checksummed image. *)
Lemma v1_checksummed h :
  length (Signature h) = 8%nat -> length (DiskGUID h) = 16%nat ->
  V1.checksummed h
  = (Header.encode (set_HeaderCRC32 (ChecksumIEEE (sealed_image h)) h)
       ++ zeros (HeaderSize h - 92),
     ChecksumIEEE (sealed_image h)).
Proof.
  intros Hs Hg. unfold V1.checksummed. cbv zeta.
  rewrite (v1_padded h Hs Hg).
  assert (Hl : length (Header.encode h) = 92%nat) by (apply header_encode_length; assumption).
  assert (Hz : overwrite (Header.encode h ++ zeros (HeaderSize h - 92)) 16 (zeros 4)
               = Header.encode (set_HeaderCRC32 0 h) ++ zeros (HeaderSize h - 92)).
  { rewrite overwrite_app_l;
      [|lia|rewrite Hl; change (length (zeros 4)) with 4%nat; lia].
    rewrite zeros4, <- encode_set_crc by exact Hs. reflexivity. }
  rewrite Hz. fold (sealed_image h). f_equal.
  rewrite overwrite_app_l.
  - rewrite <- encode_set_crc by exact Hs. reflexivity.
  - lia.
  - rewrite le_encode_length, header_encode_length by assumption. lia.
Qed.

(** Variant 2's checksum block in terms of the same image. *)
Lemma v2_seal h :
  length (Signature h) = 8%nat -> length (DiskGUID h) = 16%nat ->
  V2.seal h = set_HeaderCRC32 (ChecksumIEEE (sealed_image h)) h.
Proof.
  intros Hs Hg. unfold V2.seal. cbv zeta.
  rewrite (v2_image h Hs Hg). reflexivity.
Qed.

Lemma seal_wf h : Header.wf h -> Header.wf (V2.seal h).
Proof.
  intros Hwf. pose proof Hwf as [Hs Hg ? ? ? ? ? ? ? ? ? ? ? ?].
  rewrite (v2_seal h Hs Hg).
  constructor; cbn [set_HeaderCRC32 Signature Revision HeaderSize HeaderCRC32
    Reserved CurrentLBA BackupLBA FirstUsableLBA LastUsableLBA DiskGUID
    PartitionTableLBA NumPartitions PartitionEntrySize PartitionTableCRC];
    try assumption.
  apply crc_range.
Qed.

Lemma field_prefix (a b : list byte) k off n :
  take k a = take k b -> (off + n <= k)%nat -> field a off n = field b off n.
Proof.
  intros H Hk. unfold field. apply V1Reloc.window_ext. intros z Hz.
  rewrite <- (lookup_take_lt a k z), <- (lookup_take_lt b k z) by lia.
  rewrite H. reflexivity.
Qed.

Lemma field_app_l (a b : list byte) off n :
  (off + n <= length a)%nat -> field (a ++ b) off n = field a off n.
Proof.
  intros H. unfold field. apply V1Reloc.window_ext. intros z Hz.
  apply lookup_app_l. lia.
Qed.

Lemma of_bytes_prefix (a b : list byte) :
  take 92 a = take 92 b -> Header.of_bytes a = Header.of_bytes b.
Proof.
  intros H. unfold Header.of_bytes.
  rewrite !(field_prefix a b 92 _ _ H) by lia. reflexivity.
Qed.

Lemma zeroed_same (b : list byte) :
  (forall i, (16 <= i < 20)%nat -> (i < length b)%nat -> b !! i = Some x00) ->
  zeroed b = b.
Proof.
  intros H. apply list_eq. intros i.
  destruct (decide (16 <= i < 20)%nat) as [Hi|Hi].
  - destruct (decide (i < length b)%nat) as [Hl|Hl].
    + rewrite zeroed_inside by assumption. symmetry. apply H; assumption.
    + rewrite !lookup_ge_None_2; [reflexivity|lia|rewrite zeroed_length; lia].
  - apply zeroed_outside. lia.
Qed.

Lemma overwrite_inside (b : list byte) off src (k : nat) :
  0 <= off -> off + Z.of_nat (length src) <= Z.of_nat (length b) ->
  (k < length src)%nat ->
  overwrite b off src !! (Z.to_nat off + k)%nat = src !! k.
Proof.
  intros H0 H Hk.
  rewrite <- (V1Reloc.overwrite_window b off src H0 H) at 2.
  rewrite lookup_take_lt, lookup_drop by exact Hk. reflexivity.
Qed.

(** The image carries zero bytes in the checksum field. *)
Lemma image_zero h (i : nat) :
  length (Signature h) = 8%nat -> length (DiskGUID h) = 16%nat ->
  (16 <= i < 20)%nat -> (i < length (sealed_image h))%nat -> sealed_image h !! i = Some x00.
Proof.
  intros Hs Hg Hi Hl. unfold sealed_image in *.
  rewrite length_take in Hl.
  rewrite lookup_take_lt by lia.
  assert (Hle : length (Header.encode h) = 92%nat) by (apply header_encode_length; assumption).
  rewrite lookup_app_l by (rewrite header_encode_length; [lia|exact Hs|exact Hg]).
  rewrite encode_set_crc by exact Hs.
  replace i with (Z.to_nat 16 + (i - 16))%nat by lia.
  rewrite overwrite_inside by (rewrite ?le_encode_length, ?Hle; lia).
  change (le_encode 4 0) with [x00; x00; x00; x00].
  destruct (i - 16)%nat as [|[|[|[|k]]]] eqn:E; try reflexivity.
  lia.
Qed.

(** A sector whose first [HeaderSize] bytes are the sealed struct, cut or
    zero-padded, passes the inspectors' recalculation. *)
Lemma sealed_verifies h s :
  Header.wf h -> 20 <= HeaderSize h <= 512 -> length s = 512%nat ->
  take (Z.to_nat (HeaderSize h)) s
  = take (Z.to_nat (HeaderSize h))
      (Header.encode (V2.seal h) ++ zeros (HeaderSize h - 92)) ->
  exists hdr,
    Header.decode s = Some hdr
    /\ HeaderSize hdr = HeaderSize h
    /\ HeaderCRC32 hdr = HeaderCRC32 (V2.seal h)
    /\ recalc s hdr = Crc (HeaderCRC32 hdr) (sealed_image h).
Proof.
  intros Hwf Hhs Hlen Hpre.
  pose proof Hwf as [Hs Hg _ _ _ _ _ _ _ _ _ _ _ _].
  pose proof (seal_wf h Hwf) as Hwfs.
  pose proof (header_encode_length (V2.seal h) ltac:(apply Hwfs) ltac:(apply Hwfs)) as Hle.
  set (hs := Z.to_nat (HeaderSize h)) in *.
  assert (Hhs' : (20 <= hs <= 512)%nat) by lia.
  exists (Header.of_bytes s).
  assert (Hf : forall off n, (off + n <= 20)%nat ->
             field s off n = field (Header.encode (V2.seal h)) off n).
  { intros off n Hon.
    rewrite (field_prefix s _ hs off n Hpre) by lia.
    apply field_app_l. rewrite Hle. lia. }
  pose proof (Codec.header_of_bytes_encode (V2.seal h) Hwfs) as Hrt.
  assert (H1 : HeaderSize (Header.of_bytes s) = HeaderSize h).
  { unfold Header.of_bytes at 1. cbn [HeaderSize].
    rewrite (Hf 12 4)%nat by lia.
    change (le_decode (field (Header.encode (V2.seal h)) 12 4))
      with (HeaderSize (Header.of_bytes (Header.encode (V2.seal h)))).
    rewrite Hrt. reflexivity. }
  assert (H2 : HeaderCRC32 (Header.of_bytes s) = HeaderCRC32 (V2.seal h)).
  { unfold Header.of_bytes at 1. cbn [HeaderCRC32].
    rewrite (Hf 16 4)%nat by lia.
    change (le_decode (field (Header.encode (V2.seal h)) 16 4))
      with (HeaderCRC32 (Header.of_bytes (Header.encode (V2.seal h)))).
    rewrite Hrt. reflexivity. }
  split.
  { unfold Header.decode, Header.size. rewrite Hlen. reflexivity. }
  split; [exact H1|]. split; [exact H2|].
  rewrite recalc_cases, H1, H2, Hlen.
  destruct (0 <=? HeaderSize h) eqn:E0; [|apply Z.leb_gt in E0; lia].
  destruct (HeaderSize h <=? Z.of_nat 512) eqn:E1; [|apply Z.leb_gt in E1; lia].
  destruct (20 <=? HeaderSize h) eqn:E2; [|apply Z.leb_gt in E2; lia].
  cbn [andb]. cbv zeta. fold hs.
  assert (Himg : zeroed (take hs s) = sealed_image h).
  { replace (take hs s) with (take hs (take hs s))
      by (rewrite take_take; f_equal; lia).
    rewrite Hpre.
    replace (take hs (take hs (Header.encode (V2.seal h) ++ zeros (HeaderSize h - 92))))
      with (take hs (Header.encode (V2.seal h) ++ zeros (HeaderSize h - 92)))
      by (rewrite take_take; f_equal; lia).
    rewrite (zeroed_agree _ (Header.encode (set_HeaderCRC32 0 h)
                               ++ zeros (HeaderSize h - 92)) hs).
    - fold hs. change (take hs (Header.encode (set_HeaderCRC32 0 h)
                                  ++ zeros (HeaderSize h - 92))) with (sealed_image h).
      apply zeroed_same. intros i Hi Hl. apply image_zero; assumption.
    - rewrite !length_app, Hle.
      rewrite (header_encode_length (set_HeaderCRC32 0 h)) by assumption. reflexivity.
    - intros i Hi.
      rewrite (v2_seal h Hs Hg).
      replace (set_HeaderCRC32 (ChecksumIEEE (sealed_image h)) h)
        with (set_HeaderCRC32 (ChecksumIEEE (sealed_image h)) (set_HeaderCRC32 0 h))
        by reflexivity.
      rewrite (encode_set_crc (set_HeaderCRC32 0 h)) by exact Hs.
      assert (Hl0 : length (Header.encode (set_HeaderCRC32 0 h)) = 92%nat)
        by (apply header_encode_length; assumption).
      assert (Hl1 : length (overwrite (Header.encode (set_HeaderCRC32 0 h)) 16
                              (le_encode 4 (ChecksumIEEE (sealed_image h)))) = 92%nat).
      { rewrite V1Reloc.overwrite_length; rewrite ?le_encode_length, ?Hl0; lia. }
      destruct (decide (i < 92)%nat) as [Hi92|Hi92].
      + rewrite !lookup_app_l by (rewrite ?Hl1, ?Hl0; lia).
        apply V1Reloc.overwrite_frame; rewrite ?le_encode_length, ?Hl0; lia.
      + rewrite !lookup_app_r by (rewrite ?Hl1, ?Hl0; lia).
        rewrite Hl1, Hl0. reflexivity. }
  rewrite Himg. f_equal.
  rewrite (v2_seal h Hs Hg). reflexivity.
Qed.

End Seal.

(** A 4-sector image whose header announces a [HeaderSize] of 16 bytes. *)
Definition undersized : File :=
  sparse (4 * 512) [(512, Header.encode (header Header.GPT_SIGNATURE 16 34 2 0 128))].

(** X10. The header-only inspector on an image that holds sector 1: with a
    decoded [HeaderSize] below 20 the loop that clears bytes 16..19 of the
    copy indexes past its end and the run panics; with [HeaderSize] from 20
    to 512 the run computes the checksum of the first [HeaderSize] bytes of
    the sector with bytes 16..19 cleared.  An image shorter than two sectors
    stops in "read header".  In no case is the image written to. *)
Theorem inspector_header_crc_outcomes f :
  (f_size f < SECTOR_SIZE + SECTOR_SIZE ->
   fst (Inspect.main_prefix (open f)) = Fatal "read header")
  /\ (SECTOR_SIZE + SECTOR_SIZE <= f_size f ->
      let hdrBuf := read_bytes f SECTOR_SIZE 512 in
      let hdr := Header.of_bytes hdrBuf in
      (HeaderSize hdr < 20 ->
       fst (Inspect.main_prefix (open f)) = Panic "index out of range")
      /\ (20 <= HeaderSize hdr <= 512 ->
          fst (Inspect.main_prefix (open f))
          = Ok (ChecksumIEEE
                  (InspectFacts.zeroed (take (Z.to_nat (HeaderSize hdr)) hdrBuf)))))
  /\ snd (Inspect.main_prefix (open f)) = open f.
Proof.
  assert (Hrun : Inspect.main_prefix (open f)
    = if SECTOR_SIZE + SECTOR_SIZE <=? f_size f
      then match Inspect.recalc (read_bytes f SECTOR_SIZE 512)
                   (Header.of_bytes (read_bytes f SECTOR_SIZE 512)) with
           | Inspect.Crc c _ => (Ok c, open f)
           | Inspect.SliceOutOfRange => (Panic "slice bounds out of range", open f)
           | Inspect.IndexOutOfRange => (Panic "index out of range", open f)
           end
      else (Fatal "read header", open f)).
  { unfold Inspect.main_prefix, bind, orFatal, bind, ReadAt, ret, fatal, panic.
    cbn [disk open].
    change (SECTOR_SIZE <? 0) with false. change (SECTOR_SIZE =? 0) with false.
    cbn [orb]. cbv iota.
    destruct (SECTOR_SIZE + SECTOR_SIZE <=? f_size f); [|reflexivity].
    change (Z.to_nat SECTOR_SIZE) with 512%nat.
    assert (Hdec : Header.decode (read_bytes f SECTOR_SIZE 512)
                   = Some (Header.of_bytes (read_bytes f SECTOR_SIZE 512))).
    { unfold Header.decode, Header.size. rewrite read_bytes_length. reflexivity. }
    rewrite Hdec.
    destruct (Inspect.recalc _ _); reflexivity. }
  rewrite Hrun. split; [|split].
  - intros Hsmall.
    destruct (SECTOR_SIZE + SECTOR_SIZE <=? f_size f) eqn:E;
      [apply Z.leb_le in E; lia|reflexivity].
  - intros Hsz hdrBuf hdr.
    destruct (SECTOR_SIZE + SECTOR_SIZE <=? f_size f) eqn:E;
      [|apply Z.leb_gt in E; lia].
    fold hdrBuf. fold hdr.
    assert (Hlen : Z.of_nat (length hdrBuf) = 512)
      by (unfold hdrBuf; rewrite read_bytes_length; reflexivity).
    assert (H0 : 0 <= HeaderSize hdr).
    { pose proof (TableCRC.field_u32 hdrBuf 12) as Hu. unfold is_u32 in Hu.
      unfold hdr, Header.of_bytes. cbn [HeaderSize]. lia. }
    rewrite InspectFacts.recalc_cases, Hlen.
    destruct (0 <=? HeaderSize hdr) eqn:E0; [|apply Z.leb_gt in E0; lia].
    cbn [andb]. split.
    + intros Hlt.
      destruct (HeaderSize hdr <=? 512) eqn:E1; [|apply Z.leb_gt in E1; lia].
      destruct (20 <=? HeaderSize hdr) eqn:E2; [apply Z.leb_le in E2; lia|].
      reflexivity.
    + intros [Hlo Hhi].
      destruct (HeaderSize hdr <=? 512) eqn:E1; [|apply Z.leb_gt in E1; lia].
      destruct (20 <=? HeaderSize hdr) eqn:E2; [|apply Z.leb_gt in E2; lia].
      reflexivity.
  - destruct (SECTOR_SIZE + SECTOR_SIZE <=? f_size f); [|reflexivity].
    destruct (Inspect.recalc _ _); reflexivity.
Qed.

Lemma inspector_header_crc_outcomes_witness :
  fst (Inspect.main_prefix (open undersized)) = Panic "index out of range"
  /\ fst (Inspect.main_prefix (open (sparse 1000 []))) = Fatal "read header".
Proof.
  split.
  - apply (proj1 (proj2 (inspector_header_crc_outcomes undersized))).
    + vm_compute. congruence.
    + vm_compute. reflexivity.
  - apply (proj1 (inspector_header_crc_outcomes (sparse 1000 []))).
    vm_compute. reflexivity.
Defined.

(** X11. Both repair variants seal a header with the same checksum: the
    CRC-32 of the struct serialised with a zero checksum field, cut or
    zero-padded to [HeaderSize] bytes.  They differ in what they write:
    variant 2 the 92 bytes of the struct, variant 1 exactly [HeaderSize]
    bytes, which is the same struct cut or zero-padded. *)
Theorem header_sealed_alike_in_both_variants (h : GPTHeader) :
  length (Signature h) = 8%nat -> length (DiskGUID h) = 16%nat ->
  0 <= HeaderSize h ->
  snd (V1.checksummed h) = HeaderCRC32 (V2.seal h)
  /\ HeaderCRC32 (V2.seal h) = ChecksumIEEE (Seal.sealed_image h)
  /\ V1.header_bytes h
     = take (Z.to_nat (HeaderSize h))
         (Header.encode (V2.seal h) ++ zeros (HeaderSize h - 92))
  /\ Z.of_nat (length (V1.header_bytes h)) = HeaderSize h
  /\ length (Header.encode (V2.seal h)) = 92%nat.
Proof.
  intros Hs Hg H0.
  assert (Hb : V1.header_bytes h
               = take (Z.to_nat (HeaderSize h))
                   (Header.encode (V2.seal h) ++ zeros (HeaderSize h - 92))).
  { unfold V1.header_bytes.
    rewrite (Seal.v1_checksummed h Hs Hg), (Seal.v2_seal h Hs Hg). reflexivity. }
  assert (Hl : length (Header.encode (V2.seal h)) = 92%nat).
  { rewrite (Seal.v2_seal h Hs Hg). apply Seal.header_encode_length; assumption. }
  split; [|split; [|split; [|split]]].
  - rewrite (Seal.v1_checksummed h Hs Hg), (Seal.v2_seal h Hs Hg). reflexivity.
  - rewrite (Seal.v2_seal h Hs Hg). reflexivity.
  - exact Hb.
  - rewrite Hb, length_take, length_app, Hl. unfold zeros. rewrite repeat_length. lia.
  - exact Hl.
Qed.

Lemma header_sealed_alike_in_both_variants_witness :
  snd (V1.checksummed (header GPT_SIGNATURE 92 34 2 128 128))
  = HeaderCRC32 (V2.seal (header GPT_SIGNATURE 92 34 2 128 128))
  /\ Z.of_nat (length (V1.header_bytes (header GPT_SIGNATURE 512 34 2 128 128))) = 512.
Proof.
  split.
  - apply (header_sealed_alike_in_both_variants (header GPT_SIGNATURE 92 34 2 128 128));
      [reflexivity|reflexivity|cbn; lia].
  - apply (header_sealed_alike_in_both_variants (header GPT_SIGNATURE 512 34 2 128 128));
      [reflexivity|reflexivity|cbn; lia].
Defined.

(** X12. A header written by either repair variant passes the inspectors'
    check.  Let [s] be a 512-byte sector and [h] a well-formed header with
    [HeaderSize] from 20 to 512.  If [s] starts with the bytes variant 1
    writes for [h], or starts with the 92 bytes variant 2 writes for [h]
    and either [HeaderSize] is at most 92 or the sector is zero from byte 92
    up to [HeaderSize], then the inspectors decode [s] and recompute
    exactly the checksum stored in it. *)
Theorem repaired_header_passes_inspection (h : GPTHeader) (s : list byte) :
  Header.wf h -> 20 <= HeaderSize h <= 512 -> length s = 512%nat ->
  (take (Z.to_nat (HeaderSize h)) s = V1.header_bytes h
   \/ (take 92 s = Header.encode (V2.seal h)
       /\ (HeaderSize h <= 92
           \/ take (Z.to_nat (HeaderSize h - 92)) (drop 92 s)
              = zeros (HeaderSize h - 92)))) ->
  exists hdr buf,
    Header.decode s = Some hdr
    /\ HeaderSize hdr = HeaderSize h
    /\ Inspect.recalc s hdr = Inspect.Crc (HeaderCRC32 hdr) buf.
Proof.
  intros Hwf Hhs Hlen Hsrc.
  pose proof Hwf as [Hs Hg _ _ _ _ _ _ _ _ _ _ _ _].
  assert (Hl : length (Header.encode (V2.seal h)) = 92%nat).
  { rewrite (Seal.v2_seal h Hs Hg). apply Seal.header_encode_length; assumption. }
  assert (Hpre : take (Z.to_nat (HeaderSize h)) s
                 = take (Z.to_nat (HeaderSize h))
                     (Header.encode (V2.seal h) ++ zeros (HeaderSize h - 92))).
  { destruct Hsrc as [H1|[H2 Htail]].
    - rewrite H1.
      apply (header_sealed_alike_in_both_variants h Hs Hg). lia.
    - destruct (Z_le_gt_dec (HeaderSize h) 92) as [Hle|Hgt].
      + rewrite Seal.zeros_neg by lia. rewrite app_nil_r.
        rewrite <- H2, take_take. f_equal. lia.
      + destruct Htail as [Hle|Htail]; [lia|].
        rewrite <- (take_drop 92 s) at 1.
        rewrite take_app_ge by (rewrite length_take; lia).
        rewrite length_take, Hlen, H2.
        replace (Z.to_nat (HeaderSize h) - 92 `min` 512)%nat
          with (Z.to_nat (HeaderSize h - 92)) by lia.
        rewrite Htail. symmetry. apply take_ge.
        rewrite length_app, Hl. unfold zeros. rewrite repeat_length. lia. }
  destruct (Seal.sealed_verifies h s Hwf Hhs Hlen Hpre) as (hdr & Hd & H1 & _ & Hr).
  exists hdr, (Seal.sealed_image h). split; [exact Hd|]. split; [exact H1|exact Hr].
Qed.

Lemma repaired_header_passes_inspection_witness :
  exists hdr buf,
    Header.decode (V1.header_bytes (header GPT_SIGNATURE 512 34 2 128 128)) = Some hdr
    /\ HeaderSize hdr = 512
    /\ Inspect.recalc (V1.header_bytes (header GPT_SIGNATURE 512 34 2 128 128)) hdr
       = Inspect.Crc (HeaderCRC32 hdr) buf.
Proof.
  apply (repaired_header_passes_inspection (header GPT_SIGNATURE 512 34 2 128 128)).
  - constructor; cbn; try reflexivity; unfold is_u32, is_u64; lia.
  - cbn. lia.
  - vm_compute. reflexivity.
  - left. vm_compute. reflexivity.
Defined.

(** ** Where a run can stop *)

Module Exec.

Import Header.

(** One step of [main]: a file operation followed by its error check. *)
Lemma step_ReadAt {B} msg n off (k : list byte -> IO B) w :
  bind (orFatal msg (ReadAt n off)) k w
  = if off <? 0 then (Fatal msg, w)
    else if (n =? 0) || (off + n <=? f_size (disk w))
         then k (read_bytes (disk w) off (Z.to_nat n)) w
         else (Fatal msg, w).
Proof.
  unfold bind, orFatal, bind, ReadAt, ret, fatal.
  destruct (off <? 0); [reflexivity|].
  destruct ((n =? 0) || (off + n <=? f_size (disk w))); reflexivity.
Qed.

Lemma step_WriteAt {B} msg data off (k : unit -> IO B) w :
  bind (orFatal msg (WriteAt data off)) k w
  = if off <? 0 then (Fatal msg, w)
    else k tt {| disk := write_bytes (disk w) off data; pos := pos w;
                 wlog := wlog w ++ [mkWr off data] |}.
Proof.
  unfold bind, orFatal, bind, WriteAt, ret, fatal.
  destruct (off <? 0); reflexivity.
Qed.

Lemma step_Seek {B} msg off (k : unit -> IO B) w :
  bind (orFatal msg (Seek off)) k w
  = if off <? 0 then (Fatal msg, w)
    else k tt {| disk := disk w; pos := off; wlog := wlog w |}.
Proof.
  unfold bind, orFatal, bind, Seek, ret, fatal.
  destruct (off <? 0); reflexivity.
Qed.

Lemma step_ReadFull {B} msg n (k : list byte -> IO B) w :
  bind (orFatal msg (ReadFull n)) k w
  = if pos w + n <=? f_size (disk w)
    then k (read_bytes (disk w) (pos w) (Z.to_nat n))
           {| disk := disk w; pos := pos w + n; wlog := wlog w |}
    else (Fatal msg,
          {| disk := disk w; pos := Z.max (pos w) (f_size (disk w)); wlog := wlog w |}).
Proof.
  unfold bind, orFatal, bind, ReadFull, ret, fatal.
  destruct (pos w + n <=? f_size (disk w)); reflexivity.
Qed.

Lemma step_Write {B} msg data (k : unit -> IO B) w :
  bind (orFatal msg (Write data)) k w
  = k tt {| disk := write_bytes (disk w) (pos w) data;
            pos := pos w + Z.of_nat (length data);
            wlog := wlog w ++ [mkWr (pos w) data] |}.
Proof. reflexivity. Qed.

Lemma step_decode {B} msg (r : option GPTHeader) (k : GPTHeader -> IO B) w :
  bind (orFatal msg (ret r)) k w
  = match r with Some h => k h w | None => (Fatal msg, w) end.
Proof. destruct r; reflexivity. Qed.

Lemma step_orPanic {A B} msg (r : option A) (k : A -> IO B) w :
  bind (orPanic msg r) k w
  = match r with Some a => k a w | None => (Panic msg, w) end.
Proof. destruct r; reflexivity. Qed.

Lemma step_Stat {B} (k : Z -> IO B) w : bind Stat k w = k (f_size (disk w)) w.
Proof. reflexivity. Qed.

(** The byte offset of a sector of a file that holds it. *)
Lemma lba_offset_small lba : 0 <= lba < 2 ^ 54 -> lba_offset lba = lba * 512.
Proof.
  intros H. unfold lba_offset, SECTOR_SIZE.
  rewrite (i64_small lba) by lia. apply i64_small. lia.
Qed.

Lemma lba_offset_neg lba : 2 ^ 64 - 2 ^ 54 <= lba < 2 ^ 64 -> lba_offset lba < 0.
Proof.
  intros H. unfold lba_offset, SECTOR_SIZE.
  assert (H1 : i64 lba = lba - 2 ^ 64).
  { unfold i64. replace (lba + 2 ^ 63) with (lba - 2 ^ 63 + 1 * 2 ^ 64) by lia.
    rewrite Z.mod_add by lia. rewrite Z.mod_small by lia. lia. }
  rewrite H1.
  assert (H2 : i64 ((lba - 2 ^ 64) * 512) = (lba - 2 ^ 64) * 512).
  { unfold i64.
    replace ((lba - 2 ^ 64) * 512 + 2 ^ 63)
      with ((lba - 2 ^ 64) * 512 + 2 ^ 63) by lia.
    rewrite Z.mod_small by lia. lia. }
  rewrite H2. lia.
Qed.

End Exec.

(** X13. Where variant 1 can stop, on a regular file of a size an [int64]
    holds.  A run that panics or stops in [log.Fatalf] has written nothing,
    with one exception: when the sector computed for the backup entry array
    is negative as an [int64] byte offset (the table has more sectors than
    there are in front of the last one), the run stops in "write backup
    entries" after it has rewritten the primary entry array and the primary
    header.  A run that ends normally has issued four writes. *)
Theorem v1_stops_before_or_between_writes f :
  0 <= f_size f < 2 ^ 63 ->
  let hdr := Header.of_bytes (read_bytes f SECTOR_SIZE 512) in
  let tableBytes := i64 (NumPartitions hdr * PartitionEntrySize hdr) in
  let totalSectors := u64 (Z.quot (f_size f) SECTOR_SIZE) in
  match V1.main (open f) with
  | (Ok _, w) =>
      length (wlog w) = 4%nat
      /\ 0 <= lba_offset (V1.backupTableLBA totalSectors tableBytes)
  | (Panic _, w) => wlog w = []
  | (Fatal msg, w) =>
      wlog w = []
      \/ (msg = "write backup entries"%string
          /\ lba_offset (V1.backupTableLBA totalSectors tableBytes) < 0
          /\ exists tbl hb,
               wlog w = [mkWr (lba_offset (PartitionTableLBA hdr)) tbl;
                         mkWr SECTOR_SIZE hb])
  end.
Proof.
  intros Hsz hdr tableBytes totalSectors.
  unfold V1.main. rewrite Exec.step_Stat. cbn [disk open].
  destruct (negb (Z.rem (f_size f) SECTOR_SIZE =? 0)) eqn:Erem.
  { left. reflexivity. }
  rewrite Exec.step_ReadAt. cbn [disk open].
  change (SECTOR_SIZE * 1 <? 0) with false. cbv iota.
  change (SECTOR_SIZE =? 0) with false. cbn [orb].
  change (SECTOR_SIZE * 1 + SECTOR_SIZE) with 1024.
  destruct (1024 <=? f_size f) eqn:Efs; [|left; reflexivity].
  apply Z.leb_le in Efs.
  rewrite Exec.step_decode.
  change (SECTOR_SIZE * 1) with SECTOR_SIZE.
  change (Z.to_nat SECTOR_SIZE) with 512%nat.
  assert (Hdec : Header.decode (read_bytes f SECTOR_SIZE 512) = Some hdr).
  { unfold Header.decode, Header.size. rewrite read_bytes_length. reflexivity. }
  rewrite Hdec. cbv zeta. fold tableBytes.
  destruct (f_size f <? i64 (lba_offset (PartitionTableLBA hdr) + tableBytes));
    [left; reflexivity|].
  destruct (tableBytes <? 0); [reflexivity|].
  rewrite Exec.step_ReadAt. cbn [disk open].
  destruct (lba_offset (PartitionTableLBA hdr) <? 0) eqn:Eoff; [left; reflexivity|].
  destruct ((tableBytes =? 0)
            || (lba_offset (PartitionTableLBA hdr) + tableBytes <=? f_size f));
    [|left; reflexivity].
  rewrite Exec.step_orPanic.
  destruct (V1.realign _ _ _ _ _) as [r|]; [|reflexivity].
  rewrite Exec.step_WriteAt, Eoff.
  rewrite Exec.step_WriteAt. change (SECTOR_SIZE <? 0) with false. cbv iota.
  rewrite Exec.step_WriteAt. fold totalSectors.
  destruct (lba_offset (V1.backupTableLBA totalSectors tableBytes) <? 0) eqn:Ebt.
  { right. apply Z.ltb_lt in Ebt. split; [reflexivity|]. split; [exact Ebt|].
    eexists _, _. reflexivity. }
  apply Z.ltb_ge in Ebt.
  rewrite Exec.step_WriteAt.
  assert (Hts : 2 <= totalSectors < 2 ^ 54).
  { unfold totalSectors, SECTOR_SIZE.
    assert (H1 : 2 <= Z.quot (f_size f) 512 < 2 ^ 54).
    { rewrite Z.quot_div_nonneg by lia. split.
      - apply Z.div_le_lower_bound; lia.
      - apply Z.div_lt_upper_bound; lia. }
    rewrite u64_small by (unfold is_u64; lia). exact H1. }
  assert (Hbh : (lba_offset (u64 (totalSectors - 1)) <? 0) = false).
  { apply Z.ltb_ge. rewrite u64_small by (unfold is_u64; lia).
    rewrite Exec.lba_offset_small by lia. lia. }
  rewrite Hbh. unfold ret. split; [reflexivity|exact Ebt].
Qed.

(** A 2-sector image whose header places a table of 8 entries at LBA 0. *)
Definition cramped : File :=
  sparse (2 * 512) [(512, Header.encode (header GPT_SIGNATURE 92 34 0 8 128))].

Lemma v1_stops_before_or_between_writes_witness :
  exists w tbl hb,
    V1.main (open cramped) = (Fatal "write backup entries", w)
    /\ wlog w = [mkWr 0 tbl; mkWr SECTOR_SIZE hb].
Proof.
  assert (Hsz : 0 <= f_size cramped < 2 ^ 63) by (vm_compute; split; congruence).
  pose proof (v1_stops_before_or_between_writes cramped Hsz) as T.
  cbv zeta in T.
  assert (E : fst (V1.main (open cramped)) = Fatal "write backup entries")
    by (vm_compute; reflexivity).
  assert (L : length (wlog (snd (V1.main (open cramped)))) = 2%nat)
    by (vm_compute; reflexivity).
  destruct (V1.main (open cramped)) as [r w]. cbn [fst snd] in E, L. subst r.
  destruct T as [T|(_ & _ & tbl & hb & T)].
  - rewrite T in L. discriminate.
  - exists w, tbl, hb. split; [reflexivity|]. rewrite T. reflexivity.
Defined.

Module V2Exec.

Import Partition V2 V2Main.

(** Reading the table writes nothing and never panics. *)
Lemma read_partitions_quiet n w :
  match read_partitions n w with
  | (Ok ps, w') => wlog w' = wlog w /\ length ps = n
  | (Fatal _, w') => wlog w' = wlog w
  | (Panic _, _) => False
  end.
Proof.
  revert w. induction n as [|n IH]; intros w.
  - cbn. split; reflexivity.
  - cbn [read_partitions]. rewrite Exec.step_ReadFull.
    destruct (pos w + 128 <=? f_size (disk w)); [|reflexivity].
    unfold bind at 1.
    match goal with |- context [read_partitions n ?w1] =>
      specialize (IH w1); destruct (read_partitions n w1) as [[ps|m|m] w2] end.
    + unfold ret. cbn [wlog] in *. destruct IH as [IH1 IH2].
      split; [exact IH1|]. cbn [length]. rewrite IH2. reflexivity.
    + exact IH.
    + exact IH.
Qed.

Lemma part_writes_length off ps : length (part_writes off ps) = length ps.
Proof.
  revert off. induction ps as [|p ps IH]; intros off; [reflexivity|].
  cbn [part_writes length]. rewrite IH. reflexivity.
Qed.

Lemma step_write_partitions {B} msg ps (k : unit -> IO B) w :
  exists w', bind (write_partitions msg ps) k w = k tt w'
    /\ wlog w' = wlog w ++ part_writes (pos w) ps.
Proof.
  destruct (write_partitions_run msg ps w) as (w' & Hrun & Hlog).
  exists w'. unfold bind. rewrite Hrun. split; [reflexivity|exact Hlog].
Qed.

End V2Exec.

(** X14. Where variant 2 can stop, on a regular file of a size an [int64]
    holds.  The run never panics.  A run that stops in [log.Fatalf] has
    written nothing, with one exception: on an image of fewer than 34
    sectors the sector computed for the backup entry array (last sector
    minus 33) is negative as an [int64] byte offset, and the run stops in
    "Error seeking to backup partition table" after 130 writes: the primary
    header, the 128 primary entries and the backup header.  A run that ends
    normally has issued 258 writes. *)
Theorem v2_stops_before_or_between_writes f :
  0 <= f_size f < 2 ^ 63 ->
  match V2.main (open f) with
  | (Ok _, w) =>
      length (wlog w) = 258%nat /\ 33 <= V2Main.lastSector (f_size f)
  | (Panic _, _) => False
  | (Fatal msg, w) =>
      wlog w = []
      \/ (msg = "Error seeking to backup partition table"%string
          /\ V2Main.lastSector (f_size f) < 33
          /\ length (wlog w) = 130%nat)
  end.
Proof.
  intros Hsz. unfold V2.main. rewrite Exec.step_Stat. cbn [disk open].
  fold (V2Main.lastSector (f_size f)). cbv zeta.
  rewrite Exec.step_Seek. change (SECTOR_SIZE <? 0) with false. cbv iota.
  rewrite Exec.step_ReadFull. cbn [disk pos wlog open].
  change (SECTOR_SIZE + Z.of_nat Header.size) with 604.
  destruct (604 <=? f_size f) eqn:Efs; [|left; reflexivity].
  apply Z.leb_le in Efs.
  set (hdr := Header.of_bytes _).
  destruct (negb (eqb_bytes (Signature hdr) GPT_SIGNATURE)); [left; reflexivity|].
  rewrite Exec.step_Seek. fields.
  destruct (lba_offset (PartitionTableLBA hdr) <? 0) eqn:Eoff; [left; reflexivity|].
  unfold bind at 1.
  match goal with |- context [V2.read_partitions ?n ?w1] =>
    pose proof (V2Exec.read_partitions_quiet n w1) as Hq;
    destruct (V2.read_partitions n w1) as [[ps|m|m] w2] end;
    cbn [wlog] in Hq; [|left; exact Hq|exact Hq].
  destruct Hq as [Hlog2 Hlen].
  set (ps' := fst (V2.relocate ps 34)).
  assert (Hlen' : length ps' = 128%nat).
  { unfold ps'. rewrite V2Reloc.relocate_length. exact Hlen. }
  rewrite Exec.step_Seek. change (SECTOR_SIZE <? 0) with false. cbv iota.
  rewrite Exec.step_Write. cbn [disk pos wlog].
  rewrite Exec.step_Seek. fields. rewrite Eoff.
  match goal with |- context [bind (V2.write_partitions ?msg ps') ?k ?w3] =>
    destruct (V2Exec.step_write_partitions msg ps' k w3) as (w4 & Hrun4 & Hlog4);
    rewrite Hrun4; clear Hrun4 end.
  cbn [wlog pos] in Hlog4. rewrite Hlog2 in Hlog4.
  rewrite Exec.step_Seek. fields.
  assert (Hls : 0 <= V2Main.lastSector (f_size f) < 2 ^ 54).
  { unfold V2Main.lastSector, SECTOR_SIZE.
    rewrite (u64_small (f_size f)) by (unfold is_u64; lia).
    assert (H1 : 1 <= f_size f / 512 < 2 ^ 54).
    { split; [apply Z.div_le_lower_bound; lia|apply Z.div_lt_upper_bound; lia]. }
    rewrite u64_small by (unfold is_u64; lia). lia. }
  assert (Hbh : (lba_offset (V2Main.lastSector (f_size f)) <? 0) = false).
  { apply Z.ltb_ge. rewrite Exec.lba_offset_small by lia. lia. }
  rewrite Hbh.
  rewrite Exec.step_Write. cbn [disk pos wlog].
  rewrite Exec.step_Seek. fields.
  destruct (lba_offset (u64 (V2Main.lastSector (f_size f) - 33)) <? 0) eqn:Ebt.
  - right. split; [reflexivity|]. split.
    + destruct (Z_lt_le_dec (V2Main.lastSector (f_size f)) 33) as [Hlt|Hge];
        [exact Hlt|].
      apply Z.ltb_lt in Ebt.
      rewrite u64_small in Ebt by (unfold is_u64; lia).
      rewrite Exec.lba_offset_small in Ebt by lia. lia.
    + cbn [wlog]. rewrite Hlog4, !length_app, V2Exec.part_writes_length, Hlen'.
      reflexivity.
  - match goal with |- context [bind (V2.write_partitions ?msg ps') ?k ?w5] =>
      destruct (V2Exec.step_write_partitions msg ps' k w5) as (w6 & Hrun6 & Hlog6);
      rewrite Hrun6; clear Hrun6 end.
    cbn [wlog pos] in Hlog6. unfold ret. cbn [wlog]. split.
    + rewrite Hlog6, Hlog4, !length_app, !V2Exec.part_writes_length, Hlen'.
      reflexivity.
    + destruct (Z_lt_le_dec (V2Main.lastSector (f_size f)) 33) as [Hlt|Hge];
        [|exact Hge].
      apply Z.ltb_ge in Ebt.
      assert (Hw : u64 (V2Main.lastSector (f_size f) - 33)
                   = V2Main.lastSector (f_size f) - 33 + 2 ^ 64).
      { unfold u64. symmetry. apply (Z.mod_unique _ _ (-1)); lia. }
      pose proof (Exec.lba_offset_neg (u64 (V2Main.lastSector (f_size f) - 33))
                    ltac:(rewrite Hw; lia)). lia.
Qed.

(** A 32-sector image, the 128 x 128 table placed at LBA 0. *)
Definition short_disk : File :=
  sparse (32 * 512) [(512, Header.encode (header GPT_SIGNATURE 92 34 0 128 128))].

Lemma v2_stops_before_or_between_writes_witness :
  exists w,
    V2.main (open short_disk) = (Fatal "Error seeking to backup partition table", w)
    /\ length (wlog w) = 130%nat.
Proof.
  assert (Hsz : 0 <= f_size short_disk < 2 ^ 63) by (vm_compute; split; congruence).
  pose proof (v2_stops_before_or_between_writes short_disk Hsz) as T.
  assert (E : fst (V2.main (open short_disk))
              = Fatal "Error seeking to backup partition table")
    by (vm_compute; reflexivity).
  assert (L : length (wlog (snd (V2.main (open short_disk)))) = 130%nat)
    by (vm_compute; reflexivity).
  destruct (V2.main (open short_disk)) as [r w]. cbn [fst snd] in E, L. subst r.
  destruct T as [T|(_ & _ & T)]; [rewrite T in L; discriminate|].
  exists w. split; [reflexivity|exact T].
Defined.

(** * The inspector [all_gpt_info.go]

    ** Hexadecimal text: [hex.EncodeToString] and the verb [%0Nx] *)

Module Text.

Import Stdlib.Strings.Ascii.

Definition hexdigit (n : Z) : ascii :=
  nth (Z.to_nat n)
    ["0"; "1"; "2"; "3"; "4"; "5"; "6"; "7"; "8"; "9";
     "a"; "b"; "c"; "d"; "e"; "f"]%char "0"%char.

(** [hex.EncodeToString]: two lower-case digits per byte. *)
Fixpoint EncodeToString (bs : list byte) : string :=
  match bs with
  | [] => EmptyString
  | b :: rest =>
    String (hexdigit (byte_to_Z b / 16))
      (String (hexdigit (byte_to_Z b mod 16)) (EncodeToString rest))
  end.

(** The digits of an unsigned value for the verb [%x], most significant
    first, at least one digit; a 64-bit value has at most 16. *)
Fixpoint hex_digits (fuel : nat) (v : Z) (acc : string) : string :=
  match fuel with
  | O => acc
  | S k =>
    let acc := String (hexdigit (v mod 16)) acc in
    if v <? 16 then acc else hex_digits k (v / 16) acc
  end.

Fixpoint pad0 (n : nat) (s : string) : string :=
  match n with
  | O => s
  | S k => String "0" (pad0 k s)
  end.

(** [fmt.Sprintf("%0Nx", v)] for an unsigned integer [v]. *)
Definition Sprintf_0x (width : nat) (v : Z) : string :=
  let s := hex_digits 16 v EmptyString in
  pad0 (width - String.length s) s.

(** [binary.BigEndian.UintNN]. *)
Definition be_decode (bs : list byte) : Z :=
  fold_left (fun acc b => acc * 256 + byte_to_Z b) bs 0.

(** Exactly [k] digits of [v], in front of [acc]. *)
Fixpoint fixed (k : nat) (v : Z) (acc : string) : string :=
  match k with
  | O => acc
  | S k' => fixed k' (v / 16) (String (hexdigit (v mod 16)) acc)
  end.

Lemma fixed_zero k acc : fixed k 0 acc = pad0 k acc.
Proof.
  revert acc. induction k as [|k IH]; intros acc; [reflexivity|].
  cbn [fixed pad0]. change (0 / 16) with 0. change (0 mod 16) with 0.
  rewrite IH. clear IH. induction k as [|k IH]; [reflexivity|].
  cbn [pad0]. rewrite IH. reflexivity.
Qed.

Lemma hex_digits_length fuel v acc :
  (String.length acc <= String.length (hex_digits fuel v acc))%nat.
Proof.
  revert v acc. induction fuel as [|f IH]; intros v acc; [cbn; lia|].
  cbn [hex_digits]. destruct (v <? 16).
  - cbn [String.length]. lia.
  - specialize (IH (v / 16) (String (hexdigit (v mod 16)) acc)).
    cbn [String.length] in IH. lia.
Qed.

Lemma hex_digits_fixed k : forall fuel v acc,
  (1 <= k <= fuel)%nat -> 0 <= v < 16 ^ Z.of_nat k ->
  pad0 (k + String.length acc - String.length (hex_digits fuel v acc))
    (hex_digits fuel v acc)
  = fixed k v acc.
Proof.
  induction k as [|k IH]; intros fuel v acc Hk Hv; [lia|].
  destruct fuel as [|f]; [lia|].
  cbn [hex_digits fixed].
  destruct (v <? 16) eqn:E.
  - apply Z.ltb_lt in E. rewrite (Z.div_small v 16) by lia.
    rewrite fixed_zero. cbn [String.length]. f_equal. lia.
  - apply Z.ltb_ge in E.
    assert (Hk1 : (1 <= k)%nat).
    { destruct k as [|k']; [|lia]. cbn in Hv. lia. }
    assert (Hv' : 0 <= v / 16 < 16 ^ Z.of_nat k).
    { rewrite Nat2Z.inj_succ, Z.pow_succ_r in Hv by lia.
      split; [apply Z.div_pos; lia|apply Z.div_lt_upper_bound; lia]. }
    rewrite <- (IH f (v / 16) (String (hexdigit (v mod 16)) acc)
                  ltac:(lia) Hv').
    cbn [String.length]. f_equal. lia.
Qed.

Lemma Sprintf_0x_fixed width v :
  (1 <= width <= 16)%nat -> 0 <= v < 16 ^ Z.of_nat width ->
  Sprintf_0x width v = fixed width v EmptyString.
Proof.
  intros Hw Hv. unfold Sprintf_0x. cbv zeta.
  rewrite <- (hex_digits_fixed width 16 v EmptyString) by (assumption || lia).
  cbn [String.length]. f_equal. lia.
Qed.

Lemma be_decode_snoc bs b : be_decode (bs ++ [b]) = be_decode bs * 256 + byte_to_Z b.
Proof. unfold be_decode. rewrite fold_left_app. reflexivity. Qed.

Lemma be_decode_range bs : 0 <= be_decode bs < 256 ^ Z.of_nat (length bs).
Proof.
  induction bs as [|b bs IH] using rev_ind; [cbn; lia|].
  rewrite be_decode_snoc, length_app. cbn [length].
  replace (Z.of_nat (length bs + 1)) with (Z.succ (Z.of_nat (length bs))) by lia.
  rewrite Z.pow_succ_r by lia.
  pose proof (byte_to_Z_range b). lia.
Qed.

Lemma EncodeToString_app a b :
  EncodeToString (a ++ b) = (EncodeToString a ++ EncodeToString b)%string.
Proof.
  induction a as [|x a IH]; [reflexivity|].
  cbn [EncodeToString app]. rewrite IH. reflexivity.
Qed.

Lemma append_cons c (a b : string) : (String c a ++ b = String c (a ++ b))%string.
Proof. reflexivity. Qed.

Lemma append_assoc (a b c : string) : ((a ++ b) ++ c = a ++ (b ++ c))%string.
Proof.
  induction a as [|x a IH]; [reflexivity|].
  rewrite !append_cons, IH. reflexivity.
Qed.

Lemma fixed_be_decode bs acc :
  fixed (2 * length bs) (be_decode bs) acc = (EncodeToString bs ++ acc)%string.
Proof.
  revert acc. induction bs as [|b bs IH] using rev_ind; intros acc; [reflexivity|].
  rewrite be_decode_snoc, length_app. cbn [length].
  replace (2 * (length bs + 1))%nat with (S (S (2 * length bs))) by lia.
  cbn [fixed].
  pose proof (byte_to_Z_range b) as Hb.
  assert (H1 : (be_decode bs * 256 + byte_to_Z b) mod 16 = byte_to_Z b mod 16).
  { replace (be_decode bs * 256 + byte_to_Z b)
      with (byte_to_Z b + (be_decode bs * 16) * 16) by lia.
    apply Z.mod_add. lia. }
  assert (H2 : (be_decode bs * 256 + byte_to_Z b) / 16
               = be_decode bs * 16 + byte_to_Z b / 16).
  { replace (be_decode bs * 256 + byte_to_Z b)
      with (byte_to_Z b + (be_decode bs * 16) * 16) by lia.
    rewrite Z.div_add by lia. lia. }
  rewrite H1, H2.
  assert (H3 : (be_decode bs * 16 + byte_to_Z b / 16) mod 16 = byte_to_Z b / 16).
  { rewrite Z.add_comm, Z.mod_add by lia. apply Z.mod_small.
    split; [apply Z.div_pos; lia|apply Z.div_lt_upper_bound; lia]. }
  assert (H4 : (be_decode bs * 16 + byte_to_Z b / 16) / 16 = be_decode bs).
  { rewrite Z.add_comm, Z.div_add by lia.
    rewrite (Z.div_small (byte_to_Z b / 16)); [lia|].
    split; [apply Z.div_pos; lia|apply Z.div_lt_upper_bound; lia]. }
  rewrite H3, H4, IH, EncodeToString_app, append_assoc. reflexivity.
Qed.

Lemma append_nil_r (s : string) : (s ++ EmptyString)%string = s.
Proof. induction s as [|x s IH]; [reflexivity|]. rewrite append_cons, IH. reflexivity. Qed.

(** Printing a big-endian integer with two digits per byte prints the
    bytes. *)
Lemma Sprintf_be_decode bs :
  (1 <= length bs <= 8)%nat ->
  Sprintf_0x (2 * length bs) (be_decode bs) = EncodeToString bs.
Proof.
  intros Hl. rewrite Sprintf_0x_fixed.
  - rewrite fixed_be_decode. apply append_nil_r.
  - lia.
  - pose proof (be_decode_range bs) as Hr.
    replace (16 ^ Z.of_nat (2 * length bs)) with (256 ^ Z.of_nat (length bs)); [exact Hr|].
    rewrite Nat2Z.inj_mul, Z.pow_mul_r by lia. reflexivity.
Qed.

Lemma Sprintf_byte b : Sprintf_0x 2 (byte_to_Z b) = EncodeToString [b].
Proof.
  replace (byte_to_Z b) with (be_decode [b]) by (unfold be_decode; cbn; lia).
  apply (Sprintf_be_decode [b]). cbn. lia.
Qed.

Lemma EncodeToString_length bs : String.length (EncodeToString bs) = (2 * length bs)%nat.
Proof. induction bs as [|b bs IH]; [reflexivity|]. cbn [EncodeToString String.length length]. lia. Qed.

Lemma hexdigit_inj x y :
  0 <= x < 16 -> 0 <= y < 16 -> hexdigit x = hexdigit y -> x = y.
Proof.
  intros Hx Hy.
  assert (Hx' : x = Z.of_nat (Z.to_nat x)) by lia.
  assert (Hy' : y = Z.of_nat (Z.to_nat y)) by lia.
  rewrite Hx', Hy'. unfold hexdigit. rewrite !Nat2Z.id.
  assert (Hxn : (Z.to_nat x < 16)%nat) by lia.
  assert (Hyn : (Z.to_nat y < 16)%nat) by lia.
  generalize dependent (Z.to_nat y). generalize dependent (Z.to_nat x).
  intros n _ Hn m _ Hm.
  do 16 (destruct n as [|n]; [do 16 (destruct m as [|m]; [cbn; congruence|]); lia|]).
  lia.
Qed.

Lemma byte_of_digits x y :
  hexdigit (byte_to_Z x / 16) = hexdigit (byte_to_Z y / 16) ->
  hexdigit (byte_to_Z x mod 16) = hexdigit (byte_to_Z y mod 16) ->
  x = y.
Proof.
  intros H1 H2.
  pose proof (byte_to_Z_range x) as Hx. pose proof (byte_to_Z_range y) as Hy.
  apply hexdigit_inj in H1;
    [|split; [apply Z.div_pos; lia|apply Z.div_lt_upper_bound; lia]
     |split; [apply Z.div_pos; lia|apply Z.div_lt_upper_bound; lia]].
  apply hexdigit_inj in H2; [|apply Z.mod_pos_bound; lia|apply Z.mod_pos_bound; lia].
  rewrite <- (byte_of_to_Z x), <- (byte_of_to_Z y). f_equal.
  rewrite (Z.div_mod (byte_to_Z x) 16), (Z.div_mod (byte_to_Z y) 16) by lia.
  rewrite H1, H2. reflexivity.
Qed.

Lemma EncodeToString_inj a b : EncodeToString a = EncodeToString b -> a = b.
Proof.
  revert b. induction a as [|x a IH]; intros [|y b] H; try discriminate; [reflexivity|].
  cbn [EncodeToString] in H. injection H as H1 H2 H3.
  f_equal; [apply byte_of_digits; assumption|apply IH, H3].
Qed.

End Text.

(** ** GUID text: [guidBytesToHex] and [formatGUID] *)

Module GUID.

Import Text.

(** [hex.EncodeToString(b[:])]. *)
Definition guidBytesToHex (b : list byte) : string := EncodeToString b.

(** [d[i], d[j] = d[j], d[i]]; both indices are inside the array in every
    call made by [formatGUID]. *)
Definition swap (d : list byte) (i j : nat) : list byte :=
  <[j := nth i d x00]> (<[i := nth j d x00]> d).

(** The loop of the closure [reverse]: [i] runs up and [j] down until they
    meet. *)
Fixpoint reverse_loop (fuel : nat) (i j : Z) (d : list byte) : list byte :=
  match fuel with
  | O => d
  | S k =>
    if i <? j
    then reverse_loop k (i + 1) (j - 1) (swap d (Z.to_nat i) (Z.to_nat j))
    else d
  end.

(** [reverse(s, e)]; the loop makes at most [(e - s) / 2] rounds. *)
Definition reverse (d : list byte) (s e : Z) : list byte :=
  reverse_loop (Z.to_nat (e - s)) s (e - 1) d.

Definition dash : string := "-".

(** Lines 115-133.  [d] is a 16-byte array, whatever is copied into it. *)
Definition formatGUID (b : list byte) : string :=
  let d := copy (zeros 16) b in
  let d := reverse d 0 4 in
  let d := reverse d 4 6 in
  let d := reverse d 6 8 in
  Sprintf_0x 8 (be_decode (field d 0 4)) +:+ dash
  +:+ Sprintf_0x 4 (be_decode (field d 4 2)) +:+ dash
  +:+ Sprintf_0x 4 (be_decode (field d 6 2)) +:+ dash
  +:+ Sprintf_0x 2 (byte_to_Z (nth 8 d x00))
  +:+ Sprintf_0x 2 (byte_to_Z (nth 9 d x00)) +:+ dash
  +:+ Sprintf_0x 2 (byte_to_Z (nth 10 d x00))
  +:+ Sprintf_0x 2 (byte_to_Z (nth 11 d x00))
  +:+ Sprintf_0x 2 (byte_to_Z (nth 12 d x00))
  +:+ Sprintf_0x 2 (byte_to_Z (nth 13 d x00))
  +:+ Sprintf_0x 2 (byte_to_Z (nth 14 d x00))
  +:+ Sprintf_0x 2 (byte_to_Z (nth 15 d x00)).

(** The text form of a GUID: the first three groups byte-reversed. *)
Definition canonical (b : list byte) : string :=
  EncodeToString (rev (take 4 b)) +:+ dash
  +:+ EncodeToString (rev (take 2 (drop 4 b))) +:+ dash
  +:+ EncodeToString (rev (take 2 (drop 6 b))) +:+ dash
  +:+ EncodeToString (take 2 (drop 8 b)) +:+ dash
  +:+ EncodeToString (drop 10 b).

Lemma Sprintf_u32 bs : length bs = 4%nat -> Sprintf_0x 8 (be_decode bs) = EncodeToString bs.
Proof. intros H. rewrite <- (Sprintf_be_decode bs) by lia. rewrite H. reflexivity. Qed.

Lemma Sprintf_u16 bs : length bs = 2%nat -> Sprintf_0x 4 (be_decode bs) = EncodeToString bs.
Proof. intros H. rewrite <- (Sprintf_be_decode bs) by lia. rewrite H. reflexivity. Qed.

Lemma sixteen (b : list byte) :
  length b = 16%nat ->
  exists b0 b1 b2 b3 b4 b5 b6 b7 b8 b9 b10 b11 b12 b13 b14 b15,
    b = [b0; b1; b2; b3; b4; b5; b6; b7; b8; b9; b10; b11; b12; b13; b14; b15].
Proof.
  intros H.
  do 16 (destruct b as [|? b]; [discriminate|]).
  destruct b; [|discriminate].
  repeat eexists.
Qed.

Lemma formatGUID_canonical b : length b = 16%nat -> formatGUID b = canonical b.
Proof.
  intros H.
  destruct (sixteen b H)
    as (b0 & b1 & b2 & b3 & b4 & b5 & b6 & b7 & b8 & b9 & b10 & b11 & b12
        & b13 & b14 & b15 & ->).
  unfold formatGUID, canonical. cbv zeta.
  change (reverse (reverse (reverse (copy (zeros 16)
            [b0; b1; b2; b3; b4; b5; b6; b7; b8; b9; b10; b11; b12; b13; b14; b15])
            0 4) 4 6) 6 8)
    with [b3; b2; b1; b0; b5; b4; b7; b6; b8; b9; b10; b11; b12; b13; b14; b15].
  cbn [field take drop nth rev app].
  rewrite Sprintf_u32, !Sprintf_u16, !Sprintf_byte by reflexivity.
  reflexivity.
Qed.

Lemma append_length (a b : string) :
  String.length (a +:+ b) = (String.length a + String.length b)%nat.
Proof.
  induction a as [|c a IH]; [reflexivity|].
  rewrite append_cons. cbn [String.length]. rewrite IH. reflexivity.
Qed.

Lemma canonical_length b : length b = 16%nat -> String.length (canonical b) = 36%nat.
Proof.
  intros H. unfold canonical.
  rewrite !append_length, !EncodeToString_length, !length_rev, !length_take,
    !length_drop, H.
  reflexivity.
Qed.

Lemma canonical_inj a b :
  length a = 16%nat -> length b = 16%nat -> canonical a = canonical b -> a = b.
Proof.
  intros Ha Hb.
  destruct (sixteen a Ha)
    as (a0 & a1 & a2 & a3 & a4 & a5 & a6 & a7 & a8 & a9 & a10 & a11 & a12
        & a13 & a14 & a15 & ->).
  destruct (sixteen b Hb)
    as (b0 & b1 & b2 & b3 & b4 & b5 & b6 & b7 & b8 & b9 & b10 & b11 & b12
        & b13 & b14 & b15 & ->).
  unfold canonical. cbn [take drop rev app].
  intros E.
  assert (E' : EncodeToString
                 [a3; a2; a1; a0; a5; a4; a7; a6; a8; a9; a10; a11; a12; a13; a14; a15]
               = EncodeToString
                 [b3; b2; b1; b0; b5; b4; b7; b6; b8; b9; b10; b11; b12; b13; b14; b15]).
  { cbv [EncodeToString append dash] in E. cbv [EncodeToString].
    injection E as -> -> -> -> -> -> -> -> -> -> -> -> -> -> -> -> -> ->
      -> -> -> -> -> -> -> -> -> -> -> -> -> ->.
    reflexivity. }
  apply EncodeToString_inj in E'. congruence.
Qed.

End GUID.

(** ** Partition type names: [knownGuidPairs], [init] and [lookupTypeName] *)

Module Names.

Definition knownGuidPairs : list (string * string) :=
  [ ("c12a7328-f81f-11d2-ba4b-00a0c93ec93b", "EFI System Partition");
    ("21686148-6449-6e6f-744e-656564454649", "BIOS Boot Partition");
    ("0fc63daf-8483-4772-8e79-3d69d8477de4", "Linux filesystem data");
    ("0657fd6d-a4ab-43c4-84e5-0933c84b4f4f", "Linux swap");
    ("e6d6d379-f507-44c2-a23c-238f2a3df928", "Linux LVM");
    ("a19d880f-05fc-4d3b-a006-743f0f84911e", "Linux root (old coreos style)");
    ("930a0d1a-6b73-4b1a-9cc9-9e6d2a3f3b9d", "Linux home (non-standard)");
    ("0bfb3f1a-9b27-4e6f-8d3a-000000000000", "Linux reserved (nonstandard)");
    ("9163b3ee-6b79-4a9a-9a8b-3a44f2b6f1f5", "Linux RAID");
    ("1777a15b-d0a1-4ef9-b0c8-2f2f6b6a4a3f", "Linux reserved (vendor)");
    ("e3c9e316-0b5c-4db8-817d-f92df00215ae", "Microsoft Reserved Partition (MSR)");
    ("ebd0a0a2-b9e5-4433-87c0-68b6b72699c7", "Microsoft Basic Data");
    ("de94bba4-06d1-4d40-a16a-bfd50179d6ac", "Windows Recovery Environment");
    ("fe3a2a5d-4f32-41a7-b725-accc3285a309", "ChromeOS rootfs");
    ("44479540-f297-41b2-9af7-d131d5f0458a", "Android fstab (vendor-defined)");
    ("024dee41-33e7-11d3-9d69-0008c781f39f", "MBR partition scheme GUID (protective MBR)");
    ("a19d880f-05fc-4d3b-a006-743f0f84911e", "QNX6 filesystem / QNX6 power-safe");
    ("e3c9e316-0b5c-4db8-817d-f92df00215ae", "Embedded vendor reserved (MSR GUID reused)");
    ("b921b045-1df0-41c3-af44-4c6f280d3fae", "Linux / boot partition by GUID used by some tools");
    ("37a0f9a0-5a8a-4e6f-8b2a-e7a4b7f55a3f", "Non-standard vendor partition");
    ("e2a1b0f0-5a0f-11d3-9d69-0008c781f39f", "Partition map (rare)") ]%string.

Section Lookup.

(** [strings.ToLower], left abstract: what follows holds for any function
    taken for it. *)
Variable ToLower : string -> string.

(** One round of the loop of [init]. *)
Definition enter (knownTypes : gmap string string) (p : string * string)
  : gmap string string :=
  let key := ToLower (fst p) in
  match knownTypes !! key with
  | Some _ => knownTypes
  | None => <[key := snd p]> knownTypes
  end.

(** [init]: the map built from the pairs in source order. *)
Definition knownTypes : gmap string string := fold_left enter knownGuidPairs ∅.

Definition lookupTypeName (g : string) : string :=
  let g := ToLower g in
  match knownTypes !! g with
  | Some v => v
  | None => EmptyString
  end.

(** The first pair whose lower-cased GUID is [key]. *)
Fixpoint first_named (pairs : list (string * string)) (key : string)
  : option string :=
  match pairs with
  | [] => None
  | p :: rest =>
    if decide (ToLower (fst p) = key) then Some (snd p) else first_named rest key
  end.

Lemma enter_all pairs (m : gmap string string) key :
  fold_left enter pairs m !! key
  = match m !! key with
    | Some v => Some v
    | None => first_named pairs key
    end.
Proof.
  revert m. induction pairs as [|p pairs IH]; intros m.
  - cbn. destruct (m !! key); reflexivity.
  - cbn [fold_left first_named]. rewrite IH. unfold enter. cbv zeta.
    destruct (m !! ToLower p.1) as [v|] eqn:E.
    + destruct (m !! key) as [w|] eqn:Ek; [reflexivity|].
      destruct (decide (ToLower p.1 = key)) as [<-|]; [congruence|reflexivity].
    + destruct (decide (ToLower p.1 = key)) as [<-|Hne].
      * rewrite lookup_insert_eq, E. reflexivity.
      * rewrite lookup_insert_ne by exact Hne. reflexivity.
Qed.

Lemma lookupTypeName_first g :
  lookupTypeName g
  = match first_named knownGuidPairs (ToLower g) with
    | Some v => v
    | None => EmptyString
    end.
Proof.
  unfold lookupTypeName, knownTypes. cbv zeta.
  rewrite enter_all, lookup_empty. reflexivity.
Qed.

Lemma first_named_None pairs key :
  first_named pairs key = None <-> forall p, In p pairs -> ToLower (fst p) <> key.
Proof.
  induction pairs as [|q pairs IH]; cbn [first_named In].
  - split; [intros _ p []|reflexivity].
  - destruct (decide (ToLower q.1 = key)) as [E|E].
    + split; [discriminate|]. intros H. exfalso. apply (H q); [left; reflexivity|exact E].
    + rewrite IH. split.
      * intros H p [<-|Hp]; [exact E|apply H, Hp].
      * intros H p Hp. apply H. right. exact Hp.
Qed.

Lemma first_named_Some pairs key v :
  first_named pairs key = Some v -> exists p, In p pairs /\ snd p = v.
Proof.
  induction pairs as [|q pairs IH]; cbn [first_named In]; [discriminate|].
  destruct (decide (ToLower q.1 = key)) as [E|E].
  - intros [= <-]. exists q. split; [left; reflexivity|reflexivity].
  - intros H. destruct (IH H) as (p & Hp & Hv). exists p. split; [right; exact Hp|exact Hv].
Qed.

End Lookup.

Lemma names_not_empty : forall p, In p knownGuidPairs -> snd p <> EmptyString.
Proof.
  intros p Hp. unfold knownGuidPairs in Hp. cbn [In] in Hp.
  repeat (destruct Hp as [<-|Hp]; [discriminate|]). destruct Hp.
Qed.

End Names.

(** X15. [formatGUID] prints a 16-byte GUID in the canonical text form: 36
    characters, lower-case hexadecimal, the first three groups (4, 2 and 2
    bytes) byte-reversed and the last two groups (2 and 6 bytes) in storage
    order, separated by dashes.  The three in-place reversals followed by
    the big-endian reads and the zero-padded [%x] verbs come to exactly
    that. *)
Theorem formatGUID_prints_mixed_endian (b : list byte) :
  length b = 16%nat ->
  GUID.formatGUID b
  = (Text.EncodeToString (rev (take 4 b)) +:+ "-"
     +:+ Text.EncodeToString (rev (take 2 (drop 4 b))) +:+ "-"
     +:+ Text.EncodeToString (rev (take 2 (drop 6 b))) +:+ "-"
     +:+ Text.EncodeToString (take 2 (drop 8 b)) +:+ "-"
     +:+ Text.EncodeToString (drop 10 b))%string
  /\ String.length (GUID.formatGUID b) = 36%nat.
Proof.
  intros H. rewrite (GUID.formatGUID_canonical b H). split.
  - reflexivity.
  - apply GUID.canonical_length, H.
Qed.

(** The type GUID of an EFI system partition as stored on disk. *)
Definition esp_guid : list byte :=
  [x28; x73; x2a; xc1; x1f; xf8; xd2; x11; xba; x4b; x00; xa0; xc9; x3e; xc9; x3b].

Lemma formatGUID_prints_mixed_endian_witness :
  GUID.formatGUID esp_guid = "c12a7328-f81f-11d2-ba4b-00a0c93ec93b"%string.
Proof.
  rewrite (proj1 (formatGUID_prints_mixed_endian esp_guid eq_refl)).
  vm_compute. reflexivity.
Defined.

(** X16. [formatGUID] is injective on 16-byte GUIDs: different GUIDs never
    print alike, so looking a type up by its text is looking it up by its
    bytes. *)
Theorem formatGUID_injective (a b : list byte) :
  length a = 16%nat -> length b = 16%nat ->
  GUID.formatGUID a = GUID.formatGUID b -> a = b.
Proof.
  intros Ha Hb. rewrite (GUID.formatGUID_canonical a Ha), (GUID.formatGUID_canonical b Hb).
  apply GUID.canonical_inj; assumption.
Qed.

Lemma formatGUID_injective_witness :
  esp_guid = byte_of_Z <$> (byte_to_Z <$> esp_guid).
Proof.
  apply (formatGUID_injective esp_guid (byte_of_Z <$> (byte_to_Z <$> esp_guid)));
    vm_compute; reflexivity.
Defined.

(** X17. The name table is built first-pair-wins: [lookupTypeName] returns
    the name of the first pair of [knownGuidPairs] whose lower-cased GUID
    equals the lower-cased argument, and the empty string exactly when there
    is no such pair.  The two pairs that repeat an earlier GUID are dead:
    their names, "QNX6 filesystem / QNX6 power-safe" and "Embedded vendor
    reserved (MSR GUID reused)", are returned for no argument.  This holds
    whatever function [strings.ToLower] is. *)
Theorem lookupTypeName_first_pair_wins (ToLower : string -> string) (g : string) :
  Names.lookupTypeName ToLower g
  = match Names.first_named ToLower Names.knownGuidPairs (ToLower g) with
    | Some v => v
    | None => EmptyString
    end
  /\ (Names.lookupTypeName ToLower g = EmptyString
      <-> forall p, In p Names.knownGuidPairs -> ToLower (fst p) <> ToLower g)
  /\ Names.lookupTypeName ToLower g <> "QNX6 filesystem / QNX6 power-safe"%string
  /\ Names.lookupTypeName ToLower g
     <> "Embedded vendor reserved (MSR GUID reused)"%string.
Proof.
  split; [apply Names.lookupTypeName_first|].
  rewrite Names.lookupTypeName_first.
  split; [|split].
  - rewrite <- Names.first_named_None.
    destruct (Names.first_named ToLower Names.knownGuidPairs (ToLower g)) as [v|] eqn:E.
    + split; [|discriminate]. intros ->.
      apply Names.first_named_Some in E as (p & Hp & Hv).
      exfalso. exact (Names.names_not_empty p Hp Hv).
    + split; reflexivity.
  - unfold Names.knownGuidPairs. cbn [Names.first_named fst snd].
    repeat (destruct (decide _) as [?|?]; [first [discriminate|congruence]|]).
    discriminate.
  - unfold Names.knownGuidPairs. cbn [Names.first_named fst snd].
    repeat (destruct (decide _) as [?|?]; [first [discriminate|congruence]|]).
    discriminate.
Qed.

(** ** Partition names: [utf16leNameToString] *)

Module NameText.

(** The loop of lines 145-151 over the 72-byte array [b]: little-endian
    code units are collected up to the first zero unit. *)
Fixpoint units (fuel : nat) (i : Z) (b : list byte) (u16 : list Z) : list Z :=
  match fuel with
  | O => u16
  | S k =>
    if i <? 72 then
      let u := le_decode (take 2 (drop (Z.to_nat i) b)) in
      if u =? 0 then u16 else units k (i + 2) b (u16 ++ [u])
    else u16
  end.

(** [utf16.Decode]: surrogate pairs are combined, a lone surrogate becomes
    U+FFFD. *)
Fixpoint Decode (s : list Z) : list Z :=
  match s with
  | [] => []
  | r :: rest =>
    if (r <? 0xd800) || (0xe000 <=? r) then r :: Decode rest
    else if r <? 0xdc00 then
      match rest with
      | r2 :: rest' =>
        if (0xdc00 <=? r2) && (r2 <? 0xe000)
        then Z.lor (Z.shiftl (r - 0xd800) 10) (r2 - 0xdc00) + 0x10000 :: Decode rest'
        else 0xFFFD :: Decode rest
      | [] => [0xFFFD]
      end
    else 0xFFFD :: Decode rest
  end.

(** The code points of the string returned by [utf16leNameToString]. *)
Definition utf16leNameToString (b : list byte) : list Z :=
  Decode (units 36 0 b []).

(** The code units of a name field, two bytes each. *)
Fixpoint code_units (n : nat) (b : list byte) : list Z :=
  match n with
  | O => []
  | S k => le_decode (take 2 b) :: code_units k (drop 2 b)
  end.

(** The units in front of the first zero unit. *)
Fixpoint text_units (us : list Z) : list Z :=
  match us with
  | [] => []
  | u :: rest => if u =? 0 then [] else u :: text_units rest
  end.

Lemma units_text (k : nat) : forall (i : nat) b acc,
  (k + i = 36)%nat ->
  units k (2 * Z.of_nat i) b acc
  = acc ++ text_units (code_units k (drop (2 * i) b)).
Proof.
  induction k as [|k IH]; intros i b acc Hk.
  - cbn. rewrite app_nil_r. reflexivity.
  - cbn [units code_units text_units].
    destruct (2 * Z.of_nat i <? 72) eqn:E; [|apply Z.ltb_ge in E; lia].
    replace (Z.to_nat (2 * Z.of_nat i)) with (2 * i)%nat by lia.
    destruct (le_decode (take 2 (drop (2 * i) b)) =? 0).
    + rewrite app_nil_r. reflexivity.
    + replace (2 * Z.of_nat i + 2) with (2 * Z.of_nat (S i)) by lia.
      rewrite IH by lia. rewrite <- app_assoc. cbn [app].
      rewrite drop_drop.
      replace (2 * S i)%nat with (2 * i + 2)%nat by lia. reflexivity.
Qed.

Lemma utf16leNameToString_text b :
  utf16leNameToString b = Decode (text_units (code_units 36 b)).
Proof.
  unfold utf16leNameToString.
  change (units 36 0 b []) with (units 36 (2 * Z.of_nat 0) b []).
  rewrite (units_text 36 0 b []) by reflexivity. reflexivity.
Qed.

Lemma text_units_app us rest :
  Forall (fun u => u <> 0) us ->
  text_units (us ++ 0 :: rest) = us.
Proof.
  induction 1 as [|u us Hu _ IH]; cbn [app text_units]; [reflexivity|].
  destruct (u =? 0) eqn:E; [apply Z.eqb_eq in E; contradiction|].
  rewrite IH. reflexivity.
Qed.

Lemma code_units_app (k : nat) : forall a b n,
  length a = (2 * k)%nat ->
  code_units (k + n) (a ++ b) = code_units k a ++ code_units n b.
Proof.
  induction k as [|k IH]; intros a b n Ha.
  - destruct a; [reflexivity|discriminate].
  - destruct a as [|x [|y a]]; try (cbn in Ha; lia).
    cbn [Nat.add code_units app take drop].
    rewrite !take_0, !drop_0.
    cbn in Ha. rewrite IH by lia. reflexivity.
Qed.

Lemma Decode_ascii us :
  Forall (fun u => 0 <= u < 0xd800) us -> Decode us = us.
Proof.
  induction 1 as [|u us Hu _ IH]; [reflexivity|].
  cbn [Decode]. destruct (u <? 55296) eqn:E; [|apply Z.ltb_ge in E; lia].
  cbn [orb]. rewrite IH. reflexivity.
Qed.

End NameText.

(** X18. [utf16leNameToString] reads the name field as little-endian 16-bit
    units and stops at the first zero unit: for a name made of [k < 36]
    non-zero units followed by a zero unit, the result is the decoding of
    those [k] units, whatever the bytes behind the terminator are; units
    below the surrogate range decode to themselves.  A field without any
    zero unit is decoded in full, all 36 units. *)
Theorem name_ends_at_first_zero_unit (k : nat) (text rest : list byte) :
  length text = (2 * k)%nat -> (k < 36)%nat ->
  Forall (fun u => u <> 0) (NameText.code_units k text) ->
  NameText.utf16leNameToString (text ++ [x00; x00] ++ rest)
  = NameText.Decode (NameText.code_units k text)
  /\ (Forall (fun u => 0 <= u < 0xd800) (NameText.code_units k text) ->
      NameText.utf16leNameToString (text ++ [x00; x00] ++ rest)
      = NameText.code_units k text)
  /\ (forall b, Forall (fun u => u <> 0) (NameText.code_units 36 b) ->
        NameText.utf16leNameToString b
        = NameText.Decode (NameText.code_units 36 b)).
Proof.
  intros Hl Hk Hnz.
  assert (H1 : NameText.utf16leNameToString (text ++ [x00; x00] ++ rest)
               = NameText.Decode (NameText.code_units k text)).
  { rewrite NameText.utf16leNameToString_text.
    replace 36%nat with (k + S (35 - k))%nat at 1 by lia.
    rewrite NameText.code_units_app by exact Hl.
    cbn [NameText.code_units app take].
    change (le_decode [x00; x00]) with 0.
    rewrite NameText.text_units_app by exact Hnz. reflexivity. }
  split; [exact H1|]. split.
  - intros Hlow. rewrite H1. apply NameText.Decode_ascii, Hlow.
  - intros b Hb. rewrite NameText.utf16leNameToString_text. f_equal.
    induction Hb as [|u us Hu _ IH]; [reflexivity|].
    cbn [NameText.text_units].
    destruct (u =? 0) eqn:E; [apply Z.eqb_eq in E; contradiction|].
    rewrite IH. reflexivity.
Qed.

Lemma name_ends_at_first_zero_unit_witness :
  NameText.utf16leNameToString ([x45; x00; x46; x00; x49; x00] ++ [x00; x00] ++ zeros 64)
  = [69; 70; 73]
  /\ NameText.utf16leNameToString
       ([x45; x00; x46; x00; x49; x00] ++ [x00; x00] ++ repeat xff 64)
     = [69; 70; 73].
Proof.
  assert (Hnz : Forall (fun u => u <> 0)
                  (NameText.code_units 3 [x45; x00; x46; x00; x49; x00])).
  { repeat constructor; vm_compute; congruence. }
  assert (Hlow : Forall (fun u => 0 <= u < 0xd800)
                   (NameText.code_units 3 [x45; x00; x46; x00; x49; x00])).
  { repeat constructor; vm_compute; congruence. }
  split.
  - exact (proj1 (proj2 (name_ends_at_first_zero_unit 3
             [x45; x00; x46; x00; x49; x00] (zeros 64) eq_refl ltac:(lia) Hnz)) Hlow).
  - exact (proj1 (proj2 (name_ends_at_first_zero_unit 3
             [x45; x00; x46; x00; x49; x00] (repeat xff 64) eq_refl ltac:(lia) Hnz)) Hlow).
Defined.

(** ** [main] of [all_gpt_info.go] *)

Module AllInfo.

Import Header Partition Inspect.

(** [binary.Read] of a [GPTEntry] (the layout of [GPTPartition]) from an
    in-memory reader; it fails when fewer than 128 bytes are left. *)
Definition decode_entry (b : list byte) : option GPTPartition :=
  if (Partition.size <=? length b)%nat then Some (Partition.of_bytes b) else None.

(** What the loop prints for one entry. *)
Record line := mkLine {
  l_index : Z;
  l_ptHex : string;
  l_ptSyn : string;
  l_ptName : string;
  l_ugHex : string;
  l_ugSyn : string;
  l_start : Z;
  l_end : Z;
  l_attr : Z;
  l_name : list Z
}.

(** What a run prints: the decoded header, the two recomputed checksums
    and one block per listed entry. *)
Record report := mkReport {
  r_hdr : GPTHeader;
  r_calcHdrCRC : Z;
  r_calcTableCRC : Z;
  r_lines : list line
}.

Section Main.

Variable ToLower : string -> string.

(** Lines 283-309. *)
Definition describe (i : Z) (e : GPTPartition) : line :=
  let ptSyn := GUID.formatGUID (TypeGUID e) in
  let ptName := Names.lookupTypeName ToLower ptSyn in
  {| l_index := i;
     l_ptHex := GUID.guidBytesToHex (TypeGUID e);
     l_ptSyn := ptSyn;
     l_ptName := if decide (ptName = EmptyString) then "<unknown>"%string else ptName;
     l_ugHex := GUID.guidBytesToHex (PartitionGUID e);
     l_ugSyn := GUID.formatGUID (PartitionGUID e);
     l_start := StartLBA e;
     l_end := EndLBA e;
     l_attr := Attributes e;
     l_name := NameText.utf16leNameToString (Name e) |}.

(** Lines 262-310: the loop over the entries, [int] arithmetic on a 64-bit
    target.  [None] is the slice-bounds panic. *)
Fixpoint entries (fuel : nat) (i num entrySize : Z) (partBuf : list byte)
  : option (list line) :=
  match fuel with
  | O => Some []
  | S k =>
    if i <? num then
      let offset := i64 (i * entrySize) in
      if Z.of_nat (length partBuf) <? i64 (offset + entrySize) then Some []
      else
        match slice partBuf offset (i64 (offset + entrySize)) with
        | None => None
        | Some s =>
          match decode_entry s with
          | None => Some []
          | Some e =>
            if isZero (TypeGUID e)
            then entries k (i + 1) num entrySize partBuf
            else
              match entries k (i + 1) num entrySize partBuf with
              | Some rest => Some (describe i e :: rest)
              | None => None
              end
          end
        end
    else Some []
  end.

(** Lines 253-260. *)
Definition entrySize_of (hdr : GPTHeader) : Z :=
  if PartitionEntrySize hdr =? 0 then 128 else PartitionEntrySize hdr.

Definition num_of (hdr : GPTHeader) (partBuf : list byte) : Z :=
  if NumPartitions hdr =? 0
  then Z.quot (Z.of_nat (length partBuf)) (entrySize_of hdr)
  else NumPartitions hdr.

(** [readAtOrFail]. *)
Definition readAtOrFail (n off : Z) : IO (list byte) :=
  orFatal "read failed" (ReadAt n off).

(** Lines 188-215: the two ways the header sector and the table are
    obtained. *)
Definition load (regular : bool) (size : Z) : IO (list byte * list byte) :=
  if regular && (size =? 16896) then
    all <-- readAtOrFail size 0 ;;
    s1 <-- orPanic "slice bounds out of range" (slice all SECTOR_SIZE (2 * SECTOR_SIZE)) ;;
    s2 <-- orPanic "slice bounds out of range"
             (slice all (2 * SECTOR_SIZE) (Z.of_nat (length all))) ;;
    ret (copy (zeros SECTOR_SIZE) s1, copy (zeros (128 * 128)) s2)
  else
    hdrBuf <-- readAtOrFail SECTOR_SIZE SECTOR_SIZE ;;
    hdr <-- orFatal "decode header" (ret (Header.decode hdrBuf)) ;;
    let tableSize := i64 (i64 (NumPartitions hdr) * i64 (PartitionEntrySize hdr)) in
    let tableSize := if tableSize =? 0 then 128 * 128 else tableSize in
    if tableSize <? 0 then panic "makeslice: len out of range" else
    partBuf <-- readAtOrFail tableSize (lba_offset (PartitionTableLBA hdr)) ;;
    ret (hdrBuf, partBuf).

(** [main] for a file of the given kind ([fi.Mode().IsRegular()]). *)
Definition main (regular : bool) : IO report :=
  size <-- Stat ;;
  bufs <-- load regular size ;;
  let hdrBuf := fst bufs in
  let partBuf := snd bufs in
  hdr <-- orFatal "decode header" (ret (Header.decode hdrBuf)) ;;
  match recalc hdrBuf hdr with
  | SliceOutOfRange => panic "slice bounds out of range"
  | IndexOutOfRange => panic "index out of range"
  | Crc calcHdrCRC _ =>
    let calcTableCRC := ChecksumIEEE partBuf in
    let entrySize := entrySize_of hdr in
    let num := num_of hdr partBuf in
    lines <-- orPanic "slice bounds out of range"
                (entries (Z.to_nat num) 0 num entrySize partBuf) ;;
    ret {| r_hdr := hdr; r_calcHdrCRC := calcHdrCRC;
           r_calcTableCRC := calcTableCRC; r_lines := lines |}
  end.

(** The slots a listing covers: slot [i] as far as it lies inside the
    buffer. *)
Definition slot_bytes (entrySize : Z) (partBuf : list byte) (i : Z) : list byte :=
  take (Z.to_nat entrySize) (drop (Z.to_nat (i * entrySize)) partBuf).

Definition listed (entrySize : Z) (partBuf : list byte) (i : Z) : list line :=
  let e := Partition.of_bytes (slot_bytes entrySize partBuf i) in
  if isZero (TypeGUID e) then [] else [describe i e].

End Main.

End AllInfo.

Module Listing.

Import Header Partition AllInfo.

Section Loop.

Variable ToLower : string -> string.
Variables (num entrySize : Z) (partBuf : list byte).
Hypothesis Hes : 0 < entrySize < 2 ^ 32.
Hypothesis Hnum : 0 <= num < 2 ^ 32.
Hypothesis Hlen : Z.of_nat (length partBuf) < 2 ^ 62.

(** The number of slots the loop visits before it stops. *)
Definition visited : Z := Z.min num (Z.of_nat (length partBuf) / entrySize).

Lemma visited_range : 0 <= visited <= num.
Proof.
  unfold visited.
  assert (0 <= Z.of_nat (length partBuf) / entrySize) by (apply Z.div_pos; lia).
  lia.
Qed.

Lemma inside i : 0 <= i < visited -> i * entrySize + entrySize <= Z.of_nat (length partBuf).
Proof.
  unfold visited. intros Hi.
  assert (H1 : i + 1 <= Z.of_nat (length partBuf) / entrySize) by lia.
  pose proof (Z.mul_div_le (Z.of_nat (length partBuf)) entrySize ltac:(lia)) as H2.
  nia.
Qed.

Lemma outside i :
  visited <= i -> i < num -> 0 <= i ->
  Z.of_nat (length partBuf) < i * entrySize + entrySize.
Proof.
  unfold visited. intros Hv Hi H0.
  assert (H1 : Z.of_nat (length partBuf) / entrySize <= i) by lia.
  pose proof (Z.mod_pos_bound (Z.of_nat (length partBuf)) entrySize ltac:(lia)) as H2.
  pose proof (Z.div_mod (Z.of_nat (length partBuf)) entrySize ltac:(lia)) as H3.
  nia.
Qed.

(** With entries of at least 128 bytes the loop lists the occupied slots
    among the visited ones, in index order. *)
Lemma entries_from (fuel : nat) : forall i,
  128 <= entrySize -> 0 <= i <= visited -> Z.of_nat fuel = num - i ->
  entries ToLower fuel i num entrySize partBuf
  = Some (concat (listed ToLower entrySize partBuf <$> seqZ i (visited - i))).
Proof.
  pose proof visited_range as Hv.
  induction fuel as [|k IH]; intros i H128 Hi Hf.
  - replace (visited - i) with 0 by lia. reflexivity.
  - cbn [entries].
    destruct (i <? num) eqn:E; [|apply Z.ltb_ge in E; lia]. clear E.
    destruct (Z_lt_le_dec i visited) as [Hin|Hout].
    + pose proof (inside i ltac:(lia)) as Hfit.
      assert (Ho : i64 (i * entrySize) = i * entrySize) by (apply i64_small; nia).
      rewrite Ho.
      assert (Ho2 : i64 (i * entrySize + entrySize) = i * entrySize + entrySize)
        by (apply i64_small; nia).
      rewrite Ho2.
      destruct (Z.of_nat (length partBuf) <? i * entrySize + entrySize) eqn:E;
        [apply Z.ltb_lt in E; lia|]. clear E.
      rewrite slice_Some by nia.
      replace (i * entrySize + entrySize - i * entrySize) with entrySize by lia.
      fold (slot_bytes entrySize partBuf i).
      assert (Hsl : length (slot_bytes entrySize partBuf i) = Z.to_nat entrySize).
      { unfold slot_bytes. rewrite length_take, length_drop. nia. }
      unfold decode_entry, Partition.size. rewrite Hsl.
      destruct (128 <=? Z.to_nat entrySize)%nat eqn:E;
        [|apply Nat.leb_gt in E; lia]. clear E.
      rewrite (IH (i + 1)) by lia.
      replace (visited - i) with (Z.succ (visited - (i + 1))) by lia.
      rewrite (seqZ_cons i) by lia.
      replace (Z.pred (Z.succ (visited - (i + 1)))) with (visited - (i + 1)) by lia.
      replace (Z.succ i) with (i + 1) by lia.
      rewrite fmap_cons. cbn [concat].
      assert (Hl : listed ToLower entrySize partBuf i
                   = if isZero (TypeGUID (of_bytes (slot_bytes entrySize partBuf i)))
                     then []
                     else [describe ToLower i (of_bytes (slot_bytes entrySize partBuf i))])
        by reflexivity.
      rewrite Hl.
      destruct (isZero (TypeGUID (of_bytes (slot_bytes entrySize partBuf i))));
        reflexivity.
    + replace (visited - i) with 0 by lia. cbn [seqZ fmap list_fmap concat].
      pose proof (outside i Hout ltac:(lia) ltac:(lia)) as Hbig.
      assert (Hle : i * entrySize <= Z.of_nat (length partBuf)).
      { unfold visited in Hi.
        pose proof (Z.mul_div_le (Z.of_nat (length partBuf)) entrySize ltac:(lia)).
        nia. }
      rewrite (i64_small (i * entrySize)) by nia.
      rewrite (i64_small (i * entrySize + entrySize)) by nia.
      destruct (Z.of_nat (length partBuf) <? i * entrySize + entrySize) eqn:E;
        [reflexivity|apply Z.ltb_ge in E; lia].
Qed.

(** With entries shorter than 128 bytes nothing is listed: the first
    [binary.Read] fails, or the first slot does not fit. *)
Lemma entries_short (fuel : nat) :
  entrySize < 128 -> entries ToLower fuel 0 num entrySize partBuf = Some [].
Proof.
  intros Hs. destruct fuel as [|k]; [reflexivity|].
  cbn [entries]. destruct (0 <? num); [|reflexivity].
  change (0 * entrySize) with 0. change (i64 0) with 0.
  rewrite Z.add_0_l, (i64_small entrySize) by lia.
  destruct (Z.of_nat (length partBuf) <? entrySize) eqn:E; [reflexivity|].
  apply Z.ltb_ge in E.
  rewrite slice_Some by lia.
  unfold decode_entry, Partition.size.
  rewrite length_take, length_drop.
  destruct (128 <=? _)%nat eqn:E2; [apply Nat.leb_le in E2; lia|reflexivity].
Qed.

End Loop.

End Listing.

Module Loading.

Import Header Partition AllInfo.

Lemma read_bytes_lookup f off (n i : nat) :
  read_bytes f off n !! i
  = if decide (i < n)%nat then Some (f_at f (off + Z.of_nat i)) else None.
Proof.
  unfold read_bytes.
  change (map (fun k => f_at f (off + Z.of_nat k)) (seq 0 n))
    with ((fun k => f_at f (off + Z.of_nat k)) <$> seq 0 n).
  rewrite list_lookup_fmap.
  destruct (decide (i < n)%nat) as [Hi|Hi].
  - rewrite lookup_seq_lt by exact Hi. reflexivity.
  - rewrite lookup_seq_ge by lia. reflexivity.
Qed.

(** A window of what was read is what a read of the window returns. *)
Lemma read_bytes_window f off (m k n : nat) :
  (k + n <= m)%nat ->
  take n (drop k (read_bytes f off m)) = read_bytes f (off + Z.of_nat k) n.
Proof.
  intros H. apply list_eq. intros i.
  destruct (decide (i < n)%nat) as [Hi|Hi].
  - rewrite lookup_take_lt, lookup_drop, !read_bytes_lookup by exact Hi.
    destruct (decide (k + i < m)%nat); [|lia].
    destruct (decide (i < n)%nat); [|lia].
    do 2 f_equal. lia.
  - rewrite lookup_take_ge by lia. rewrite read_bytes_lookup.
    destruct (decide (i < n)%nat); [lia|reflexivity].
Qed.

Lemma copy_short (dst src : list byte) :
  (length src <= length dst)%nat -> copy dst src = src ++ drop (length src) dst.
Proof. intros H. unfold copy. rewrite take_ge by lia. reflexivity. Qed.

Lemma slice_read f off (m : nat) lo hi :
  0 <= lo -> lo <= hi -> hi <= Z.of_nat m ->
  slice (read_bytes f off m) lo hi = Some (read_bytes f (off + lo) (Z.to_nat (hi - lo))).
Proof.
  intros H0 H1 H2. rewrite slice_Some by (rewrite ?read_bytes_length; lia).
  rewrite (read_bytes_window f off m (Z.to_nat lo) (Z.to_nat (hi - lo))) by lia.
  do 2 f_equal. lia.
Qed.

Lemma copy_pad (src : list byte) a b :
  Z.of_nat (length src) = a -> 0 <= b -> copy (zeros (a + b)) src = src ++ zeros b.
Proof.
  intros Ha Hb.
  rewrite copy_short by (unfold zeros; rewrite repeat_length; lia).
  f_equal. unfold zeros. rewrite Seal.drop_repeat. f_equal. lia.
Qed.

(** The blob path: sector 1 of the file and what follows it, padded with
    512 zero bytes to the size of a 128 x 128 table. *)
Lemma load_blob f :
  f_size f = 16896 ->
  load true (f_size f) (open f)
  = (Ok (read_bytes f 512 (Z.to_nat 512),
         read_bytes f 1024 (Z.to_nat 15872) ++ zeros 512), open f).
Proof.
  intros Hsz. unfold load, readAtOrFail. rewrite Hsz.
  cbn [andb]. change (16896 =? 16896) with true. cbv iota.
  rewrite Exec.step_ReadAt. cbn [disk open]. rewrite Hsz.
  change (0 <? 0) with false. change (16896 =? 0) with false.
  change (0 + 16896 <=? 16896) with true. cbn [orb]. cbv iota.
  assert (Hn : Z.of_nat (Z.to_nat 16896) = 16896) by lia.
  revert Hn. generalize (Z.to_nat 16896). intros n Hn.
  rewrite Exec.step_orPanic.
  rewrite (slice_read f 0 n) by (unfold SECTOR_SIZE; lia).
  rewrite Exec.step_orPanic.
  rewrite read_bytes_length, Hn.
  rewrite (slice_read f 0 n) by (unfold SECTOR_SIZE; lia).
  unfold SECTOR_SIZE.
  change (0 + 512) with 512. change (2 * 512 - 512) with 512.
  change (0 + 2 * 512) with 1024. change (16896 - 2 * 512) with 15872.
  assert (H1 : copy (zeros 512) (read_bytes f 512 (Z.to_nat 512))
               = read_bytes f 512 (Z.to_nat 512)).
  { apply TableCRC.copy_exact. rewrite read_bytes_length.
    unfold zeros. rewrite repeat_length. reflexivity. }
  assert (H2 : copy (zeros (128 * 128)) (read_bytes f 1024 (Z.to_nat 15872))
               = read_bytes f 1024 (Z.to_nat 15872) ++ zeros 512).
  { change (128 * 128) with (15872 + 512). apply copy_pad; [|lia].
    rewrite read_bytes_length. lia. }
  unfold ret. rewrite H1, H2. reflexivity.
Qed.

Lemma isZero_Forall (b : list byte) : Forall (fun x => x = x00) b -> isZero b = true.
Proof.
  induction 1 as [|x b -> _ IH]; [reflexivity|]. cbn. exact IH.
Qed.

(** A slot that starts in the padding has an all-zero type GUID. *)
Lemma padded_slot_empty (data : list byte) pad es i :
  Z.of_nat (length data) <= i * es ->
  isZero (TypeGUID (Partition.of_bytes (slot_bytes es (data ++ zeros pad) i))) = true.
Proof.
  intros H. apply isZero_Forall.
  unfold Partition.of_bytes, field, slot_bytes. cbn [TypeGUID].
  rewrite drop_app_ge by lia.
  apply Forall_take, Forall_drop, Forall_take, Forall_drop.
  unfold zeros. induction (Z.to_nat pad) as [|n IH]; constructor; [reflexivity|exact IH].
Qed.

End Loading.

Module Report.

Import Header Partition Inspect AllInfo.

Section Runs.

Variable ToLower : string -> string.

(** What [main] does with the two buffers once they are loaded. *)
Lemma main_after_load regular f hdrBuf partBuf r :
  load regular (f_size f) (open f) = (Ok (hdrBuf, partBuf), open f) ->
  (Header.size <= length hdrBuf)%nat ->
  returns (main ToLower regular) f r ->
  let hdr := Header.of_bytes hdrBuf in
  r_hdr r = hdr
  /\ (exists buf, recalc hdrBuf hdr = Crc (r_calcHdrCRC r) buf)
  /\ r_calcTableCRC r = ChecksumIEEE partBuf
  /\ entries ToLower (Z.to_nat (num_of hdr partBuf)) 0 (num_of hdr partBuf)
       (entrySize_of hdr) partBuf = Some (r_lines r).
Proof.
  intros Hload Hlen Hret hdr. unfold returns, main in Hret.
  rewrite Exec.step_Stat in Hret. cbn [disk open] in Hret.
  unfold bind at 1 in Hret. rewrite Hload in Hret. cbn [fst snd] in Hret.
  rewrite Exec.step_decode in Hret.
  assert (Hdec : Header.decode hdrBuf = Some hdr).
  { unfold Header.decode. destruct (Header.size <=? length hdrBuf)%nat eqn:E;
      [reflexivity|apply Nat.leb_gt in E; lia]. }
  rewrite Hdec in Hret. fold hdr in Hret.
  destruct (recalc hdrBuf hdr) as [c buf| |] eqn:Hre;
    [|discriminate Hret|discriminate Hret].
  cbv zeta in Hret. rewrite Exec.step_orPanic in Hret.
  destruct (entries ToLower _ 0 _ _ partBuf) as [lines|] eqn:Hent;
    [|discriminate Hret].
  unfold ret in Hret. cbn [fst] in Hret. injection Hret as <-.
  cbn [r_hdr r_calcHdrCRC r_calcTableCRC r_lines].
  split; [reflexivity|]. split; [exists buf; reflexivity|].
  split; reflexivity.
Qed.

(** The disk path: both buffers are read from the file, the table from the
    sector and with the size the header announces. *)
Lemma load_disk f hdrBuf partBuf w :
  f_size f < 2 ^ 62 ->
  load false (f_size f) (open f) = (Ok (hdrBuf, partBuf), w) ->
  let hdr := Header.of_bytes (read_bytes f SECTOR_SIZE 512) in
  let product := NumPartitions hdr * PartitionEntrySize hdr in
  let tableSize := if product =? 0 then 16384 else product in
  w = open f
  /\ hdrBuf = read_bytes f SECTOR_SIZE 512
  /\ partBuf = read_bytes f (lba_offset (PartitionTableLBA hdr)) (Z.to_nat tableSize)
  /\ 0 < tableSize <= f_size f.
Proof.
  intros Hsz. unfold load, readAtOrFail. cbn [andb]. cbv iota.
  rewrite Exec.step_ReadAt. cbn [disk open].
  change (SECTOR_SIZE <? 0) with false. change (SECTOR_SIZE =? 0) with false.
  cbn [orb]. cbv iota.
  destruct (SECTOR_SIZE + SECTOR_SIZE <=? f_size f); [|discriminate].
  change (Z.to_nat SECTOR_SIZE) with 512%nat.
  set (sector := read_bytes f SECTOR_SIZE 512).
  rewrite Exec.step_decode.
  assert (Hdec : Header.decode sector = Some (Header.of_bytes sector)).
  { unfold Header.decode, Header.size, sector. rewrite read_bytes_length. reflexivity. }
  rewrite Hdec. cbv zeta.
  set (hdr := Header.of_bytes sector).
  pose proof (TableCRC.field_u32 sector 80) as Hn.
  pose proof (TableCRC.field_u32 sector 84) as He.
  change (le_decode (field sector 80 4)) with (NumPartitions hdr) in Hn.
  change (le_decode (field sector 84 4)) with (PartitionEntrySize hdr) in He.
  unfold is_u32 in Hn, He.
  rewrite (i64_small (NumPartitions hdr)), (i64_small (PartitionEntrySize hdr)) by lia.
  set (product := NumPartitions hdr * PartitionEntrySize hdr).
  assert (Hp : 0 <= product < 2 ^ 64) by (unfold product; nia).
  destruct (Z_lt_le_dec product (2 ^ 63)) as [Hsmall|Hbig].
  - rewrite (i64_small product) by lia.
    change (128 * 128) with 16384.
    set (tableSize := if product =? 0 then 16384 else product).
    assert (Ht : 0 < tableSize).
    { unfold tableSize. destruct (product =? 0) eqn:E; [lia|].
      apply Z.eqb_neq in E. lia. }
    destruct (tableSize <? 0) eqn:E; [apply Z.ltb_lt in E; lia|]. clear E.
    rewrite Exec.step_ReadAt. cbn [disk open].
    destruct (lba_offset (PartitionTableLBA hdr) <? 0) eqn:Eoff; [discriminate|].
    apply Z.ltb_ge in Eoff.
    destruct (tableSize =? 0) eqn:E0; [apply Z.eqb_eq in E0; lia|]. cbn [orb].
    destruct (lba_offset (PartitionTableLBA hdr) + tableSize <=? f_size f) eqn:Efit;
      [|discriminate].
    apply Z.leb_le in Efit.
    unfold ret. intros [= <- <- <-].
    repeat split; try reflexivity; lia.
  - assert (Hneg : i64 product < 0).
    { unfold i64.
      replace (product + 2 ^ 63) with (product - 2 ^ 63 + 1 * 2 ^ 64) by lia.
      rewrite Z.mod_add by lia. rewrite Z.mod_small by lia. lia. }
    destruct (i64 product =? 0) eqn:E0; [apply Z.eqb_eq in E0; lia|].
    destruct (i64 product <? 0) eqn:E; [discriminate|apply Z.ltb_ge in E; lia].
Qed.

End Runs.

End Report.

(** X19. The entry loop of the inspector.  For an entry size from 128 up
    it visits the slots that lie entirely inside the table buffer, at most
    the announced number of them, and lists those with a non-zero type GUID
    in index order, each decoded from the first 128 bytes of its slot; it
    never panics.  For an entry size below 128 it lists nothing: the first
    [binary.Read] fails and ends the loop. *)
Theorem listing_shows_occupied_slots_in_order
    (ToLower : string -> string) (num entrySize : Z) (partBuf : list byte) :
  0 < entrySize < 2 ^ 32 -> 0 <= num < 2 ^ 32 ->
  Z.of_nat (length partBuf) < 2 ^ 62 ->
  (128 <= entrySize ->
   AllInfo.entries ToLower (Z.to_nat num) 0 num entrySize partBuf
   = Some (concat (AllInfo.listed ToLower entrySize partBuf
                     <$> seqZ 0 (Z.min num (Z.of_nat (length partBuf) / entrySize)))))
  /\ (entrySize < 128 ->
      AllInfo.entries ToLower (Z.to_nat num) 0 num entrySize partBuf = Some []).
Proof.
  intros Hes Hnum Hlen. split.
  - intros H128.
    rewrite (Listing.entries_from ToLower num entrySize partBuf Hes Hnum Hlen
               (Z.to_nat num) 0 H128).
    + rewrite Z.sub_0_r. reflexivity.
    + pose proof (Listing.visited_range num entrySize partBuf Hes Hnum). lia.
    + lia.
  - intros Hs. apply Listing.entries_short; assumption.
Qed.

Lemma listing_shows_occupied_slots_in_order_witness :
  AllInfo.entries (fun s => s) 3 0 3 128 table3_bytes
  = Some (concat (AllInfo.listed (fun s => s) 128 table3_bytes <$> [0; 1; 2]))
  /\ AllInfo.entries (fun s => s) 3 0 3 64 table3_bytes = Some [].
Proof.
  split.
  - apply (proj1 (listing_shows_occupied_slots_in_order (fun s => s) 3 128 table3_bytes
                    ltac:(lia) ltac:(lia) ltac:(vm_compute; reflexivity))).
    lia.
  - apply (proj2 (listing_shows_occupied_slots_in_order (fun s => s) 3 64 table3_bytes
                    ltac:(lia) ltac:(lia) ltac:(vm_compute; reflexivity))).
    lia.
Defined.

(** A 16896-byte file: a header in its second sector, one entry behind it. *)
Definition blob : File :=
  sparse 16896
    [(512, Header.encode (header GPT_SIGNATURE 92 34 2 128 128));
     (1024, Partition.encode (entry x01 40 49))].

Definition no_report : AllInfo.report := AllInfo.mkReport no_header 0 0 [].

Definition is_ok {A} (r : result A) : bool :=
  match r with Ok _ => true | _ => false end.

Lemma value_returns {A} (m : IO A) f d :
  is_ok (fst (m (open f))) = true -> returns m f (value d (fst (m (open f)))).
Proof.
  unfold returns.
  destruct (fst (m (open f))); cbn; [reflexivity|discriminate|discriminate].
Qed.

Definition blob_report : AllInfo.report :=
  value no_report (fst (AllInfo.main (fun s => s) true (open blob))).

Lemma blob_run : returns (AllInfo.main (fun s => s) true) blob blob_report.
Proof. apply value_returns. vm_compute. reflexivity. Qed.

(** X20. The blob path of the inspector.  A regular file of exactly 16896
    bytes is never read as a disk: the header is taken from bytes 512..1023
    of the file and the table buffer is bytes 1024..16895 followed by 512
    zero bytes, whatever table location and size the header announces.  The
    reported table checksum is the CRC-32 of that padded buffer, and no
    entry is listed for a slot that starts in the padding (with 128-byte
    entries: none of slots 124 to 127). *)
Theorem blob_mode_pads_table_with_zero_sector
    (ToLower : string -> string) (f : File) (r : AllInfo.report) :
  f_size f = 16896 ->
  returns (AllInfo.main ToLower true) f r ->
  let partBuf := read_bytes f 1024 (Z.to_nat 15872) ++ zeros 512 in
  AllInfo.r_hdr r = Header.of_bytes (read_bytes f 512 (Z.to_nat 512))
  /\ AllInfo.r_calcTableCRC r = ChecksumIEEE partBuf
  /\ Forall (fun l => AllInfo.l_index l * AllInfo.entrySize_of (AllInfo.r_hdr r) < 15872)
       (AllInfo.r_lines r).
Proof.
  intros Hsz Hret partBuf.
  pose proof (Loading.load_blob f Hsz) as Hload.
  destruct (Report.main_after_load ToLower true f _ _ r Hload
              ltac:(rewrite read_bytes_length; unfold Header.size; lia) Hret)
    as (Hh & _ & Hc & Hent).
  split; [exact Hh|]. split; [exact Hc|].
  rewrite Hh. set (hdr := Header.of_bytes _) in *. fold partBuf in Hent.
  set (es := AllInfo.entrySize_of hdr) in *.
  set (num := AllInfo.num_of hdr partBuf) in *.
  assert (Hlen : Z.of_nat (length partBuf) = 16384).
  { unfold partBuf. rewrite length_app, read_bytes_length. unfold zeros.
    rewrite repeat_length. lia. }
  assert (Hes : 0 < es < 2 ^ 32).
  { unfold es, AllInfo.entrySize_of.
    pose proof (TableCRC.field_u32 (read_bytes f 512 (Z.to_nat 512)) 84) as He.
    change (le_decode (field (read_bytes f 512 (Z.to_nat 512)) 84 4))
      with (PartitionEntrySize hdr) in He. unfold is_u32 in He.
    destruct (PartitionEntrySize hdr =? 0) eqn:E; [lia|].
    apply Z.eqb_neq in E. lia. }
  assert (Hnum : 0 <= num < 2 ^ 32).
  { unfold num, AllInfo.num_of. fold es.
    pose proof (TableCRC.field_u32 (read_bytes f 512 (Z.to_nat 512)) 80) as Hn.
    change (le_decode (field (read_bytes f 512 (Z.to_nat 512)) 80 4))
      with (NumPartitions hdr) in Hn. unfold is_u32 in Hn.
    destruct (NumPartitions hdr =? 0); [|exact Hn].
    rewrite Hlen, Z.quot_div_nonneg by lia.
    split; [apply Z.div_pos; lia|].
    apply Z.div_lt_upper_bound; lia. }
  destruct (Z_lt_le_dec es 128) as [Hshort|H128].
  - rewrite (Listing.entries_short ToLower num es partBuf Hes) in Hent by exact Hshort.
    injection Hent as <-. constructor.
  - rewrite (Listing.entries_from ToLower num es partBuf Hes Hnum ltac:(lia)
               (Z.to_nat num) 0 H128) in Hent.
    + pose proof (f_equal (fun o => match o with Some x => x | None => [] end) Hent)
        as Hl; cbv beta iota in Hl; rewrite <- Hl; clear Hl Hent.
      apply Forall_concat, Forall_fmap, Forall_forall. intros i Hi.
      apply elem_of_seqZ in Hi. cbn [compose].
      unfold AllInfo.listed. cbv zeta.
      destruct (isZero _) eqn:Ez; constructor; [|constructor].
      cbn [AllInfo.describe AllInfo.l_index].
      destruct (Z_lt_le_dec (i * es) 15872) as [Hlt|Hge]; [exact Hlt|].
      exfalso. unfold partBuf in Ez.
      rewrite Loading.padded_slot_empty in Ez; [discriminate|].
      rewrite read_bytes_length. lia.
    + pose proof (Listing.visited_range num es partBuf Hes Hnum). lia.
    + lia.
Qed.

Lemma blob_mode_pads_table_with_zero_sector_witness :
  AllInfo.r_calcTableCRC blob_report
  = ChecksumIEEE (read_bytes blob 1024 (Z.to_nat 15872) ++ zeros 512)
  /\ Forall (fun l => AllInfo.l_index l * AllInfo.entrySize_of (AllInfo.r_hdr blob_report)
                      < 15872) (AllInfo.r_lines blob_report).
Proof.
  destruct (blob_mode_pads_table_with_zero_sector (fun s => s) blob blob_report
              eq_refl blob_run) as (_ & H2 & H3).
  split; [exact H2|exact H3].
Defined.

Definition short_table_report : AllInfo.report :=
  value no_report (fst (AllInfo.main (fun s => s) false (open short_table))).

Lemma short_table_run :
  returns (AllInfo.main (fun s => s) false) short_table short_table_report.
Proof. apply value_returns. vm_compute. reflexivity. Qed.

(** X21. The disk path of the inspector, for a run that ends normally on
    an image of less than 2^62 bytes.  The table buffer is read at the
    sector the header names, with the announced size, entry count times
    entry size, or 16384 bytes when that product is zero; the reported
    table checksum is the CRC-32 of that buffer.  With an entry size from
    128 up and a non-zero entry count the listing covers all announced
    slots: it shows exactly those with a non-zero type GUID, in index
    order.  With a non-zero entry size below 128 it shows nothing. *)
Theorem disk_mode_lists_all_announced_slots
    (ToLower : string -> string) (f : File) (r : AllInfo.report) :
  f_size f < 2 ^ 62 ->
  returns (AllInfo.main ToLower false) f r ->
  let hdr := Header.of_bytes (read_bytes f SECTOR_SIZE 512) in
  let product := NumPartitions hdr * PartitionEntrySize hdr in
  let tableSize := if product =? 0 then 16384 else product in
  let partBuf :=
    read_bytes f (lba_offset (PartitionTableLBA hdr)) (Z.to_nat tableSize) in
  AllInfo.r_hdr r = hdr
  /\ AllInfo.r_calcTableCRC r = ChecksumIEEE partBuf
  /\ (NumPartitions hdr <> 0 -> 128 <= PartitionEntrySize hdr ->
      AllInfo.r_lines r
      = concat (AllInfo.listed ToLower (PartitionEntrySize hdr) partBuf
                  <$> seqZ 0 (NumPartitions hdr)))
  /\ (0 < PartitionEntrySize hdr < 128 -> AllInfo.r_lines r = []).
Proof.
  intros Hsz Hret hdr product tableSize partBuf.
  assert (Hl : exists hdrBuf pb w,
             AllInfo.load false (f_size f) (open f) = (Ok (hdrBuf, pb), w)).
  { unfold returns, AllInfo.main in Hret.
    rewrite Exec.step_Stat in Hret. cbn [disk open] in Hret.
    unfold bind at 1 in Hret.
    destruct (AllInfo.load false (f_size f) (open f)) as [[[hb pb]|m|m] w];
      [|discriminate Hret|discriminate Hret].
    exists hb, pb, w. reflexivity. }
  destruct Hl as (hdrBuf & pb & w & Hload).
  destruct (Report.load_disk f hdrBuf pb w Hsz Hload) as (-> & -> & -> & Ht).
  fold hdr product tableSize partBuf in Ht, Hload.
  destruct (Report.main_after_load ToLower false f _ _ r Hload
              ltac:(rewrite read_bytes_length; unfold Header.size; lia) Hret)
    as (Hh & _ & Hc & Hent).
  fold hdr in Hh, Hent.
  split; [exact Hh|]. split; [exact Hc|].
  pose proof (TableCRC.field_u32 (read_bytes f SECTOR_SIZE 512) 80) as Hn.
  pose proof (TableCRC.field_u32 (read_bytes f SECTOR_SIZE 512) 84) as He.
  change (le_decode (field (read_bytes f SECTOR_SIZE 512) 80 4))
    with (NumPartitions hdr) in Hn.
  change (le_decode (field (read_bytes f SECTOR_SIZE 512) 84 4))
    with (PartitionEntrySize hdr) in He.
  unfold is_u32 in Hn, He.
  assert (Hlen : Z.of_nat (length partBuf) = tableSize).
  { unfold partBuf. rewrite read_bytes_length. lia. }
  split.
  - intros Hnz H128.
    assert (Hes' : AllInfo.entrySize_of hdr = PartitionEntrySize hdr).
    { unfold AllInfo.entrySize_of.
      destruct (PartitionEntrySize hdr =? 0) eqn:E; [apply Z.eqb_eq in E; lia|reflexivity]. }
    assert (Hnum' : AllInfo.num_of hdr partBuf = NumPartitions hdr).
    { unfold AllInfo.num_of.
      destruct (NumPartitions hdr =? 0) eqn:E; [apply Z.eqb_eq in E; lia|reflexivity]. }
    rewrite Hes', Hnum' in Hent.
    assert (Hts : tableSize = product).
    { unfold tableSize. destruct (product =? 0) eqn:E; [|reflexivity].
      apply Z.eqb_eq in E. unfold product in E. nia. }
    rewrite (Listing.entries_from ToLower (NumPartitions hdr) (PartitionEntrySize hdr)
               partBuf ltac:(lia) Hn ltac:(lia) _ 0 H128) in Hent.
    + pose proof (f_equal (fun o => match o with Some x => x | None => [] end) Hent)
        as Hl; cbv beta iota in Hl; rewrite <- Hl; clear Hl Hent.
      rewrite Z.sub_0_r.
      replace (Listing.visited (NumPartitions hdr) (PartitionEntrySize hdr) partBuf)
        with (NumPartitions hdr); [reflexivity|].
      unfold Listing.visited. rewrite Hlen, Hts. unfold product.
      rewrite Z.div_mul by lia. lia.
    + pose proof (Listing.visited_range (NumPartitions hdr) (PartitionEntrySize hdr)
                    partBuf ltac:(lia) Hn). lia.
    + lia.
  - intros Hshort.
    assert (Hes' : AllInfo.entrySize_of hdr = PartitionEntrySize hdr).
    { unfold AllInfo.entrySize_of.
      destruct (PartitionEntrySize hdr =? 0) eqn:E; [apply Z.eqb_eq in E; lia|reflexivity]. }
    rewrite Hes' in Hent.
    rewrite (Listing.entries_short ToLower _ (PartitionEntrySize hdr) partBuf
               ltac:(lia)) in Hent by lia.
    injection Hent as <-. reflexivity.
Qed.

Lemma disk_mode_lists_all_announced_slots_witness :
  AllInfo.r_calcTableCRC short_table_report
  = ChecksumIEEE (read_bytes short_table 1024 (Z.to_nat 512))
  /\ AllInfo.r_lines short_table_report
     = concat (AllInfo.listed (fun s => s) 128 (read_bytes short_table 1024 (Z.to_nat 512))
                 <$> seqZ 0 4).
Proof.
  destruct (disk_mode_lists_all_announced_slots (fun s => s) short_table
              short_table_report ltac:(vm_compute; reflexivity) short_table_run)
    as (_ & H2 & H3 & _).
  split; [exact H2|].
  apply H3; vm_compute; congruence.
Defined.

(** ** Variant 1 on entries shorter than 48 bytes *)

Module ShortEntries.

(** The LBA fields of the last entry reach past the end of the buffer, so
    the loop cannot finish. *)
Lemma realign_short (fuel : nat) : forall i es buf cur,
  0 <= es < 48 -> 0 <= i ->
  Z.of_nat (length buf) = (i + Z.of_nat (S fuel)) * es ->
  V1.realign (S fuel) i es buf cur = None.
Proof.
  induction fuel as [|k IH]; intros i es buf cur Hes Hi Hlen.
  - cbn [V1.realign].
    destruct (slice buf (i * es) (i * es + es)); [|reflexivity].
    destruct (slice buf (i * es + 32) (i * es + 40)); [|reflexivity].
    rewrite slice_None_hi by lia. reflexivity.
  - remember (S k) as fuel eqn:Hfuel.
    cbn [V1.realign].
    destruct (slice buf (i * es) (i * es + es)); [|reflexivity].
    destruct (slice buf (i * es + 32) (i * es + 40)) as [bs|] eqn:E1; [|reflexivity].
    destruct (slice buf (i * es + 40) (i * es + 48)) as [be|] eqn:E2; [|reflexivity].
    apply TableCRC.slice_bounds in E1, E2.
    subst fuel.
    destruct ((le_decode be =? 0) || (le_decode bs =? 0)).
    + apply IH; [exact Hes|lia|lia].
    + apply IH; [exact Hes|lia|].
      rewrite !V1Reloc.overwrite_length; rewrite ?le_encode_length; try lia.
      rewrite V1Reloc.overwrite_length; rewrite ?le_encode_length; lia.
Qed.

End ShortEntries.

(** X22. Variant 1 cannot handle entries shorter than 48 bytes.  Its loop
    slices bytes 32..47 of every entry out of what is left of the table
    buffer, so on a buffer of [n >= 1] entries of fewer than 48 bytes each
    the loop ends in the slice-bounds panic, at the last entry if not
    before.  No run of variant 1 on a header that announces such a table
    ends normally. *)
Theorem v1_needs_entries_of_48_bytes :
  (forall (n : nat) es buf cur,
     0 <= es < 48 -> (1 <= n)%nat -> Z.of_nat (length buf) = Z.of_nat n * es ->
     V1.realign n 0 es buf cur = None)
  /\ (forall f o,
        returns V1.main f o ->
        let hdr := Header.of_bytes (read_bytes f SECTOR_SIZE 512) in
        NumPartitions hdr = 0 \/ 48 <= PartitionEntrySize hdr).
Proof.
  split.
  - intros [|n] es buf cur Hes Hn Hlen; [lia|].
    apply ShortEntries.realign_short; [exact Hes|lia|lia].
  - intros f o Hret hdr.
    destruct (V1Main.v1_main_ok f o Hret) as (_ & Htb & (cur & Hrun) & _).
    fold hdr in Htb, Hrun.
    pose proof (TableCRC.field_u32 (read_bytes f SECTOR_SIZE 512) 80) as Hn.
    pose proof (TableCRC.field_u32 (read_bytes f SECTOR_SIZE 512) 84) as He.
    change (le_decode (field (read_bytes f SECTOR_SIZE 512) 80 4))
      with (NumPartitions hdr) in Hn.
    change (le_decode (field (read_bytes f SECTOR_SIZE 512) 84 4))
      with (PartitionEntrySize hdr) in He.
    unfold is_u32 in Hn, He.
    destruct (Z.eq_dec (NumPartitions hdr) 0) as [H0|Hnz]; [left; exact H0|].
    destruct (Z_lt_le_dec (PartitionEntrySize hdr) 48) as [Hshort|Hok];
      [|right; exact Hok].
    exfalso.
    assert (Hi : i64 (NumPartitions hdr * PartitionEntrySize hdr)
                 = NumPartitions hdr * PartitionEntrySize hdr)
      by (apply i64_small; nia).
    rewrite Hi in Hrun.
    destruct (Z.to_nat (NumPartitions hdr)) as [|n] eqn:En; [lia|].
    rewrite ShortEntries.realign_short in Hrun; [discriminate|lia|lia|].
    rewrite read_bytes_length. nia.
Qed.

Lemma v1_needs_entries_of_48_bytes_witness :
  V1.realign 2 0 40 (zeros 80) 34 = None.
Proof.
  apply (proj1 v1_needs_entries_of_48_bytes 2%nat 40 (zeros 80) 34).
  - lia.
  - lia.
  - vm_compute. reflexivity.
Defined.

(** ** The file a repair leaves, read back *)

Module Disk.

Import Header.

Lemma f_at_write g off (data : list byte) z :
  data <> [] ->
  f_at (write_bytes g off data) z
  = if (off <=? z) && (z <? off + Z.of_nat (length data))
    then nth (Z.to_nat (z - off)) data x00
    else if f_size g <=? z then x00 else f_at g z.
Proof. intros H. destruct data; [contradiction|reflexivity]. Qed.

Lemma f_size_write g off (data : list byte) :
  f_size g <= f_size (write_bytes g off data).
Proof. destruct data; cbn [write_bytes f_size]; lia. Qed.

(** A read beside a write sees the old bytes. *)
Lemma read_outside g off (data : list byte) p (n : nat) :
  p + Z.of_nat n <= off \/ off + Z.of_nat (length data) <= p ->
  p + Z.of_nat n <= f_size g ->
  read_bytes (write_bytes g off data) p n = read_bytes g p n.
Proof.
  intros Hd Hs. destruct data as [|x data]; [reflexivity|].
  apply list_eq. intros i. rewrite !Loading.read_bytes_lookup.
  destruct (decide (i < n)%nat) as [Hi|Hi]; [|reflexivity].
  f_equal. rewrite f_at_write by discriminate.
  destruct ((off <=? p + Z.of_nat i)
            && (p + Z.of_nat i <? off + Z.of_nat (length (x :: data)))) eqn:E.
  - apply andb_prop in E as [E1 E2]. apply Z.leb_le in E1. apply Z.ltb_lt in E2. lia.
  - destruct (f_size g <=? p + Z.of_nat i) eqn:E3; [apply Z.leb_le in E3; lia|].
    reflexivity.
Qed.

(** A read inside a write sees the written bytes. *)
Lemma read_inside g off (data : list byte) p (n : nat) :
  off <= p -> p + Z.of_nat n <= off + Z.of_nat (length data) ->
  read_bytes (write_bytes g off data) p n = take n (drop (Z.to_nat (p - off)) data).
Proof.
  intros Hp Hn. apply list_eq. intros i. rewrite Loading.read_bytes_lookup.
  destruct (decide (i < n)%nat) as [Hi|Hi].
  - rewrite lookup_take_lt, lookup_drop by exact Hi.
    assert (Hne : data <> []) by (destruct data; [cbn in Hn; lia|discriminate]).
    rewrite f_at_write by exact Hne.
    destruct ((off <=? p + Z.of_nat i)
              && (p + Z.of_nat i <? off + Z.of_nat (length data))) eqn:E.
    + replace (Z.to_nat (p + Z.of_nat i - off)) with (Z.to_nat (p - off) + i)%nat by lia.
      destruct (lookup_lt_is_Some_2 data (Z.to_nat (p - off) + i) ltac:(lia)) as [x Hx].
      rewrite Hx. f_equal. apply nth_lookup_Some with (d := x00) in Hx. exact Hx.
    + apply andb_false_iff in E as [E|E];
        [apply Z.leb_gt in E|apply Z.ltb_ge in E]; lia.
  - rewrite lookup_take_ge by lia. reflexivity.
Qed.

Lemma Ok_inj {A} (a b : A) : Ok a = Ok b -> a = b.
Proof. intros [= H]. exact H. Qed.

(** The file a successful run of variant 1 leaves: the four writes, in the
    order of the source, applied to the file it found; and what the checks
    in front of the writes established. *)
Lemma v1_disk f o :
  returns V1.main f o ->
  let hdr := Header.of_bytes (read_bytes f SECTOR_SIZE 512) in
  let tableBytes := i64 (NumPartitions hdr * PartitionEntrySize hdr) in
  let primTableOff := lba_offset (PartitionTableLBA hdr) in
  1024 <= f_size f
  /\ 0 <= primTableOff
  /\ (tableBytes = 0 \/ primTableOff + tableBytes <= f_size f)
  /\ disk_after V1.main f
     = write_bytes
         (write_bytes
            (write_bytes
               (write_bytes f primTableOff (V1.o_table o))
               SECTOR_SIZE (V1.header_bytes (V1.o_primary o)))
            (lba_offset (PartitionTableLBA (V1.o_backup o))) (V1.o_table o))
         (lba_offset (CurrentLBA (V1.o_backup o))) (V1.header_bytes (V1.o_backup o)).
Proof.
  intros Hret hdr tableBytes primTableOff. revert Hret.
  unfold returns, disk_after, V1.main.
  rewrite Exec.step_Stat. cbn [disk open].
  destruct (negb (Z.rem (f_size f) SECTOR_SIZE =? 0)); [discriminate|].
  rewrite Exec.step_ReadAt. cbn [disk open].
  change (SECTOR_SIZE * 1 <? 0) with false. cbv iota.
  change (SECTOR_SIZE =? 0) with false. cbn [orb].
  change (SECTOR_SIZE * 1 + SECTOR_SIZE) with 1024.
  destruct (1024 <=? f_size f) eqn:Efs; [|discriminate].
  apply Z.leb_le in Efs.
  rewrite Exec.step_decode.
  change (SECTOR_SIZE * 1) with SECTOR_SIZE.
  change (Z.to_nat SECTOR_SIZE) with 512%nat.
  assert (Hdec : Header.decode (read_bytes f SECTOR_SIZE 512) = Some hdr).
  { unfold Header.decode, Header.size. rewrite read_bytes_length. reflexivity. }
  rewrite Hdec. cbv zeta. fold tableBytes. fold primTableOff.
  destruct (f_size f <? _); [discriminate|].
  destruct (tableBytes <? 0); [discriminate|].
  rewrite Exec.step_ReadAt. cbn [disk open].
  destruct (primTableOff <? 0) eqn:Eoff; [discriminate|].
  destruct ((tableBytes =? 0) || (primTableOff + tableBytes <=? f_size f)) eqn:Efit;
    [|discriminate].
  rewrite Exec.step_orPanic.
  destruct (V1.realign _ _ _ _ _) as [r|]; [|discriminate].
  rewrite Exec.step_WriteAt, Eoff.
  rewrite Exec.step_WriteAt. change (SECTOR_SIZE <? 0) with false. cbv iota.
  rewrite Exec.step_WriteAt.
  destruct (lba_offset (V1.backupTableLBA _ _) <? 0); [discriminate|].
  rewrite Exec.step_WriteAt.
  destruct (lba_offset (u64 _) <? 0); [discriminate|].
  unfold ret. cbn [fst snd disk].
  intros Ho. apply Ok_inj in Ho. rewrite <- Ho.
  split; [exact Efs|]. split; [apply Z.ltb_ge in Eoff; exact Eoff|]. split.
  - apply orb_prop in Efit as [E|E]; [left; apply Z.eqb_eq, E|right; apply Z.leb_le, E].
  - reflexivity.
Qed.

Lemma v1_primary_wf f o : returns V1.main f o -> Header.wf (V1.o_primary o).
Proof.
  intros Hret.
  destruct (V1Main.v1_main_ok f o Hret) as (_ & _ & _ & Hp & _).
  rewrite Hp.
  assert (Hwf : Header.wf (Header.of_bytes (read_bytes f SECTOR_SIZE 512))).
  { apply Codec.header_of_bytes_wf. rewrite read_bytes_length. unfold Header.size. lia. }
  destruct Hwf.
  constructor; fields; try assumption; first [apply u64_range|apply Seal.crc_range].
Qed.

Lemma v1_table_length f o :
  returns V1.main f o ->
  let hdr := Header.of_bytes (read_bytes f SECTOR_SIZE 512) in
  Z.of_nat (length (V1.o_table o)) = i64 (NumPartitions hdr * PartitionEntrySize hdr).
Proof.
  intros Hret hdr.
  destruct (V1Main.v1_main_ok f o Hret) as (_ & Htb & (cur & Hrun) & _).
  fold hdr in Htb, Hrun.
  apply TableCRC.realign_length in Hrun. rewrite Hrun, read_bytes_length. lia.
Qed.

End Disk.

(** ** [main] of the header-only inspector *)

Module PartInfo.

Import Header Inspect.

Record report := mkReport {
  r_hdr : GPTHeader;
  r_calcHdrCRC : Z;
  r_calcTableCRC : Z
}.

(** Lines 48-77; the values printed afterwards are the fields of [hdr] and
    the two recomputed checksums. *)
Definition main : IO report :=
  hdrBuf <-- orFatal "read header" (ReadAt SECTOR_SIZE SECTOR_SIZE) ;;
  hdr <-- orFatal "decode header" (ret (Header.decode hdrBuf)) ;;
  match recalc hdrBuf hdr with
  | SliceOutOfRange => panic "slice bounds out of range"
  | IndexOutOfRange => panic "index out of range"
  | Crc calcHdrCRC _ =>
    let tableSize := i64 (i64 (NumPartitions hdr) * i64 (PartitionEntrySize hdr)) in
    let partOffset := lba_offset (PartitionTableLBA hdr) in
    if tableSize <? 0 then panic "makeslice: len out of range" else
    partBuf <-- orFatal "read partition entries" (ReadAt tableSize partOffset) ;;
    ret {| r_hdr := hdr; r_calcHdrCRC := calcHdrCRC;
           r_calcTableCRC := ChecksumIEEE partBuf |}
  end.

End PartInfo.

Module ReadBack.

Import Header.

(** The header sector of the repaired file starts with the header bytes
    that were written, as long as the backup structures lie behind it. *)
Lemma header_read_back g1 off3 off4 (hb tbl bhb : list byte) (hs : nat) :
  length hb = hs -> (hs <= 512)%nat -> 1024 <= f_size g1 ->
  1024 <= off3 -> 1024 <= off4 ->
  take hs
    (read_bytes
       (write_bytes (write_bytes (write_bytes g1 SECTOR_SIZE hb) off3 tbl) off4 bhb)
       SECTOR_SIZE 512)
  = hb.
Proof.
  intros Hl Hhs Hsz H3 H4. unfold SECTOR_SIZE.
  rewrite <- (drop_0 (read_bytes _ 512 512)).
  rewrite (Loading.read_bytes_window _ 512 512 0 hs) by lia.
  change (512 + Z.of_nat 0) with 512.
  set (g2 := write_bytes g1 512 hb).
  set (g3 := write_bytes g2 off3 tbl).
  assert (S2 : 1024 <= f_size g2)
    by (unfold g2; pose proof (Disk.f_size_write g1 512 hb); lia).
  assert (S3 : 1024 <= f_size g3)
    by (unfold g3; pose proof (Disk.f_size_write g2 off3 tbl); lia).
  rewrite (Disk.read_outside g3 off4 bhb 512 hs) by lia.
  unfold g3. rewrite (Disk.read_outside g2 off3 tbl 512 hs) by lia.
  unfold g2. rewrite (Disk.read_inside g1 512 hb 512 hs) by lia.
  change (Z.to_nat (512 - 512)) with 0%nat. rewrite drop_0.
  apply take_ge. lia.
Qed.

(** The primary table of the repaired file is the table that was written,
    as long as it lies behind the header sector and in front of the backup
    structures. *)
Lemma table_read_back g0 off1 off3 off4 (hb tbl bhb : list byte) :
  (length hb <= 512)%nat -> 1024 <= off1 ->
  off1 + Z.of_nat (length tbl) <= off3 ->
  off1 + Z.of_nat (length tbl) <= off4 ->
  read_bytes
    (write_bytes
       (write_bytes (write_bytes (write_bytes g0 off1 tbl) SECTOR_SIZE hb) off3 tbl)
       off4 bhb)
    off1 (length tbl)
  = tbl.
Proof.
  intros Hhb H1 H3 H4. unfold SECTOR_SIZE.
  destruct tbl as [|x tbl']; [reflexivity|].
  set (tbl := x :: tbl') in *.
  set (g1 := write_bytes g0 off1 tbl).
  set (g2 := write_bytes g1 512 hb).
  set (g3 := write_bytes g2 off3 tbl).
  assert (S1 : off1 + Z.of_nat (length tbl) <= f_size g1).
  { unfold g1, tbl. cbn [write_bytes f_size]. lia. }
  assert (S2 : off1 + Z.of_nat (length tbl) <= f_size g2)
    by (unfold g2; pose proof (Disk.f_size_write g1 512 hb); lia).
  assert (S3 : off1 + Z.of_nat (length tbl) <= f_size g3)
    by (unfold g3; pose proof (Disk.f_size_write g2 off3 tbl); lia).
  rewrite (Disk.read_outside g3 off4 bhb off1 (length tbl)) by lia.
  unfold g3. rewrite (Disk.read_outside g2 off3 tbl off1 (length tbl)) by lia.
  unfold g2. rewrite (Disk.read_outside g1 512 hb off1 (length tbl)) by lia.
  unfold g1. rewrite (Disk.read_inside g0 off1 tbl off1 (length tbl)) by lia.
  rewrite Z.sub_diag. change (Z.to_nat 0) with 0%nat. rewrite drop_0.
  apply take_ge. lia.
Qed.

Lemma f_size_after g0 off1 off3 off4 (hb tbl bhb : list byte) :
  f_size g0
  <= f_size
       (write_bytes
          (write_bytes (write_bytes (write_bytes g0 off1 tbl) SECTOR_SIZE hb) off3 tbl)
          off4 bhb).
Proof.
  pose proof (Disk.f_size_write g0 off1 tbl).
  pose proof (Disk.f_size_write (write_bytes g0 off1 tbl) SECTOR_SIZE hb).
  pose proof (Disk.f_size_write
                (write_bytes (write_bytes g0 off1 tbl) SECTOR_SIZE hb) off3 tbl).
  pose proof (Disk.f_size_write
                (write_bytes (write_bytes (write_bytes g0 off1 tbl) SECTOR_SIZE hb)
                   off3 tbl) off4 bhb).
  lia.
Qed.

End ReadBack.

(** X23. A file repaired by variant 1 passes the header-only inspector.
    Let a run of variant 1 end normally on a file with [HeaderSize] from 92
    to 512 whose primary entry array lies behind sector 1 and ends in front
    of the places where the backup entry array and the backup header are
    written.  Then the inspector, run on the file this run leaves, ends
    normally; the header it decodes is the repaired primary header with the
    checksum variant 1 computed, and both checksums it recomputes equal the
    ones stored in that header. *)
Theorem v1_repair_passes_header_only_inspector f o :
  returns V1.main f o ->
  92 <= HeaderSize (V1.o_primary o) <= 512 ->
  1024 <= lba_offset (PartitionTableLBA (V1.o_primary o)) ->
  lba_offset (PartitionTableLBA (V1.o_primary o)) + Z.of_nat (length (V1.o_table o))
    <= lba_offset (PartitionTableLBA (V1.o_backup o)) ->
  lba_offset (PartitionTableLBA (V1.o_primary o)) + Z.of_nat (length (V1.o_table o))
    <= lba_offset (CurrentLBA (V1.o_backup o)) ->
  exists r,
    returns PartInfo.main (disk_after V1.main f) r
    /\ PartInfo.r_hdr r
       = set_HeaderCRC32 (snd (V1.checksummed (V1.o_primary o))) (V1.o_primary o)
    /\ PartInfo.r_calcHdrCRC r = HeaderCRC32 (PartInfo.r_hdr r)
    /\ PartInfo.r_calcTableCRC r = PartitionTableCRC (PartInfo.r_hdr r).
Proof.
  intros Hret Hhs H1 H3 H4.
  destruct (Disk.v1_disk f o Hret) as (Hsz & Hoff & Hfit & HD).
  destruct (V1Main.v1_main_ok f o Hret) as (_ & Htb & _ & Hp & Hb & _).
  pose proof (Disk.v1_primary_wf f o Hret) as Hwf.
  pose proof (Disk.v1_table_length f o Hret) as Htl.
  cbv zeta in Hoff, Hfit, HD, Htb, Htl.
  set (hdr := Header.of_bytes (read_bytes f SECTOR_SIZE 512)) in *.
  set (P := V1.o_primary o) in *. set (B := V1.o_backup o) in *.
  set (T := V1.o_table o) in *.
  assert (EL : PartitionTableLBA P = PartitionTableLBA hdr) by (rewrite Hp; reflexivity).
  assert (EN : NumPartitions P = NumPartitions hdr) by (rewrite Hp; reflexivity).
  assert (EE : PartitionEntrySize P = PartitionEntrySize hdr) by (rewrite Hp; reflexivity).
  assert (EC : PartitionTableCRC P = ChecksumIEEE T) by (rewrite Hp; reflexivity).
  assert (EB : HeaderSize B = HeaderSize P) by (rewrite Hb; reflexivity).
  rewrite <- EL in HD, Hoff, Hfit. rewrite <- EN, <- EE in Htl, Hfit.
  set (off1 := lba_offset (PartitionTableLBA P)) in *.
  set (off3 := lba_offset (PartitionTableLBA B)) in *.
  set (off4 := lba_offset (CurrentLBA B)) in *.
  pose proof Hwf as [Hs Hg _ _ _ _ _ _ _ _ _ Hnum Hesz _].
  unfold is_u32 in Hnum, Hesz.
  assert (Hhb : V1.header_bytes P
                = take (Z.to_nat (HeaderSize P))
                    (Header.encode (V2.seal P) ++ zeros (HeaderSize P - 92))).
  { unfold V1.header_bytes.
    rewrite (Seal.v1_checksummed P Hs Hg), (Seal.v2_seal P Hs Hg). reflexivity. }
  assert (Hle : length (Header.encode (V2.seal P)) = 92%nat).
  { rewrite (Seal.v2_seal P Hs Hg). apply Seal.header_encode_length; assumption. }
  assert (Hhl : length (V1.header_bytes P) = Z.to_nat (HeaderSize P)).
  { rewrite Hhb, length_take, length_app, Hle. unfold zeros.
    rewrite repeat_length. lia. }
  rewrite HD. clear HD.
  set (D := write_bytes _ off4 _).
  set (S := read_bytes D SECTOR_SIZE 512).
  assert (HS : take (Z.to_nat (HeaderSize P)) S = V1.header_bytes P).
  { unfold S, D.
    apply ReadBack.header_read_back; [exact Hhl|lia| |lia|lia].
    pose proof (Disk.f_size_write f off1 T). lia. }
  assert (Hpre : take (Z.to_nat (HeaderSize P)) S
                 = take (Z.to_nat (HeaderSize P))
                     (Header.encode (V2.seal P) ++ zeros (HeaderSize P - 92)))
    by (rewrite HS; exact Hhb).
  assert (HlS : length S = 512%nat) by apply read_bytes_length.
  destruct (Seal.sealed_verifies P S Hwf ltac:(lia) HlS Hpre)
    as (hdr' & Hdec & _ & Hcrc & Hre).
  assert (Hhdr' : hdr' = V2.seal P).
  { apply V1Main.decode_ok in Hdec. rewrite Hdec.
    rewrite <- (Codec.header_of_bytes_encode (V2.seal P) (Seal.seal_wf P Hwf)).
    apply Seal.of_bytes_prefix.
    replace (take 92 S) with (take 92 (take (Z.to_nat (HeaderSize P)) S))
      by (rewrite take_take; f_equal; lia).
    rewrite Hpre, take_take.
    replace (92 `min` Z.to_nat (HeaderSize P))%nat with 92%nat by lia.
    rewrite take_app_length' by (symmetry; exact Hle).
    symmetry. apply take_ge. lia. }
  assert (Hseal : V2.seal P = set_HeaderCRC32 (snd (V1.checksummed P)) P).
  { rewrite (Seal.v2_seal P Hs Hg), (Seal.v1_checksummed P Hs Hg). reflexivity. }
  assert (HszD : f_size f <= f_size D).
  { unfold D. apply ReadBack.f_size_after. }
  assert (Htbl : read_bytes D off1 (length T) = T).
  { unfold D. apply ReadBack.table_read_back; [rewrite Hhl|..]; lia. }
  exists {| PartInfo.r_hdr := hdr'; PartInfo.r_calcHdrCRC := HeaderCRC32 hdr';
            PartInfo.r_calcTableCRC := ChecksumIEEE T |}.
  cbn [PartInfo.r_hdr PartInfo.r_calcHdrCRC PartInfo.r_calcTableCRC].
  split; [|split; [|split]].
  - unfold returns, PartInfo.main.
    rewrite Exec.step_ReadAt. cbn [disk open].
    change (SECTOR_SIZE <? 0) with false. change (SECTOR_SIZE =? 0) with false.
    cbn [orb]. cbv iota.
    change (SECTOR_SIZE + SECTOR_SIZE) with 1024.
    destruct (1024 <=? f_size D) eqn:E; [|apply Z.leb_gt in E; lia]. clear E.
    change (Z.to_nat SECTOR_SIZE) with 512%nat. fold S.
    rewrite Exec.step_decode, Hdec, Hre. cbv zeta.
    assert (Hts : i64 (i64 (NumPartitions hdr') * i64 (PartitionEntrySize hdr'))
                  = Z.of_nat (length T)).
    { rewrite Hhdr', Hseal. fields.
      rewrite (i64_small (NumPartitions P)), (i64_small (PartitionEntrySize P)) by lia.
      symmetry. exact Htl. }
    rewrite Hts.
    destruct (Z.of_nat (length T) <? 0) eqn:E; [apply Z.ltb_lt in E; lia|]. clear E.
    assert (Hpo : lba_offset (PartitionTableLBA hdr') = off1).
    { rewrite Hhdr', Hseal. reflexivity. }
    rewrite Hpo, Exec.step_ReadAt. cbn [disk open].
    destruct (off1 <? 0) eqn:E; [apply Z.ltb_lt in E; lia|]. clear E.
    assert (Hok : (Z.of_nat (length T) =? 0)
                  || (off1 + Z.of_nat (length T) <=? f_size D) = true).
    { rewrite Htl. destruct Hfit as [E|E].
      - rewrite E. reflexivity.
      - apply orb_true_intro. right. apply Z.leb_le. lia. }
    rewrite Hok, Nat2Z.id, Htbl. reflexivity.
  - rewrite Hhdr'. exact Hseal.
  - reflexivity.
  - rewrite Hhdr', Hseal. fields. symmetry. exact EC.
Qed.

Lemma v1_repair_passes_header_only_inspector_witness :
  exists r,
    returns PartInfo.main (disk_after V1.main short_table) r
    /\ PartInfo.r_calcHdrCRC r = HeaderCRC32 (PartInfo.r_hdr r)
    /\ PartInfo.r_calcTableCRC r = PartitionTableCRC (PartInfo.r_hdr r).
Proof.
  destruct (v1_repair_passes_header_only_inspector short_table v1_short_table
              short_table_v1)
    as (r & Hr & _ & Hh & Ht).
  - split; vm_compute; congruence.
  - vm_compute. congruence.
  - vm_compute. congruence.
  - vm_compute. congruence.
  - exists r. split; [exact Hr|]. split; [exact Hh|exact Ht].
Defined.

(** * What a repair leaves alone, and where it puts the backup copies *)

(** The header fields that neither variant assigns: everything except
    [HeaderCRC32], [BackupLBA], [LastUsableLBA] and [PartitionTableCRC]. *)
Definition kept (hdr primary : GPTHeader) : Prop :=
  Signature primary = Signature hdr
  /\ Revision primary = Revision hdr
  /\ HeaderSize primary = HeaderSize hdr
  /\ Reserved primary = Reserved hdr
  /\ CurrentLBA primary = CurrentLBA hdr
  /\ FirstUsableLBA primary = FirstUsableLBA hdr
  /\ DiskGUID primary = DiskGUID hdr
  /\ PartitionTableLBA primary = PartitionTableLBA hdr
  /\ NumPartitions primary = NumPartitions hdr
  /\ PartitionEntrySize primary = PartitionEntrySize hdr.

(** X24. The primary header a successful run writes differs from the one it
    read in at most four fields: [BackupLBA], [LastUsableLBA],
    [PartitionTableCRC] and [HeaderCRC32].  In particular neither variant
    sets the header's own [CurrentLBA] to 1 or moves the primary table: a
    header that was copied from the backup keeps pointing at the end of the
    disk. *)
Theorem repair_keeps_primary_identity :
  (forall f o, returns V1.main f o ->
     kept (Header.of_bytes (read_bytes f SECTOR_SIZE 512)) (V1.o_primary o))
  /\ (forall f o, returns V2.main f o ->
     kept (Header.of_bytes (read_bytes f SECTOR_SIZE Header.size)) (V2.o_primary o)).
Proof.
  split; intros f o Hret.
  - destruct (V1Main.v1_main_ok f o Hret) as (_ & _ & _ & Hp & _).
    rewrite Hp. unfold kept. fields. repeat split; reflexivity.
  - destruct (V2Main.v2_main_ok f o Hret) as (ps & _ & _ & _ & _ & Hp & _).
    rewrite Hp. unfold kept. fields. repeat split; reflexivity.
Qed.

Lemma repair_keeps_primary_identity_witness :
  kept (Header.of_bytes (read_bytes small SECTOR_SIZE 512)) (V1.o_primary v1_small)
  /\ kept (Header.of_bytes (read_bytes small SECTOR_SIZE Header.size))
       (V2.o_primary v2_small).
Proof.
  split.
  - exact (proj1 repair_keeps_primary_identity small v1_small small_v1).
  - exact (proj2 repair_keeps_primary_identity small v2_small small_v2).
Defined.

Module Sizes.

Lemma partSectors_small t :
  0 <= t -> t + 511 < 2 ^ 63 -> V1.partSectors t = (t + 511) / 512.
Proof.
  intros H0 H1. unfold V1.partSectors, SECTOR_SIZE.
  replace (t + 512 - 1) with (t + 511) by lia.
  rewrite i64_small by lia. rewrite Z.quot_div_nonneg by lia.
  apply u64_small. unfold is_u64.
  pose proof (Z.div_pos (t + 511) 512). 
  assert ((t + 511) / 512 <= t + 511) by (apply Z.div_le_upper_bound; lia).
  lia.
Qed.

Lemma totalSectors_small s :
  0 <= s < 2 ^ 63 -> u64 (Z.quot s SECTOR_SIZE) = s / 512.
Proof.
  intros H. unfold SECTOR_SIZE. rewrite Z.quot_div_nonneg by lia.
  apply u64_small. unfold is_u64.
  pose proof (Z.div_pos s 512).
  assert (s / 512 <= s) by (apply Z.div_le_upper_bound; lia).
  lia.
Qed.

Lemma lastSector_small s :
  512 <= s < 2 ^ 63 -> V2Main.lastSector s = s / 512 - 1.
Proof.
  intros H. unfold V2Main.lastSector, SECTOR_SIZE.
  rewrite (u64_small s) by (unfold is_u64; lia).
  apply u64_small. unfold is_u64.
  assert (1 <= s / 512) by (apply Z.div_le_lower_bound; lia).
  assert (s / 512 <= s) by (apply Z.div_le_upper_bound; lia).
  lia.
Qed.

End Sizes.

(** X25. Where the backup copies go, for every disk size.  Variant 1 with a
    table of [t] bytes in [n = ceil(t / 512)] sectors on a disk of [s]
    sectors: backup header at [s - 1], backup table at [s - 1 - n], last
    usable sector [s - 2 - n], so the backup table starts right after the
    last usable sector and ends right before the backup header.  Variant 2:
    backup header at [s - 1], and both the last usable sector and the start
    of the backup table at [s - 34]; the backup header's [BackupLBA] is the
    [CurrentLBA] that was read, whatever it is. *)
Theorem backup_copies_placement :
  (forall f o, returns V1.main f o ->
     let hdr := Header.of_bytes (read_bytes f SECTOR_SIZE 512) in
     let t := NumPartitions hdr * PartitionEntrySize hdr in
     let n := (t + 511) / 512 in
     let s := f_size f / 512 in
     0 <= f_size f < 2 ^ 63 -> t + 511 < 2 ^ 63 -> n + 2 <= s ->
     BackupLBA (V1.o_primary o) = s - 1
     /\ CurrentLBA (V1.o_backup o) = s - 1
     /\ BackupLBA (V1.o_backup o) = 1
     /\ PartitionTableLBA (V1.o_backup o) = LastUsableLBA (V1.o_primary o) + 1
     /\ PartitionTableLBA (V1.o_backup o) + n = CurrentLBA (V1.o_backup o))
  /\ (forall f o, returns V2.main f o ->
     let hdr := Header.of_bytes (read_bytes f SECTOR_SIZE Header.size) in
     let s := f_size f / 512 in
     0 <= f_size f < 2 ^ 63 -> 34 <= s ->
     BackupLBA (V2.o_primary o) = s - 1
     /\ CurrentLBA (V2.o_backup o) = s - 1
     /\ BackupLBA (V2.o_backup o) = CurrentLBA hdr
     /\ PartitionTableLBA (V2.o_backup o) = LastUsableLBA (V2.o_primary o)
     /\ PartitionTableLBA (V2.o_backup o) + 33 = CurrentLBA (V2.o_backup o)).
Proof.
  split.
  - intros f o Hret hdr t n s Hsz Ht Hn.
    destruct (V1Main.v1_main_ok f o Hret) as (_ & Hpos & _ & Hp & Hb & _).
    fold hdr in Hpos, Hp, Hb.
    assert (Hwf : Header.wf hdr).
    { apply Codec.header_of_bytes_wf. rewrite read_bytes_length.
      unfold Header.size. lia. }
    pose proof (TableCRC.i64_product _ _ (wf_num _ Hwf) (wf_esz _ Hwf) Hpos) as Ei.
    fold t in Ei, Hpos, Hp, Hb. rewrite Ei in Hp, Hb.
    assert (0 <= t) by (rewrite <- Ei; exact Hpos).
    rewrite Hb, Hp. fields. unfold V1.backupTableLBA.
    rewrite Sizes.partSectors_small, Sizes.totalSectors_small by lia.
    fold n s.
    assert (0 <= n) by (apply Z.div_pos; lia).
    assert (s <= f_size f) by (apply Z.div_le_upper_bound; lia).
    rewrite (u64_small (s - 1)) by (unfold is_u64; lia).
    rewrite (u64_small (s - 1 - n)) by (unfold is_u64; lia).
    rewrite (u64_small (s - 1 - n - 1)) by (unfold is_u64; lia).
    repeat split; lia.
  - intros f o Hret hdr s Hsz Hs.
    destruct (V2Main.v2_main_ok f o Hret) as (ps & _ & _ & _ & _ & Hp & Hb & _).
    fold hdr in Hp. rewrite Hb, Hp. fields.
    assert (512 <= f_size f).
    { destruct (Z_lt_le_dec (f_size f) 512) as [Hlt|]; [|assumption].
      unfold s in Hs. rewrite Z.div_small in Hs; lia. }
    rewrite Sizes.lastSector_small by lia. fold s.
    assert (s <= f_size f) by (apply Z.div_le_upper_bound; lia).
    rewrite (u64_small (s - 1 - 33)) by (unfold is_u64; lia).
    repeat split; lia.
Qed.

Lemma backup_copies_placement_witness :
  (BackupLBA (V1.o_primary v1_small) = 63
   /\ CurrentLBA (V1.o_backup v1_small) = 63
   /\ BackupLBA (V1.o_backup v1_small) = 1
   /\ PartitionTableLBA (V1.o_backup v1_small)
      = LastUsableLBA (V1.o_primary v1_small) + 1
   /\ PartitionTableLBA (V1.o_backup v1_small) + 32
      = CurrentLBA (V1.o_backup v1_small))
  /\ (BackupLBA (V2.o_primary v2_small) = 63
   /\ CurrentLBA (V2.o_backup v2_small) = 63
   /\ BackupLBA (V2.o_backup v2_small) = 1
   /\ PartitionTableLBA (V2.o_backup v2_small)
      = LastUsableLBA (V2.o_primary v2_small)
   /\ PartitionTableLBA (V2.o_backup v2_small) + 33
      = CurrentLBA (V2.o_backup v2_small)).
Proof.
  split.
  - apply (proj1 backup_copies_placement small v1_small small_v1);
      vm_compute; intuition discriminate.
  - apply (proj2 backup_copies_placement small v2_small small_v2);
      vm_compute; intuition discriminate.
Defined.
